(** * distancetool: horizon and range of a detector network

    A shallow embedding of [codes/find_horizon_range_network.py] and the
    properties its specification states about it.

    Numbers.  The program computes with IEEE doubles; the embedding computes
    with exact canonical rationals [Qc], so that equality is Leibniz equality
    and every definition runs.  Rounding, [inf] and [nan] are outside the
    model, with one exception that the volume integral depends on: the ratio
    [snr_th / 0], which numpy evaluates to [inf] (see [antenna_weight]).

    Libraries of the program.  lalsimulation (waveforms), lal (detector
    responses), cosmolopy (distances and volumes), scipy's [leastsq], numpy's
    [sqrt] and the text files read with [loadtxt]/[genfromtxt] are not part of
    the repository; they are the fields of the class [Externals].  numpy's
    array operations and scipy's [interp1d], whose behaviour the claims depend
    on, are written out. *)

From Stdlib Require Import QArith Qcanon Lqa Sorted.
From stdpp Require Import base numbers list strings gmap.

Local Open Scope Qc_scope.

(** ** Exact rationals *)

Definition qc (n : Z) (d : positive) : Qc := Q2Qc (n # d).

Definition Qcabs (x : Qc) : Qc := if bool_decide (x < 0) then - x else x.
Definition Qcmax (x y : Qc) : Qc := if bool_decide (x < y) then y else x.
Definition Qcmin (x y : Qc) : Qc := if bool_decide (y < x) then y else x.
Definition Qc_of_nat (n : nat) : Qc := Qc_of_Z (Z.of_nat n).

(** Complex samples of a frequency series, as (real, imaginary). *)
Definition complex : Type := Qc * Qc.

(** [a * h] for a real [a]. *)
Definition cscale (a : Qc) (h : complex) : complex := (a * h.1, a * h.2).
Definition cadd (h k : complex) : complex := (h.1 + k.1, h.2 + k.2).
(** [abs(h)**2]: over exact numbers the square of the modulus is
    [re^2 + im^2]. *)
Definition cabs2 (h : complex) : Qc := h.1 * h.1 + h.2 * h.2.

(** ** Exceptions and non-termination *)

Inductive exn : Type :=
  | KeyError | IndexError | ValueError | NameError | IOError | RuntimeError.

(** The outcome of running a piece of the program: a value, a raised
    exception, or [Timeout] when the fuel given to the solver loop ran out
    before the loop condition became false. *)
Inductive result (A : Type) : Type :=
  | Ok (a : A)
  | Raise (e : exn)
  | Timeout.
Arguments Ok {A} a.
Arguments Raise {A} e.
Arguments Timeout {A}.

#[global] Instance result_ret : MRet result := λ A a, Ok a.
#[global] Instance result_bind : MBind result := λ A B f m,
  match m with
  | Ok a => f a
  | Raise e => Raise e
  | Timeout => Timeout
  end.
#[global] Instance result_fmap : FMap result := λ A B f m,
  match m with
  | Ok a => Ok (f a)
  | Raise e => Raise e
  | Timeout => Timeout
  end.

(** [o] or raise [e]. *)
Definition orraise {A} (e : exn) (o : option A) : result A :=
  match o with Some a => Ok a | None => Raise e end.

(** A [for] loop over the items [xs] whose body may raise. *)
Fixpoint for_each {S X} (xs : list X) (body : S → X → result S) (s : S) : result S :=
  match xs with
  | [] => Ok s
  | x :: xs' => s' ← body s x; for_each xs' body s'
  end.

(** ** numpy *)

(** [sum(a)]. *)
Definition np_sum (a : list Qc) : Qc := foldr Qcplus 0 a.

(** [cumsum(a)]: running totals, [cumsum(a)[i] = a[0] + ... + a[i]]. *)
Fixpoint cumsum_from (acc : Qc) (a : list Qc) : list Qc :=
  match a with
  | [] => []
  | x :: a' => (acc + x) :: cumsum_from (acc + x) a'
  end.
Definition np_cumsum (a : list Qc) : list Qc := cumsum_from 0 a.

(** [min(a)] and [max(a)]; both raise ValueError on an empty array. *)
Definition np_min (a : list Qc) : result Qc :=
  match a with
  | [] => Raise ValueError
  | x :: a' => Ok (foldl Qcmin x a')
  end.
Definition np_max (a : list Qc) : result Qc :=
  match a with
  | [] => Raise ValueError
  | x :: a' => Ok (foldl Qcmax x a')
  end.

(** [where(c)[0]]: the indices at which the boolean array [c] holds. *)
Fixpoint where_from (i : nat) (c : list bool) : list nat :=
  match c with
  | [] => []
  | b :: c' => if b then i :: where_from (S i) c' else where_from (S i) c'
  end.
Definition np_where (c : list bool) : list nat := where_from 0 c.

(** [a[idx]] for an array of indices; an index out of range raises. *)
Fixpoint take_indices {A} (a : list A) (idx : list nat) : result (list A) :=
  match idx with
  | [] => Ok []
  | i :: idx' =>
      x ← orraise IndexError (a !! i);
      r ← take_indices a idx';
      Ok (x :: r)
  end.

(** [a[mask]] for a boolean array [mask].  Current numpy raises IndexError
    when the lengths differ ([strict = true]).  numpy before 1.13 only warned
    and read [a] at the positions where [mask] holds, raising when such a
    position is past the end of [a] ([strict = false]). *)
Fixpoint take_mask {A} (mask : list bool) (a : list A) : result (list A) :=
  match mask, a with
  | [], _ => Ok []
  | true :: mask', x :: a' => r ← take_mask mask' a'; Ok (x :: r)
  | false :: mask', _ :: a' => take_mask mask' a'
  | true :: _, [] => Raise IndexError
  | false :: mask', [] => take_mask mask' []
  end.
Definition bool_index {A} (strict : bool) (a : list A) (mask : list bool)
    : result (list A) :=
  if strict && negb (length mask =? length a)%nat then Raise IndexError
  else take_mask mask a.

(** An elementwise binary operation with numpy's broadcasting of
    one-dimensional arrays: equal lengths, or one operand of length one. *)
Definition broadcast2 {A B C} (f : A → B → C) (a : list A) (b : list B)
    : result (list C) :=
  if (length a =? length b)%nat then Ok (zip_with f a b)
  else match a, b with
       | [x], _ => Ok (f x <$> b)
       | _, [y] => Ok ((λ x, f x y) <$> a)
       | _, _ => Raise ValueError
       end.

(** [linspace(start, stop, num, endpoint=False, retstep=True)]: the samples
    [start + i * step] for [i < num], and [step = (stop - start) / num]. *)
Definition linspace_open (start stop : Qc) (num : nat) : list Qc * Qc :=
  let step := (stop - start) / Qc_of_nat num in
  ((λ i, Qc_of_nat i * step + start) <$> seq 0 num, step).

(** [logical_and(freqs > lo, freqs < hi)]. *)
Definition band_mask (freqs : list Qc) (lo hi : Qc) : list bool :=
  (λ f, bool_decide (lo < f) && bool_decide (f < hi)) <$> freqs.

(** ** scipy.interpolate.interp1d (kind = linear) *)

(** Stable sort of the samples by abscissa, as [interp1d] does on
    construction ([assume_sorted=False]). *)
Fixpoint insert_sample (p : Qc * Qc) (l : list (Qc * Qc)) : list (Qc * Qc) :=
  match l with
  | [] => [p]
  | p' :: l' => if bool_decide (p'.1 < p.1) then p' :: insert_sample p l'
                else p :: p' :: l'
  end.
Definition sort_samples (l : list (Qc * Qc)) : list (Qc * Qc) :=
  foldr insert_sample [] l.

(** The interpolant object: its sorted samples and what it does outside
    their range: raise ([fill = None], the default [bounds_error=True]) or
    return a fill value ([bounds_error=False, fill_value=v]). *)
Record interp := Interp {
  samples : list (Qc * Qc);
  fill : option Qc
}.

(** [interp1d(x, y, ...)].  The arrays must have the same length; a table
    of fewer than two rows does not reach this call as a one-dimensional
    array and is rejected. *)
Definition interp1d (x y : list Qc) (fill : option Qc) : result interp :=
  if negb (length x =? length y)%nat || (length x <? 2)%nat then Raise ValueError
  else Ok (Interp (sort_samples (zip x y)) fill).

(** [searchsorted(xs, v)] (side = left): how many samples lie below [v]. *)
Definition searchsorted (xs : list Qc) (v : Qc) : nat :=
  length (filter (λ x, x < v) xs).

(** The call [f(v)] at one point: outside the sampled range the fill value
    or ValueError; inside, the line through the two samples around [v],
    [slope * (v - x_lo) + y_lo] with the index found by [searchsorted]
    clipped to [1 .. n-1]. *)
Definition interp_at (f : interp) (v : Qc) : result Qc :=
  let xs := (samples f).*1 in
  match head xs, last xs with
  | Some x_first, Some x_last =>
      if bool_decide (v < x_first) || bool_decide (x_last < v) then
        match fill f with Some d => Ok d | None => Raise ValueError end
      else
        let hi := (1 `max` (searchsorted xs v `min` (length xs - 1)))%nat in
        let lo := (hi - 1)%nat in
        match samples f !! lo, samples f !! hi with
        | Some (x_lo, y_lo), Some (x_hi, y_hi) =>
            Ok ((y_hi - y_lo) / (x_hi - x_lo) * (v - x_lo) + y_lo)
        | _, _ => Raise IndexError
        end
  | _, _ => Raise ValueError
  end.

(** The call on an array. *)
Fixpoint interp_call (f : interp) (vs : list Qc) : result (list Qc) :=
  match vs with
  | [] => Ok []
  | v :: vs' => y ← interp_at f v; r ← interp_call f vs'; Ok (y :: r)
  end.

(** ** The libraries the program calls *)

(** The keyword arguments [**cosmo] of cosmolopy's functions. *)
Record cosmology := Cosmology {
  omega_M_0 : Qc;
  omega_lambda_0 : Qc;
  omega_k_0 : Qc;
  h : Qc
}.

(** The arguments of [SimInspiralChooseFDWaveform] that the program sets;
    spins, tidal parameters, flags and orders are the constants of
    [get_htildas]'s defaults. *)
Record waveform_args := WaveformArgs {
  wf_phase : Qc;
  wf_deltaF : Qc;
  wf_m1_SI : Qc;
  wf_m2_SI : Qc;
  wf_f_min : Qc;
  wf_f_max : Qc;
  wf_f_ref : Qc;
  wf_r_SI : Qc;
  wf_iota : Qc;
  wf_approx : nat
}.

(** A [COMPLEX16FrequencySeries]: [f0], [deltaF] and [data.data]
    ([data.length] is the length of the list). *)
Record frequency_series := FrequencySeries {
  f0 : Qc;
  deltaF : Qc;
  data : list complex
}.

(** The entries of [lal.CachedDetectors] that [det_index] names. *)
Inductive lal_detector : Type := LHO | LLO | VIRGO | KAGRA | LIO.

Class Externals := {
  (** lal constants *)
  MSUN_SI : Qc;
  PC_SI : Qc;
  (** cosmolopy.distance *)
  luminosity_distance : Qc → cosmology → Qc;
  comoving_volume : Qc → cosmology → Qc;
  (** [leastsq(func, x0)[0][0]]: the solution found from the seed [x0] *)
  leastsq : (Qc → Qc) → Qc → Qc;
  (** lalsimulation *)
  SimInspiralChooseFDWaveform :
    waveform_args → result (frequency_series * frequency_series);
  (** lal *)
  GreenwichMeanSiderealTime : Qc → Qc;
  ComputeDetAMResponse : lal_detector → Qc → Qc → Qc → Qc → Qc * Qc;
  (** numpy *)
  sqrt : Qc → Qc;
  strict_bool_index : bool;
  (** the files: a two-column table, unpacked; the four numbers of a
      coordinate file *)
  loadtxt : string → result (list Qc * list Qc);
  genfromtxt : string → result (list Qc * list Qc);
  genfromtxt_coord : string → result (Qc * Qc * Qc * Qc)
}.

(** ** The program *)

Definition snr_th : Qc := Qc_of_Z 12.
Definition cosmo : cosmology :=
  Cosmology (qc 308 1000) (qc 692 1000) 0 (qc 678 1000).

Definition det_index : gmap string lal_detector :=
  <["H" := LHO]> (<["L" := LLO]> (<["V" := VIRGO]> (<["J" := KAGRA]>
    (<["I" := LIO]> ∅)))).

Section program.
Context {ext : Externals}.

(** find redshift for a given luminosity distance *)
Definition findzfromDL (z DL : Qc) : Qc := DL - luminosity_distance z cosmo.

(** estimate the horizon for recursive evaluation in the main code *)
Definition horizon_dist_eval (orig_dist snr z0 : Qc) : Qc * Qc :=
  let guess_dist := orig_dist * snr / snr_th in
  let guess_redshift := leastsq (λ z, findzfromDL z guess_dist) z0 in
  (guess_redshift, guess_dist).

(** generate the waveform *)
Definition get_htildas (m1 m2 dist iota fmin fref df : Qc) (approx : nat)
    : result (list complex * list complex * list Qc) :=
  '(hplus_tilda, hcross_tilda) ← SimInspiralChooseFDWaveform
      (WaveformArgs 0 df (m1 * MSUN_SI) (m2 * MSUN_SI) fmin 0 fref
         (dist * (Qc_of_Z 1000000 * PC_SI)) iota approx);
  let freqs := (λ i, f0 hplus_tilda + Qc_of_nat i * deltaF hplus_tilda)
                 <$> seq 0 (length (data hplus_tilda)) in
  Ok (data hplus_tilda, data hcross_tilda, freqs).

Definition getDetResp (detector : string) (ra dec psi : Qc) : result (Qc * Qc) :=
  let gmst := GreenwichMeanSiderealTime 0 in
  det ← orraise KeyError (det_index !! detector);
  Ok (ComputeDetAMResponse det ra dec psi gmst).

(** One pass of the loop of [compute_horizonSNR]: the term a detector adds
    to [snrsq]. *)
Definition snrsq_term (hplus_tilda hcross_tilda : list complex)
    (network : list string) (ra dec psi : Qc)
    (psd_interp : list (list Qc)) (fsel : list (list bool)) (df : Qc)
    (detector : nat) : result Qc :=
  name ← orraise IndexError (network !! detector);
  '(fplus, fcross) ← getDetResp name ra dec psi;
  h_tilda ← broadcast2 cadd (cscale fplus <$> hplus_tilda)
                            (cscale fcross <$> hcross_tilda);
  mask ← orraise IndexError (fsel !! detector);
  band ← bool_index strict_bool_index h_tilda mask;
  psd ← orraise IndexError (psd_interp !! detector);
  ratio ← broadcast2 Qcdiv (cabs2 <$> band) psd;
  Ok (Qc_of_Z 4 * df * np_sum ratio).

(** Calculate maximum SNR at the coordinate (ra,dec,psi) *)
Definition compute_horizonSNR (hplus_tilda hcross_tilda : list complex)
    (network : list string) (ra dec psi : Qc)
    (psd_interp : list (list Qc)) (fsel : list (list bool)) (df : Qc)
    : result Qc :=
  snrsq ← for_each (seq 0 (length network))
    (λ snrsq detector,
       t ← snrsq_term hplus_tilda hcross_tilda network ra dec psi
             psd_interp fsel df detector;
       Ok (snrsq + t)) 0;
  Ok (sqrt snrsq).

(** *** [find_horizon_range] *)

(** The noise curves as loaded (lines 107-113): the two arrays of
    frequency bounds, indexed by position in the network, and the dictionary
    of interpolants, keyed by detector name. *)
Record noise_model := NoiseModel {
  minimum_freq : list Qc;
  maximum_freq : list Qc;
  psdinterp_dict : gmap string interp
}.

Definition load_detector (network asdfile : list string)
    (nm : noise_model) (detector : nat) : result noise_model :=
  path ← orraise IndexError (asdfile !! detector);
  '(input_freq, strain) ← loadtxt path;
  lo ← np_min input_freq;
  hi ← np_max input_freq;
  f ← interp1d input_freq ((λ s, s * s) <$> strain) None;
  name ← orraise IndexError (network !! detector);
  Ok (NoiseModel (<[detector := Qcmax (Qc_of_Z 10) lo]> (minimum_freq nm))
                 (<[detector := Qcmin (Qc_of_Z 5000) hi]> (maximum_freq nm))
                 (<[name := f]> (psdinterp_dict nm))).

Definition load_noise (network asdfile : list string) : result noise_model :=
  for_each (seq 0 (length network)) (load_detector network asdfile)
    (NoiseModel (replicate (length network) 0)
                (replicate (length network) 0) ∅).

(** The lists [fsel] and [psd_interp]. *)
Definition selection : Type := list (list bool) * list (list Qc).

(** The loop that appends, for every detector, its band mask over [freqs]
    to [fsel] and its PSD samples to [psd_interp] (lines 120-122, 133-135
    and 153-155).  The PSD is evaluated at [freqs[fsel[detector]]], where
    [fsel[detector]] is read from the list after the append. *)
Definition select_detector (network : list string) (nm : noise_model)
    (freqs : list Qc) (s : selection) (detector : nat) : result selection :=
  lo ← orraise IndexError (minimum_freq nm !! detector);
  hi ← orraise IndexError (maximum_freq nm !! detector);
  let fsel := s.1 ++ [band_mask freqs lo hi] in
  name ← orraise IndexError (network !! detector);
  f ← orraise KeyError (psdinterp_dict nm !! name);
  mask ← orraise IndexError (fsel !! detector);
  band ← bool_index strict_bool_index freqs mask;
  psd ← interp_call f band;
  Ok (fsel, s.2 ++ [psd]).

Definition select_bands (network : list string) (nm : noise_model)
    (freqs : list Qc) (s : selection) : result selection :=
  for_each (seq 0 (length network)) (select_detector network nm freqs) s.

(** What the call fixes before the loops: the arguments, the orientation
    sample and the noise model. *)
Record setup := Setup {
  m1 : Qc;
  m2 : Qc;
  network : list string;
  approx : nat;
  ra : Qc;
  dec : Qc;
  psi : Qc;
  iota : Qc;
  noise : noise_model
}.

Definition fmin : Qc := Qc_of_Z 10.
Definition fref : Qc := Qc_of_Z 10.
Definition df : Qc := qc 1 100.

(** The block the program repeats for the seed, in the solver loop and in
    the loop over the shells: generate the waveform of the source at
    redshift [z] and distance [dist], append the band masks and PSD samples
    of its frequency grid to the lists [s], and compute the network SNR
    with the lists. *)
Definition network_snr_at (c : setup) (s : selection) (z dist : Qc)
    : result (Qc * selection) :=
  '(hplus_tilda, hcross_tilda, freqs) ←
     get_htildas ((1 + z) * m1 c) ((1 + z) * m2 c) dist (iota c)
       fmin fref df (approx c);
  s' ← select_bands (network c) (noise c) freqs s;
  snr ← compute_horizonSNR hplus_tilda hcross_tilda (network c)
          (ra c) (dec c) (psi c) s'.2 s'.1 df;
  Ok (snr, s').

(** With the lists emptied first, [fsel=list(); psd_interp=list()], as on
    lines 119-123 and 132-136. *)
Definition snr_at (c : setup) (z dist : Qc) : result (Qc * selection) :=
  network_snr_at c ([], []) z dist.

(** The variables of the solver loop.  [guess_redshift] is unbound until
    the body has run once. *)
Record solver_state := SolverState {
  input_dist : Qc;
  input_snr : Qc;
  input_redshift : Qc;
  guess_snr : Qc;
  guess_redshift : option Qc;
  lists : selection
}.

(** Lines 115-125. *)
Definition solver_init (c : setup) : result solver_state :=
  let z0 := qc 1 10 in
  let input_dist := luminosity_distance z0 cosmo in
  '(input_snr, s) ← snr_at c z0 input_dist;
  Ok (SolverState input_dist input_snr z0 0 None s).

(** The loop condition (line 127). *)
Definition not_converged (st : solver_state) : bool :=
  bool_decide (snr_th * qc 1 1000 < Qcabs (guess_snr st - snr_th)).

(** The loop body (lines 128-140). *)
Definition solver_step (c : setup) (st : solver_state) : result solver_state :=
  let '(guess_redshift, guess_dist) :=
    horizon_dist_eval (input_dist st) (input_snr st) (input_redshift st) in
  '(guess_snr, s) ← snr_at c guess_redshift guess_dist;
  Ok (SolverState guess_dist guess_snr guess_redshift guess_snr
        (Some guess_redshift) s).

(** The [while] loop, run for at most [fuel] passes. *)
Fixpoint solver_loop (fuel : nat) (c : setup) (st : solver_state)
    : result solver_state :=
  if not_converged st then
    match fuel with
    | O => Timeout
    | S fuel' => st' ← solver_step c st; solver_loop fuel' c st'
    end
  else Ok st.

(** [P(w)] for [w = snr_th / optsnr_z] (lines 157-158).  A zero SNR makes
    [w] infinite, which lies above every sample of the table. *)
Definition antenna_weight (P : interp) (optsnr_z : Qc) : result Qc :=
  if bool_decide (optsnr_z = 0) then
    match fill P with Some d => Ok d | None => Raise ValueError end
  else interp_at P (snr_th / optsnr_z).

(** The body of the loop over the shells (lines 152-158).  The lists
    [fsel] and [psd_interp] are the ones the solver left; the loop appends
    to them. *)
Definition shell_step (c : setup) (P : interp) (z : list Qc) (dz : Qc)
    (st : selection * list Qc) (i : nat) : result (selection * list Qc) :=
  zi ← orraise IndexError (z !! i);
  '(optsnr_z, s) ← network_snr_at c st.1 zi (luminosity_distance zi cosmo);
  pw ← antenna_weight P optsnr_z;
  let v := (comoving_volume (zi + dz / Qc_of_Z 2) cosmo
            - comoving_volume (zi - dz / Qc_of_Z 2) cosmo) / (1 + zi) * pw in
  Ok (s, <[i := v]> st.2).

Definition n_zstep : nat := 100.

(** Lines 148-158: the shell redshifts and their volume elements. *)
Definition shell_volumes (c : setup) (P : interp) (horizon_redshift : Qc)
    (s : selection) : result (list Qc * list Qc) :=
  let '(z, dz) := linspace_open horizon_redshift 0 n_zstep in
  let dz := Qcabs dz in
  '(_, unit_volume) ← for_each (seq 0 (length z)) (shell_step c P z dz)
                        (s, replicate (length z) 0);
  Ok (z, unit_volume).

(** [max(z[where(cumsum(unit_volume) >= frac * vol_sum)])]
    (lines 162-163). *)
Definition enclosed_redshift (frac : Qc) (z unit_volume : list Qc)
    (vol_sum : Qc) : result Qc :=
  let threshold := frac * vol_sum in
  zs ← take_indices z
         (np_where ((λ v, bool_decide (threshold ≤ v))
                      <$> np_cumsum unit_volume));
  np_max zs.

Record horizon_result := HorizonResult {
  horizon_redshift : Qc;
  horizon_distance : Qc;
  distance_50 : Qc;
  distance_90 : Qc;
  detectable_volume : Qc
}.

(** Lines 141-164, from the state the solver loop ended in. *)
Definition range_from (c : setup) (pwfile : string) (st : solver_state)
    : result horizon_result :=
  horizon_redshift ← orraise NameError (guess_redshift st);
  '(w_sample, P_sample) ← genfromtxt ("../data/pw_" +:+ pwfile +:+ ".txt");
  P ← interp1d w_sample P_sample (Some 0);
  '(z, unit_volume) ← shell_volumes c P horizon_redshift (lists st);
  let vol_sum := np_sum unit_volume in
  z50 ← enclosed_redshift (qc 1 2) z unit_volume vol_sum;
  z90 ← enclosed_redshift (qc 1 10) z unit_volume vol_sum;
  Ok (HorizonResult horizon_redshift
        (luminosity_distance horizon_redshift cosmo)
        (luminosity_distance z50 cosmo)
        (luminosity_distance z90 cosmo)
        vol_sum).

(** Lines 101-113: the orientation sample and the noise curves. *)
Definition read_setup (m1 m2 : Qc) (network asdfile : list string)
    (pwfile : string) (approx : nat) : result setup :=
  '(ra, dec, psi, iota) ←
     genfromtxt_coord ("../data/horizon_coord_" +:+ pwfile +:+ ".txt");
  nm ← load_noise network asdfile;
  Ok (Setup m1 m2 network approx ra dec psi iota nm).

(** calculate the horizon distance/redshift *)
Definition find_horizon_range (fuel : nat) (m1 m2 : Qc)
    (network asdfile : list string) (pwfile : string) (approx : nat)
    : result horizon_result :=
  c ← read_setup m1 m2 network asdfile pwfile approx;
  st0 ← solver_init c;
  st ← solver_loop fuel c st0;
  range_from c pwfile st.

End program.

(** ** The vocabulary of the properties *)

Section vocabulary.
Context {ext : Externals}.

(** The states the solver loop passes through. *)
Inductive solver_reachable (c : setup) : solver_state → Prop :=
  | reach_init st :
      solver_init c = Ok st → solver_reachable c st
  | reach_step st st' :
      solver_reachable c st → not_converged st = true →
      solver_step c st = Ok st' → solver_reachable c st'.

(** A state left by the loop body: its SNR is the one of its redshift and
    distance. *)
Definition stepped (c : setup) (st : solver_state) : Prop :=
  guess_redshift st = Some (input_redshift st) ∧
  snr_at c (input_redshift st) (input_dist st) = Ok (guess_snr st, lists st).

(** The volume element of the shell at [zi], of width [dz], weighted by
    [pw]. *)
Definition volume_element (zi dz pw : Qc) : Qc :=
  (comoving_volume (zi + dz / Qc_of_Z 2) cosmo
   - comoving_volume (zi - dz / Qc_of_Z 2) cosmo) / (1 + zi) * pw.

(** What a pass of the loop over the shells computes: the network SNR of
    the waveform at [zi], over the lists [fsel] and [psd_interp] as they
    stand, and the antenna weight [P(snr_th / SNR)] of that SNR. *)
Definition shell_weight (c : setup) (P : interp) (zi pw : Qc) : Prop :=
  ∃ (s s' : selection) optsnr_z,
    network_snr_at c s zi (luminosity_distance zi cosmo) = Ok (optsnr_z, s') ∧
    antenna_weight P optsnr_z = Ok pw.

(** [zf] is the highest redshift among the shells at which the volume
    accumulated from the horizon down to the shell reaches [frac] of the
    total. *)
Definition highest_shell_reaching (frac : Qc) (z unit_volume : list Qc)
    (zf : Qc) : Prop :=
  (∃ i, z !! i = Some zf ∧ (i < length unit_volume)%nat ∧
        frac * np_sum unit_volume ≤ np_sum (take (S i) unit_volume)) ∧
  (∀ j zj, z !! j = Some zj → (j < length unit_volume)%nat →
           frac * np_sum unit_volume ≤ np_sum (take (S j) unit_volume) →
           zj ≤ zf).

(** Position [d] of the network was loaded from a file with the columns
    [input_freq] and [strain]: the extremes of the frequencies and the
    interpolant of the squared strain. *)
Definition loaded_from (asdfile : list string) (d : nat)
    (input_freq strain : list Qc) (lo hi : Qc) (f : interp) : Prop :=
  ∃ path, asdfile !! d = Some path ∧
    loadtxt path = Ok (input_freq, strain) ∧
    np_min input_freq = Ok lo ∧ np_max input_freq = Ok hi ∧
    interp1d input_freq ((λ s, s * s) <$> strain) None = Ok f.

(** *** The SNR integrator in the words of the specification

    For each detector, project the plus and cross strains onto the
    detector's response, restrict to the detector's band, accumulate
    [4 * freq_step * sum(|strain|^2 / PSD)]; sum over the detectors and take
    the square root. *)

Record detector_data := DetectorData {
  response : Qc * Qc;
  band : list bool;
  psd : list Qc
}.

Definition projected_strain (d : detector_data)
    (h_plus h_cross : list complex) : list complex :=
  zip_with (λ p x, cadd (cscale (response d).1 p) (cscale (response d).2 x))
    h_plus h_cross.

(** The entries of [a] at the positions where [mask] holds. *)
Definition in_band {A} (mask : list bool) (a : list A) : list A :=
  (filter (λ p, p.1 = true) (zip mask a)).*2.

Definition detector_snrsq (freq_step : Qc) (h_plus h_cross : list complex)
    (d : detector_data) : Qc :=
  Qc_of_Z 4 * freq_step
  * np_sum (zip_with (λ h s, cabs2 h / s)
              (in_band (band d) (projected_strain d h_plus h_cross)) (psd d)).

Definition network_snr (freq_step : Qc) (h_plus h_cross : list complex)
    (ds : list detector_data) : Qc :=
  sqrt (np_sum (detector_snrsq freq_step h_plus h_cross <$> ds)).

End vocabulary.

(** ** A small world to run the program in

    Concrete libraries and files on which the definitions above evaluate:
    a linear distance-redshift law, a waveform family with a flat spectrum
    whose amplitude is proportional to the redshifted total mass and to
    1/distance, whose frequency grid starts at [fmin] and whose length is a
    power of two (plus one) that shrinks as the mass grows, and a root
    finder that takes one Newton step (exact on the linear law). *)
Module Toy.

Definition toy_luminosity_distance (z : Qc) (c : cosmology) : Qc :=
  Qc_of_Z 3000 / h c * z.

Definition toy_comoving_volume (z : Qc) (c : cosmology) : Qc :=
  let d := toy_luminosity_distance z c in qc 88 21 * d * d * d.

Definition toy_leastsq (f : Qc → Qc) (x0 : Qc) : Qc :=
  x0 - f x0 / (f (x0 + 1) - f x0).

(** Exact on squares of rationals, twelve decimals elsewhere. *)
Definition toy_sqrt (x : Qc) : Qc :=
  let n := Qnum (this x) in
  let d := Zpos (Qden (this x)) in
  Qc_of_Z (Z.sqrt (n * d * 10 ^ 24)) / Qc_of_Z (d * 10 ^ 12).

Fixpoint next_pow2 (fuel : nat) (p : Z) (x : Qc) : Z :=
  match fuel with
  | O => p
  | S fuel' =>
      if bool_decide (Qc_of_Z p < x) then next_pow2 fuel' (2 * p) x else p
  end.

Definition toy_MSUN_SI : Qc := Qc_of_Z (198847 * 10 ^ 25).
Definition toy_PC_SI : Qc := Qc_of_Z (30857 * 10 ^ 12).

(** The total mass [m] in solar masses and the distance [d] in Mpc give
    the amplitude and the length of the series. *)
Definition toy_waveform (a : waveform_args)
    : result (frequency_series * frequency_series) :=
  let m := (wf_m1_SI a + wf_m2_SI a) / toy_MSUN_SI in
  let d := wf_r_SI a / (Qc_of_Z 1000000 * toy_PC_SI) in
  if bool_decide (d ≤ 0) || bool_decide (m ≤ 0) then Raise RuntimeError
  else
    let amp := qc 200000 1243 * m / d in
    let n := Z.to_nat (next_pow2 40 1 (qc 19 5 / m / wf_deltaF a) + 1) in
    Ok (FrequencySeries (wf_f_min a) (wf_deltaF a) (replicate n (amp, 0)),
        FrequencySeries (wf_f_min a) (wf_deltaF a) (replicate n (0, - amp))).

Definition toy_response (d : lal_detector) (ra dec psi gmst : Qc) : Qc * Qc :=
  match d with
  | LHO => (1, 0)
  | LLO => (0, qc 3 4)
  | _ => (qc 1 2, qc 1 2)
  end.

Definition toy_loadtxt (path : string) : result (list Qc * list Qc) :=
  if bool_decide (path = "H.txt") then
    Ok ([qc 5 1; qc 8 1; qc 10045 1000], [1; 1; 1])
  else if bool_decide (path = "L.txt") then
    Ok ([qc 5 1; qc 8 1; qc 10045 1000], [1; 1; 1])
  else if bool_decide (path = "low.txt") then
    Ok ([qc 1 1; qc 5 1], [1; 1])
  else if bool_decide (path = "wide.txt") then
    Ok ([qc 5 1; qc 11 1], [1; 1])
  else Raise IOError.

Definition toy_genfromtxt (path : string) : result (list Qc * list Qc) :=
  if bool_decide (path = "../data/pw_toy.txt") then
    Ok ([qc 97 100; qc 197 200; 1], [1; qc 3 4; qc 1 2])
  else Raise IOError.

Definition toy_coord (path : string) : result (Qc * Qc * Qc * Qc) :=
  if bool_decide (path = "../data/horizon_coord_toy.txt") then Ok (0, 0, 0, 0)
  else Raise IOError.

Definition world_with (solver : (Qc → Qc) → Qc → Qc) (strict : bool)
    : Externals := {|
  MSUN_SI := toy_MSUN_SI;
  PC_SI := toy_PC_SI;
  luminosity_distance := toy_luminosity_distance;
  comoving_volume := toy_comoving_volume;
  leastsq := solver;
  SimInspiralChooseFDWaveform := toy_waveform;
  GreenwichMeanSiderealTime := λ t, t;
  ComputeDetAMResponse := toy_response;
  sqrt := toy_sqrt;
  strict_bool_index := strict;
  loadtxt := toy_loadtxt;
  genfromtxt := toy_genfromtxt;
  genfromtxt_coord := toy_coord
|}.

Definition world (strict : bool) : Externals := world_with toy_leastsq strict.

(** A call on the network of [network] with both masses equal to [m]. *)
Definition run (strict : bool) (m : Qc) (network asdfile : list string)
    : result horizon_result :=
  @find_horizon_range (world strict) 20 m m network asdfile "toy" 0.

Definition strict_world : Externals := world true.
Definition legacy_world : Externals := world false.

Definition no_result : horizon_result := HorizonResult 0 0 0 0 0.
Definition value_of {A} (d : A) (r : result A) : A :=
  match r with Ok a => a | _ => d end.

Definition no_setup : setup :=
  Setup 0 0 [] 0 0 0 0 0 (NoiseModel [] [] ∅).

(** Two detectors, 33 + 33 solar masses. *)
Definition setup_HL : setup :=
  Eval vm_compute in
    value_of no_setup
      (@read_setup (world true) (Qc_of_Z 33) (Qc_of_Z 33) ["H"; "L"]
         ["H.txt"; "L.txt"] "toy" 0).
Definition run_HL : result horizon_result :=
  run true (Qc_of_Z 33) ["H"; "L"] ["H.txt"; "L.txt"].
Definition result_HL : horizon_result :=
  Eval vm_compute in value_of no_result run_HL.

Definition state_HL : solver_state :=
  Eval vm_compute in
    value_of (SolverState 0 0 0 0 None ([], []))
      (st0 ← @solver_init (world true) setup_HL;
       @solver_loop (world true) 20 setup_HL st0).
Definition table : interp :=
  Eval vm_compute in
    value_of (Interp [] None)
      (interp1d [qc 97 100; qc 197 200; 1] [1; qc 3 4; qc 1 2] (Some 0)).
Definition shells_HL : list Qc * list Qc :=
  Eval vm_compute in
    value_of ([], [])
      (@shell_volumes (world true) setup_HL table (horizon_redshift result_HL)
         (lists state_HL)).

(** Two detectors, of which H has a noise file that ends at 5 Hz. *)
Definition run_low : result horizon_result :=
  run true (Qc_of_Z 30) ["H"; "L"] ["low.txt"; "L.txt"].
Definition result_low : horizon_result :=
  Eval vm_compute in value_of no_result run_low.

Definition setup_low : setup :=
  Eval vm_compute in
    value_of no_setup
      (@read_setup (world true) (Qc_of_Z 30) (Qc_of_Z 30) ["H"; "L"]
         ["low.txt"; "L.txt"] "toy" 0).
Definition psd_low : interp :=
  Eval vm_compute in
    value_of (Interp [] None)
      (interp1d [qc 1 1; qc 5 1] ((λ s, s * s) <$> [1; 1]) None).

(** The network H, L, H with a different file for the second H. *)
Definition noise_HLH : noise_model :=
  Eval vm_compute in
    value_of (NoiseModel [] [] ∅)
      (@load_noise (world true) ["H"; "L"; "H"]
         ["H.txt"; "L.txt"; "wide.txt"]).

(** One detector with a band from 10 to 11 Hz, 45 + 45 solar masses: the
    frequency grid of the waveform is longer for the shells of low
    redshift than it is at the horizon. *)
Definition setup_wide : setup :=
  Eval vm_compute in
    value_of no_setup
      (@read_setup (world true) (Qc_of_Z 45) (Qc_of_Z 45) ["H"]
         ["wide.txt"] "toy" 0).
Definition state_wide : solver_state :=
  Eval vm_compute in
    value_of (SolverState 0 0 0 0 None ([], []))
      (st0 ← @solver_init (world true) setup_wide;
       @solver_loop (world true) 20 setup_wide st0).

Definition zh_wide : Qc :=
  Eval vm_compute in default 0 (guess_redshift state_wide).
Definition z_wide : list Qc := (linspace_open zh_wide 0 n_zstep).1.
Definition dz_wide : Qc := Qcabs (linspace_open zh_wide 0 n_zstep).2.
Definition z99_wide : Qc :=
  Eval vm_compute in default 0 (z_wide !! 99%nat).
(** The SNR of the last shell over the band of its own grid. *)
Definition snr99_own_band : Qc * selection :=
  Eval vm_compute in
    value_of (0, ([], []))
      (@snr_at (world true) setup_wide z99_wide
         (toy_luminosity_distance z99_wide cosmo)).
(** The lists after the first 99 shells, and the SNR that the loop computes
    for the last shell, when numpy accepts a mask shorter than the array. *)
Definition lists99_wide : selection * list Qc :=
  Eval vm_compute in
    value_of (([], []), [])
      (for_each (seq 0 99)
         (@shell_step (world false) setup_wide table z_wide dz_wide)
         (lists state_wide, replicate 100 0)).
Definition snr99_used : Qc * selection :=
  Eval vm_compute in
    value_of (0, ([], []))
      (@network_snr_at (world false) setup_wide lists99_wide.1 z99_wide
         (toy_luminosity_distance z99_wide cosmo)).

(** A small two-detector input of [compute_horizonSNR] and its SNR. *)
Definition snr_small : Qc :=
  Eval vm_compute in
    value_of 0
      (@compute_horizonSNR (world true)
         [(1, 0); (Qc_of_Z 2, 0)] [(0, -1); (0, - Qc_of_Z 2)]
         ["H"; "L"] 0 0 0 [[1]; [Qc_of_Z 2; Qc_of_Z 4]]
         [[true; false]; [true; true]] df).

(** The waveform of 30 + 30 solar masses at 100 Mpc. *)
Definition wave_small : list complex * list complex * list Qc :=
  Eval vm_compute in
    value_of ([], [], [])
      (@get_htildas (world true) (Qc_of_Z 30) (Qc_of_Z 30) (Qc_of_Z 100) 0
         fmin fref df 0).

(** The lists of the two-detector network on a grid of three samples. *)
Definition lists_small : selection :=
  Eval vm_compute in
    value_of ([], [])
      (@select_bands (world true) ["H"; "L"] (noise setup_HL)
         [Qc_of_Z 10; qc 1001 100; qc 1002 100] ([], [])).

(** The waveform of the state the two-detector solver ends in. *)
Definition wave_HL : list complex * list complex * list Qc :=
  Eval vm_compute in
    value_of ([], [], [])
      (@get_htildas (world true)
         ((1 + input_redshift state_HL) * m1 setup_HL)
         ((1 + input_redshift state_HL) * m2 setup_HL)
         (input_dist state_HL) (iota setup_HL) fmin fref df (approx setup_HL)).

End Toy.

(** * Properties *)

(** ** Arithmetic over [Qc] through [Q] *)

Lemma Qc_eq_Qeq (x y : Qc) : x = y ↔ (this x == this y)%Q.
Proof. split; [intros ->; reflexivity | apply Qc_is_canon]. Qed.

(** Turn a goal over [Qc] into one over [Q], where [lra] works. *)
Ltac qc_to_q :=
  repeat match goal with
  | H : @eq Qc _ _ |- _ => apply Qc_eq_Qeq in H
  | H : ¬ @eq Qc _ _ |- _ => rewrite Qc_eq_Qeq in H
  | |- @eq Qc _ _ => apply Qc_is_canon
  | |- ¬ @eq Qc _ _ => rewrite Qc_eq_Qeq
  end;
  unfold Qcle, Qclt, Qcdiv, Qcminus, Qcplus, Qcmult, Qcopp, Qcinv,
    Qc_of_nat, Qc_of_Z, qc, Q2Qc, inject_Z in *;
  cbn [this] in *;
  rewrite ?Qred_correct in *;
  repeat match goal with
  | |- context [Qinv (Qmake (Zpos ?p) ?q)] =>
      change (Qinv (Qmake (Zpos p) q)) with (Qmake (Zpos q) p)
  | H : context [Qinv (Qmake (Zpos ?p) ?q)] |- _ =>
      change (Qinv (Qmake (Zpos p) q)) with (Qmake (Zpos q) p) in H
  end.
Ltac qc_lra := qc_to_q; lra.
Ltac qc_nra := qc_to_q; nra.

Lemma Qcabs_le (x b : Qc) : Qcabs x ≤ b ↔ - b ≤ x ∧ x ≤ b.
Proof.
  unfold Qcabs. case_bool_decide as Hx.
  - split; [intros Hb | intros [Hb1 Hb2]]; try split; qc_lra.
  - apply Qcnot_lt_le in Hx.
    split; [intros Hb | intros [Hb1 Hb2]]; try split; qc_lra.
Qed.

Lemma Qcabs_nonneg (x : Qc) : 0 ≤ Qcabs x.
Proof.
  unfold Qcabs. case_bool_decide as Hx; [| apply Qcnot_lt_le in Hx]; qc_lra.
Qed.

Lemma Qcmax_spec (x y : Qc) : x ≤ Qcmax x y ∧ y ≤ Qcmax x y ∧
  (Qcmax x y = x ∨ Qcmax x y = y).
Proof.
  unfold Qcmax. case_bool_decide as Hx; [| apply Qcnot_lt_le in Hx];
    repeat split; auto; qc_lra.
Qed.

Lemma Qcmin_spec (x y : Qc) : Qcmin x y ≤ x ∧ Qcmin x y ≤ y ∧
  (Qcmin x y = x ∨ Qcmin x y = y).
Proof.
  unfold Qcmin. case_bool_decide as Hx; [| apply Qcnot_lt_le in Hx];
    repeat split; auto; qc_lra.
Qed.

(** ** The result monad *)

Lemma bind_Ok {A B} (m : result A) (k : A → result B) (b : B) :
  m ≫= k = Ok b ↔ ∃ a, m = Ok a ∧ k a = Ok b.
Proof.
  destruct m as [a| |]; simpl; split; try (intros (? & ? & ?)); try done.
  - eauto.
  - congruence.
Qed.

Lemma Ok_inj {A} (a b : A) : Ok a = Ok b → a = b.
Proof. by intros [= ->]. Qed.

Lemma orraise_Ok {A} e (o : option A) a : orraise e o = Ok a ↔ o = Some a.
Proof. destruct o; simpl; split; congruence. Qed.

(** Decompose hypotheses stating that a sequence of steps succeeded. *)
Ltac inv_ok :=
  repeat match goal with
  | H : mbind _ _ = Ok _ |- _ =>
      let a := fresh "a" in let Ha := fresh "Ha" in let Hk := fresh "Hk" in
      apply bind_Ok in H as (a & Ha & Hk)
  | H : orraise _ _ = Ok _ |- _ => apply orraise_Ok in H
  | H : Ok _ = Ok _ |- _ => apply Ok_inj in H
  | H : (_, _) = (_, _) |- _ =>
      let H1 := fresh H in let H2 := fresh H in
      apply pair_equal_spec in H as [H1 H2]
  | H : Raise _ = Ok _ |- _ => discriminate H
  | H : Timeout = Ok _ |- _ => discriminate H
  | H : (let '(_, _) := ?p in _) = Ok _ |- _ => destruct p
  | H : (match ?p with (_, _) => _ end) = Ok _ |- _ => destruct p
  end.

Lemma for_each_app {S X} (xs ys : list X) (body : S → X → result S) s :
  for_each (xs ++ ys) body s = s' ← for_each xs body s; for_each ys body s'.
Proof.
  revert s. induction xs as [|x xs IH]; intros s; simpl; [done|].
  destruct (body s x); simpl; auto.
Qed.

(** Loop invariants for a [for] loop over [range(n)]. *)
Lemma for_each_range_inv {S} (I : nat → S → Prop) (n : nat)
    (body : S → nat → result S) (s0 s : S) :
  I 0%nat s0 →
  (∀ k s1 s2, (k < n)%nat → I k s1 → body s1 k = Ok s2 → I (Datatypes.S k) s2) →
  for_each (seq 0 n) body s0 = Ok s → I n s.
Proof.
  intros H0 Hstep. revert s.
  induction n as [|n IH]; intros s.
  - simpl. intros [= <-]. done.
  - rewrite seq_S, for_each_app. simpl. intros H.
    apply bind_Ok in H as (s1 & H1 & H2).
    apply bind_Ok in H2 as (s2 & H2 & [= <-]).
    apply (Hstep n s1); [lia | | done].
    apply IH; [|done]. intros k sa sb Hk. apply Hstep. lia.
Qed.

(** ** numpy's array operations *)

Lemma linspace_open_length a b n : length (linspace_open a b n).1 = n.
Proof. unfold linspace_open. simpl. by rewrite length_fmap, length_seq. Qed.

Lemma linspace_open_lookup a b n i :
  (i < n)%nat →
  (linspace_open a b n).1 !! i
    = Some (Qc_of_nat i * ((b - a) / Qc_of_nat n) + a).
Proof.
  intros Hi. unfold linspace_open. simpl.
  rewrite list_lookup_fmap, lookup_seq_lt by done. done.
Qed.

Lemma foldl_Qcmax_spec (l : list Qc) (x : Qc) :
  (foldl Qcmax x l = x ∨ foldl Qcmax x l ∈ l) ∧
  x ≤ foldl Qcmax x l ∧ ∀ y, y ∈ l → y ≤ foldl Qcmax x l.
Proof.
  revert x. induction l as [|a l IH]; intros x; simpl.
  - split; [by left|]. split; [apply Qcle_refl|]. intros y Hy. by inversion Hy.
  - destruct (IH (Qcmax x a)) as (Hin & Hle & Hall).
    destruct (Qcmax_spec x a) as (Hx & Ha & Hm).
    split; [| split].
    + destruct Hin as [-> | Hin]; [| right; by apply elem_of_cons; right].
      destruct Hm as [-> | ->]; [by left | right; apply elem_of_cons; by left].
    + by etrans.
    + intros y [-> | Hy]%elem_of_cons; [by etrans | by apply Hall].
Qed.

Lemma foldl_Qcmin_spec (l : list Qc) (x : Qc) :
  (foldl Qcmin x l = x ∨ foldl Qcmin x l ∈ l) ∧
  foldl Qcmin x l ≤ x ∧ ∀ y, y ∈ l → foldl Qcmin x l ≤ y.
Proof.
  revert x. induction l as [|a l IH]; intros x; simpl.
  - split; [by left|]. split; [apply Qcle_refl|]. intros y Hy. by inversion Hy.
  - destruct (IH (Qcmin x a)) as (Hin & Hle & Hall).
    destruct (Qcmin_spec x a) as (Hx & Ha & Hm).
    split; [| split].
    + destruct Hin as [-> | Hin]; [| right; by apply elem_of_cons; right].
      destruct Hm as [-> | ->]; [by left | right; apply elem_of_cons; by left].
    + by etrans.
    + intros y [-> | Hy]%elem_of_cons; [by etrans | by apply Hall].
Qed.

(** [max(a)] is an element of [a] that bounds the others. *)
Lemma np_max_spec (l : list Qc) (m : Qc) :
  np_max l = Ok m → m ∈ l ∧ ∀ y, y ∈ l → y ≤ m.
Proof.
  destruct l as [|x l]; simpl; [done|]. intros [= <-].
  destruct (foldl_Qcmax_spec l x) as (Hin & Hle & Hall). split.
  - apply elem_of_cons. destruct Hin; auto.
  - intros y [-> | Hy]%elem_of_cons; auto.
Qed.

Lemma np_min_spec (l : list Qc) (m : Qc) :
  np_min l = Ok m → m ∈ l ∧ ∀ y, y ∈ l → m ≤ y.
Proof.
  destruct l as [|x l]; simpl; [done|]. intros [= <-].
  destruct (foldl_Qcmin_spec l x) as (Hin & Hle & Hall). split.
  - apply elem_of_cons. destruct Hin; auto.
  - intros y [-> | Hy]%elem_of_cons; auto.
Qed.

Lemma take_indices_spec {A} (a : list A) idx r :
  take_indices a idx = Ok r → Forall2 (λ i x, a !! i = Some x) idx r.
Proof.
  revert r. induction idx as [|i idx IH]; intros r; simpl.
  - intros [= <-]. constructor.
  - intros H. inv_ok. subst r. constructor; auto.
Qed.

Lemma where_from_spec (k : nat) (c : list bool) (i : nat) :
  i ∈ where_from k c ↔ (k ≤ i)%nat ∧ c !! (i - k)%nat = Some true.
Proof.
  revert k. induction c as [|b c IH]; intros k; simpl.
  - split; [intros H; inversion H | intros [_ H]; done].
  - assert (i ∈ where_from (S k) c ↔ (k < i)%nat ∧ c !! (i - S k)%nat = Some true)
      as IH' by (rewrite IH; split; intros []; split; auto with lia).
    destruct b.
    + rewrite elem_of_cons, IH'. split.
      * intros [-> | [Hk Hc]].
        -- split; [lia|]. by rewrite Nat.sub_diag.
        -- split; [lia|]. by replace (i - k)%nat with (S (i - S k)) by lia.
      * intros [Hk Hc]. destruct (decide (i = k)) as [-> | Hne]; [by left|].
        right. split; [lia|].
        by replace (i - k)%nat with (S (i - S k)) in Hc by lia.
    + rewrite IH'. split.
      * intros [Hk Hc]. split; [lia|].
        by replace (i - k)%nat with (S (i - S k)) by lia.
      * intros [Hk Hc]. destruct (decide (i = k)) as [-> | Hne].
        { by rewrite Nat.sub_diag in Hc. }
        split; [lia|].
        by replace (i - k)%nat with (S (i - S k)) in Hc by lia.
Qed.

Lemma np_where_spec (c : list bool) (i : nat) :
  i ∈ np_where c ↔ c !! i = Some true.
Proof.
  unfold np_where. rewrite where_from_spec, Nat.sub_0_r.
  split; [by intros [] | intros; split; [lia | done]].
Qed.

Lemma cumsum_from_lookup (acc : Qc) (a : list Qc) (i : nat) :
  (i < length a)%nat →
  cumsum_from acc a !! i = Some (acc + np_sum (take (S i) a)).
Proof.
  revert acc i. induction a as [|x a IH]; intros acc i; simpl; [lia|].
  intros Hi. destruct i as [|i]; simpl.
  - f_equal. unfold np_sum. simpl. ring.
  - rewrite IH by lia. f_equal. unfold np_sum. simpl. ring.
Qed.

Lemma cumsum_from_length acc a : length (cumsum_from acc a) = length a.
Proof. revert acc. induction a; intros; simpl; auto. Qed.

(** [cumsum(a)[i]] is the sum of the first [i + 1] entries. *)
Lemma np_cumsum_lookup (a : list Qc) (i : nat) :
  (i < length a)%nat → np_cumsum a !! i = Some (np_sum (take (S i) a)).
Proof.
  intros Hi. unfold np_cumsum. rewrite cumsum_from_lookup by done.
  f_equal. ring.
Qed.

Lemma np_cumsum_last (a : list Qc) (n : nat) :
  length a = S n → np_cumsum a !! n = Some (np_sum a).
Proof.
  intros Hn. rewrite np_cumsum_lookup by lia.
  by rewrite take_ge by lia.
Qed.

(** ** Interpolation *)

Lemma insert_sample_perm p l : insert_sample p l ≡ₚ p :: l.
Proof.
  induction l as [|p' l IH]; simpl; [done|].
  case_bool_decide; [|done]. rewrite IH. apply Permutation_swap.
Qed.

Lemma sort_samples_perm l : sort_samples l ≡ₚ l.
Proof.
  induction l as [|p l IH]; simpl; [done|].
  by rewrite insert_sample_perm, IH.
Qed.

Lemma interp1d_samples x y d f :
  interp1d x y d = Ok f →
  length x = length y ∧ (2 ≤ length x)%nat ∧
  samples f = sort_samples (zip x y) ∧ fill f = d ∧ (samples f).*1 ≡ₚ x.
Proof.
  unfold interp1d. intros H.
  destruct (length x =? length y)%nat eqn:Hlen; simpl in H; [|done].
  destruct (length x <? 2)%nat eqn:Hlen2; simpl in H; [done|].
  injection H as <-. simpl.
  apply Nat.eqb_eq in Hlen. apply Nat.ltb_ge in Hlen2.
  repeat split; try done.
  rewrite sort_samples_perm. rewrite fst_zip by lia. done.
Qed.

(** Outside the sampled range a table with a fill value returns it. *)
Lemma interp_at_outside x y d f w :
  interp1d x y (Some d) = Ok f →
  (∀ xi, xi ∈ x → w < xi) ∨ (∀ xi, xi ∈ x → xi < w) →
  interp_at f w = Ok d.
Proof.
  intros (Hlen & Hlen2 & _ & Hfill & Hperm)%interp1d_samples Hout.
  unfold interp_at. rewrite Hfill.
  assert (length (samples f).*1 = length x) as Hl by (by rewrite Hperm).
  destruct (head (samples f).*1) as [x_first|] eqn:Hhead; cycle 1.
  { apply head_None in Hhead. rewrite Hhead in Hl. simpl in Hl. lia. }
  destruct (last (samples f).*1) as [x_last|] eqn:Hlast; cycle 1.
  { apply last_None in Hlast. rewrite Hlast in Hl. simpl in Hl. lia. }
  assert (x_first ∈ x) as Hf.
  { rewrite <- Hperm. apply list_elem_of_lookup. exists 0%nat.
    by rewrite <- head_lookup. }
  assert (x_last ∈ x) as Hla.
  { rewrite <- Hperm. apply list_elem_of_lookup.
    rewrite last_lookup in Hlast. eauto. }
  destruct Hout as [Hlow | Hhigh].
  - rewrite bool_decide_eq_true_2 by auto. done.
  - rewrite (bool_decide_eq_true_2 (x_last < w)) by auto.
    by rewrite orb_true_r.
Qed.

Lemma Qclt_irrefl (x : Qc) : ¬ x < x.
Proof. intros H. by apply Qclt_not_eq in H. Qed.

Lemma strongly_sorted_lookup (xs : list Qc) i j a b :
  StronglySorted Qclt xs → xs !! i = Some a → xs !! j = Some b →
  (i < j)%nat → a < b.
Proof.
  intros Hs. revert i j. induction Hs as [|x xs Hs IH Hall]; intros i j.
  - done.
  - destruct i as [|i], j as [|j]; simpl; try lia.
    + intros [= <-] Hb _. rewrite Forall_forall in Hall. apply Hall.
      apply list_elem_of_lookup. eauto.
    + intros Ha Hb Hij. apply (IH i j); auto with lia.
Qed.

(** In a strictly increasing array, [searchsorted] finds a sample at its
    own index. *)
Lemma searchsorted_sample (xs : list Qc) k v :
  StronglySorted Qclt xs → xs !! k = Some v → searchsorted xs v = k.
Proof.
  intros Hs. revert k. unfold searchsorted.
  induction Hs as [|x xs Hs IH Hall]; intros k; [done|].
  rewrite filter_cons. destruct k as [|k]; simpl.
  - intros [= ->]. rewrite decide_False by apply Qclt_irrefl.
    clear IH Hs. induction xs as [|y xs IH]; [done|].
    apply Forall_cons in Hall as [Hy Hall]. rewrite filter_cons.
    rewrite decide_False; [by apply IH|].
    by apply Qcle_not_lt, Qclt_le_weak.
  - intros Hk. rewrite decide_True; [simpl; f_equal; by apply IH|].
    rewrite Forall_forall in Hall. apply Hall.
    apply list_elem_of_lookup. eauto.
Qed.

(** On a table with strictly increasing abscissas the interpolant returns
    at a sampled abscissa the sampled value. *)
Lemma interp_at_sorted_sample (f : interp) k xk yk :
  StronglySorted Qclt (samples f).*1 → (2 ≤ length (samples f))%nat →
  samples f !! k = Some (xk, yk) →
  interp_at f xk = Ok yk.
Proof.
  intros Hs Hlen2 Hk. unfold interp_at.
  set (x := (samples f).*1) in *.
  assert (length x = length (samples f)) as Hlx
    by (unfold x; by rewrite length_fmap).
  assert (∀ i p, samples f !! i = Some p → x !! i = Some p.1) as Hx.
  { intros i p Hi. unfold x. by rewrite list_lookup_fmap, Hi. }
  pose proof (Hx _ _ Hk) as Hxk. simpl in Hxk.
  pose proof (lookup_lt_Some _ _ _ Hk) as Hklt.
  destruct (head x) as [x_first|] eqn:Hhead; cycle 1.
  { apply head_None in Hhead. rewrite Hhead in Hlx. simpl in Hlx. lia. }
  destruct (last x) as [x_last|] eqn:Hlast; cycle 1.
  { apply last_None in Hlast. rewrite Hlast in Hlx. simpl in Hlx. lia. }
  rewrite head_lookup in Hhead. rewrite last_lookup in Hlast.
  assert (¬ xk < x_first) as Hlo.
  { destruct (decide (k = 0%nat)) as [-> | Hne].
    - rewrite Hhead in Hxk. injection Hxk as ->. apply Qclt_irrefl.
    - apply Qcle_not_lt, Qclt_le_weak.
      apply (strongly_sorted_lookup x 0 k); auto with lia. }
  assert (¬ x_last < xk) as Hhi.
  { destruct (decide (k = pred (length x))) as [-> | Hne].
    - rewrite Hlast in Hxk. injection Hxk as ->. apply Qclt_irrefl.
    - apply Qcle_not_lt, Qclt_le_weak.
      apply (strongly_sorted_lookup x k (pred (length x))); auto with lia. }
  rewrite !bool_decide_eq_false_2 by done. simpl.
  rewrite (searchsorted_sample x k xk) by done. rewrite Hlx.
  destruct (decide (k = 0%nat)) as [-> | Hne].
  - replace (1 `max` (0 `min` (length (samples f) - 1)))%nat with 1%nat by lia.
    simpl. rewrite Hk.
    destruct (samples f !! 1%nat) as [[x1 y1]|] eqn:H1; cycle 1.
    { apply lookup_ge_None in H1. lia. }
    f_equal. unfold Qcdiv. ring.
  - replace (1 `max` (k `min` (length (samples f) - 1)))%nat with k by lia.
    rewrite Hk.
    destruct (samples f !! (k - 1)%nat) as [[x0 y0]|] eqn:H0; cycle 1.
    { apply lookup_ge_None in H0. lia. }
    assert (x0 < xk) as Hlt.
    { apply (strongly_sorted_lookup x (k - 1) k); auto with lia.
      by apply (Hx _ _ H0). }
    f_equal. field. intros Heq. clear -Hlt Heq. qc_lra.
Qed.

(** The sort leaves the samples in the order of their abscissas. *)
Lemma insert_sample_sorted p l :
  Sorted (λ a b : Qc * Qc, a.1 ≤ b.1) l →
  Sorted (λ a b : Qc * Qc, a.1 ≤ b.1) (insert_sample p l).
Proof.
  induction l as [|q l IH]; simpl; intros Hs.
  - by repeat constructor.
  - apply Sorted_inv in Hs as [Hs Hhd].
    case_bool_decide as Hlt.
    + constructor; [by apply IH|].
      destruct l as [|q' l]; simpl.
      * constructor. simpl. by apply Qclt_le_weak.
      * case_bool_decide; constructor.
        -- by inversion Hhd.
        -- by apply Qclt_le_weak.
    + constructor; [by constructor|]. constructor.
      by apply Qcnot_lt_le.
Qed.

Lemma sort_samples_is_sorted l :
  Sorted (λ a b : Qc * Qc, a.1 ≤ b.1) (sort_samples l).
Proof.
  induction l as [|p l IH]; simpl; [constructor|].
  by apply insert_sample_sorted.
Qed.

(** Sorted abscissas without repetition increase strictly. *)
Lemma sorted_nodup_strict (l : list (Qc * Qc)) :
  Sorted (λ a b : Qc * Qc, a.1 ≤ b.1) l → NoDup l.*1 →
  StronglySorted Qclt l.*1.
Proof.
  intros Hs Hnd.
  apply Sorted_StronglySorted in Hs;
    [| intros a b c; apply Qcle_trans].
  induction Hs as [|a l Hs IH Hall]; simpl; [constructor|].
  apply NoDup_cons in Hnd as [Hnotin Hnd].
  constructor; [by apply IH|].
  apply Forall_fmap. eapply Forall_impl; [apply Forall_and; split;
    [exact Hall | apply Forall_forall; intros b Hb; exact (list_elem_of_fmap_2 fst _ _ Hb)] |].
  intros b [Hle Hin]. simpl in *.
  apply Qcle_lt_or_eq in Hle as [Hlt | Heq]; [done|].
  destruct Hnotin. by rewrite Heq.
Qed.

(** At every sampled abscissa the interpolant of a table whose abscissas
    do not repeat returns the sampled value. *)
Lemma interp_at_sample x y d f k xk yk :
  interp1d x y d = Ok f → NoDup x →
  x !! k = Some xk → y !! k = Some yk →
  interp_at f xk = Ok yk.
Proof.
  intros (Hlen & Hlen2 & Hsamples & _ & Hperm)%interp1d_samples Hnd Hxk Hyk.
  assert ((xk, yk) ∈ samples f) as [k' Hk']%list_elem_of_lookup.
  { rewrite Hsamples, sort_samples_perm. apply list_elem_of_lookup.
    exists k. by rewrite lookup_zip_with, Hxk, Hyk. }
  eapply interp_at_sorted_sample; [| | exact Hk'].
  - apply sorted_nodup_strict.
    + rewrite Hsamples. apply sort_samples_is_sorted.
    + by rewrite Hperm.
  - rewrite <- (length_fmap fst), Hperm. done.
Qed.

(** ** The SNR integrator *)

Section integrator.
Context {ext : Externals}.

Lemma take_mask_in_band {A} (mask : list bool) (a : list A) :
  length mask = length a → take_mask mask a = Ok (in_band mask a).
Proof.
  revert a. induction mask as [|b mask IH]; intros [|x a] Hlen; try done.
  injection Hlen as Hlen. unfold in_band in *.
  change (zip (b :: mask) (x :: a)) with ((b, x) :: zip mask a).
  rewrite filter_cons. destruct b; simpl.
  - rewrite IH by done. done.
  - by apply IH.
Qed.

Lemma bool_index_in_band {A} strict (mask : list bool) (a : list A) :
  length mask = length a → bool_index strict a mask = Ok (in_band mask a).
Proof.
  intros Hlen. unfold bool_index.
  rewrite (proj2 (Nat.eqb_eq _ _) Hlen). rewrite andb_false_r.
  by apply take_mask_in_band.
Qed.

Lemma in_band_length {A} (mask : list bool) (a : list A) :
  length mask = length a →
  length (in_band mask a) = length (filter (λ b, b = true) mask).
Proof.
  revert a. induction mask as [|b mask IH]; intros [|x a] Hlen; try done.
  injection Hlen as Hlen. unfold in_band in *.
  change (zip (b :: mask) (x :: a)) with ((b, x) :: zip mask a).
  rewrite !filter_cons. destruct b; simpl.
  - f_equal. by apply IH.
  - by apply IH.
Qed.

Lemma broadcast2_same_length {A B C} (f : A → B → C) a b :
  length a = length b → broadcast2 f a b = Ok (zip_with f a b).
Proof.
  intros Hlen. unfold broadcast2. by rewrite (proj2 (Nat.eqb_eq _ _) Hlen).
Qed.

(** One detector: the term the loop adds is the detector's contribution. *)
Lemma snrsq_term_formula hplus_tilda hcross_tilda network ra dec psi
    psd_interp fsel df detector name d :
  network !! detector = Some name →
  getDetResp name ra dec psi = Ok (response d) →
  fsel !! detector = Some (band d) →
  psd_interp !! detector = Some (psd d) →
  length hplus_tilda = length hcross_tilda →
  length (band d) = length hplus_tilda →
  length (psd d) = length (filter (λ b, b = true) (band d)) →
  snrsq_term hplus_tilda hcross_tilda network ra dec psi psd_interp fsel df
    detector = Ok (detector_snrsq df hplus_tilda hcross_tilda d).
Proof.
  intros Hname Hresp Hmask Hpsd Hlen Hband Hpsdlen.
  unfold snrsq_term. rewrite Hname. simpl. rewrite Hresp. simpl.
  destruct (response d) as [fplus fcross] eqn:Hr.
  rewrite broadcast2_same_length by (by rewrite !length_fmap). simpl.
  rewrite Hmask. simpl.
  rewrite zip_with_fmap_l, zip_with_fmap_r.
  assert (length (band d)
          = length (zip_with (λ p x, cadd (cscale fplus p) (cscale fcross x))
                      hplus_tilda hcross_tilda)) as Hl.
  { rewrite length_zip_with. lia. }
  rewrite bool_index_in_band by done. simpl. rewrite Hpsd. simpl.
  rewrite broadcast2_same_length; cycle 1.
  { rewrite length_fmap, in_band_length by done. done. }
  simpl. rewrite zip_with_fmap_l.
  unfold detector_snrsq, projected_strain. by rewrite Hr.
Qed.

(** The accumulation over the detectors is a sum. *)
Lemma for_each_accumulate (term : nat → result Qc) (ts : list Qc) k acc :
  (∀ i t, ts !! i = Some t → term (k + i)%nat = Ok t) →
  for_each (seq k (length ts)) (λ a d, t ← term d; Ok (a + t)) acc
  = Ok (acc + np_sum ts).
Proof.
  revert k acc. induction ts as [|t ts IH]; intros k acc Hterm; simpl.
  - f_equal. unfold np_sum. simpl. ring.
  - rewrite <- (Nat.add_0_r k) at 1. rewrite (Hterm 0%nat t) by done. simpl.
    rewrite IH.
    + f_equal. unfold np_sum. simpl. ring.
    + intros i t' Hi. replace (S k + i)%nat with (k + S i)%nat by lia.
      by apply Hterm.
Qed.

(** C6: on arrays of matching shapes [compute_horizonSNR] returns the
    square root of the sum over the detectors of
    [4 * df * sum(|F_plus * h_plus + F_cross * h_cross|^2 / PSD)], the sum
    inside running over the detector's band. *)
Theorem compute_horizonSNR_is_network_snr hplus_tilda hcross_tilda network
    ra dec psi psd_interp fsel df (ds : list detector_data) :
  length hplus_tilda = length hcross_tilda →
  length ds = length network →
  (∀ i d, ds !! i = Some d →
     ∃ name, network !! i = Some name ∧
       getDetResp name ra dec psi = Ok (response d) ∧
       fsel !! i = Some (band d) ∧
       psd_interp !! i = Some (psd d) ∧
       length (band d) = length hplus_tilda ∧
       length (psd d) = length (filter (λ b, b = true) (band d))) →
  compute_horizonSNR hplus_tilda hcross_tilda network ra dec psi
    psd_interp fsel df
  = Ok (network_snr df hplus_tilda hcross_tilda ds).
Proof.
  intros Hlen Hds Hall. unfold compute_horizonSNR, network_snr.
  rewrite <- Hds.
  rewrite <- (length_fmap (detector_snrsq df hplus_tilda hcross_tilda) ds).
  rewrite for_each_accumulate.
  - simpl. do 2 f_equal. ring.
  - intros i t Hi. rewrite list_lookup_fmap in Hi.
    destruct (ds !! i) as [d|] eqn:Hd; [|done]. injection Hi as <-.
    destruct (Hall i d Hd) as (name & ? & ? & ? & ? & ? & ?).
    by eapply snrsq_term_formula.
Qed.

(** *** The lists [fsel] and [psd_interp] *)

Lemma for_each_ext {S X} (xs : list X) (f g : S → X → result S) s :
  (∀ s x, x ∈ xs → f s x = g s x) → for_each xs f s = for_each xs g s.
Proof.
  revert s. induction xs as [|x xs IH]; intros s Hfg; simpl; [done|].
  rewrite Hfg by (by apply elem_of_cons; left).
  destruct (g s x); simpl; try done.
  apply IH. intros s' y Hy. apply Hfg. by apply elem_of_cons; right.
Qed.

(** [compute_horizonSNR] reads one entry per detector, the first ones:
    what is appended after them is not read. *)
Lemma compute_horizonSNR_prefix hplus_tilda hcross_tilda network ra dec psi
    psd_interp fsel e1 e2 df :
  (length network ≤ length fsel)%nat →
  (length network ≤ length psd_interp)%nat →
  compute_horizonSNR hplus_tilda hcross_tilda network ra dec psi
    (psd_interp ++ e2) (fsel ++ e1) df
  = compute_horizonSNR hplus_tilda hcross_tilda network ra dec psi
      psd_interp fsel df.
Proof.
  intros Hf Hp. unfold compute_horizonSNR. f_equal.
  apply for_each_ext. intros acc d Hd%elem_of_seq.
  unfold snrsq_term. by rewrite !lookup_app_l by lia.
Qed.

Lemma select_detector_appends network nm freqs (s s' : selection) d :
  select_detector network nm freqs s d = Ok s' →
  ∃ mask psd_samples, s' = (s.1 ++ [mask], s.2 ++ [psd_samples]).
Proof. unfold select_detector. intros H. inv_ok. subst s'. eauto. Qed.

(** The loop over the detectors appends one entry per detector to each
    list. *)
Lemma select_bands_appends network nm freqs (s s' : selection) :
  select_bands network nm freqs s = Ok s' →
  ∃ e1 e2, s'.1 = s.1 ++ e1 ∧ s'.2 = s.2 ++ e2 ∧
           length e1 = length network ∧ length e2 = length network.
Proof.
  unfold select_bands. intros H.
  eapply (for_each_range_inv
            (λ k (t : selection), ∃ e1 e2, t.1 = s.1 ++ e1 ∧ t.2 = s.2 ++ e2 ∧
                                  length e1 = k ∧ length e2 = k));
    [| | exact H].
  - exists [], []. by rewrite !app_nil_r.
  - intros k s1 s2 _ (e1 & e2 & H1 & H2 & Hl1 & Hl2) Hstep.
    apply select_detector_appends in Hstep as (m & q & ->). simpl.
    exists (e1 ++ [m]), (e2 ++ [q]).
    rewrite H1, H2, !length_app, <- !app_assoc. simpl. repeat split; lia.
Qed.

(** When the lists already hold an entry per detector, the block computes
    the SNR of the new waveform with those entries. *)
Lemma network_snr_at_old_lists c (s s' : selection) z dist snr :
  (length (network c) ≤ length s.1)%nat →
  (length (network c) ≤ length s.2)%nat →
  network_snr_at c s z dist = Ok (snr, s') →
  (∃ e1 e2, s'.1 = s.1 ++ e1 ∧ s'.2 = s.2 ++ e2) ∧
  ∃ hplus_tilda hcross_tilda freqs,
    get_htildas ((1 + z) * m1 c) ((1 + z) * m2 c) dist (iota c)
      fmin fref df (approx c) = Ok (hplus_tilda, hcross_tilda, freqs) ∧
    compute_horizonSNR hplus_tilda hcross_tilda (network c)
      (ra c) (dec c) (psi c) s.2 s.1 df = Ok snr.
Proof.
  intros Hl1 Hl2. unfold network_snr_at. intros H. inv_ok. subst.
  apply select_bands_appends in Ha0 as (e1 & e2 & H1 & H2 & _ & _).
  split; [by eauto|]. eexists _, _, _. split; [done|].
  rewrite H1, H2 in Ha1. by rewrite compute_horizonSNR_prefix in Ha1.
Qed.

Lemma band_mask_empty freqs lo hi :
  (∀ x, x ∈ freqs → ¬ (lo < x ∧ x < hi)) →
  filter (λ b, b = true) (band_mask freqs lo hi) = [].
Proof.
  unfold band_mask. induction freqs as [|x freqs IH]; intros Hout; [done|].
  rewrite fmap_cons, filter_cons.
  rewrite decide_False.
  - apply IH. intros y Hy. apply Hout. by apply elem_of_cons; right.
  - intros [H1 H2]%andb_prop. apply bool_decide_eq_true in H1, H2.
    apply (Hout x); [by apply elem_of_cons; left | done].
Qed.

(** A loop over [range(len(l))] whose body reads only [l[i]] is a loop
    over the items of [l]. *)
Lemma for_each_seq_items {St X} (l : list X) (body : St → nat → result St)
    (item : St → X → result St) k s :
  (∀ i x s, l !! i = Some x → body s (k + i)%nat = item s x) →
  for_each (seq k (length l)) body s = for_each l item s.
Proof.
  revert k s. induction l as [|x l IH]; intros k s Hbody; simpl; [done|].
  rewrite <- (Nat.add_0_r k) at 1. rewrite (Hbody 0%nat x) by done.
  destruct (item s x) as [s'| |]; simpl; try done.
  apply IH. intros i y s1 Hi.
  replace (S k + i)%nat with (k + S i)%nat by lia. by apply Hbody.
Qed.

(** [compute_horizonSNR] on the detectors [l], each given by its name, its
    band mask and its PSD samples, as a loop over [l]. *)
Lemma compute_horizonSNR_items hp hc ra dec psi df
    (l : list (string * list bool * list Qc)) :
  compute_horizonSNR hp hc l.*1.*1 ra dec psi l.*2 l.*1.*2 df
  = snrsq ← for_each l
      (λ snrsq x,
         t ← snrsq_term hp hc [x.1.1] ra dec psi [x.2] [x.1.2] df 0;
         Ok (snrsq + t)) 0;
    Ok (sqrt snrsq).
Proof.
  unfold compute_horizonSNR. f_equal.
  rewrite !length_fmap. apply for_each_seq_items.
  intros i x s Hx. simpl. unfold snrsq_term.
  by rewrite !list_lookup_fmap, Hx.
Qed.

Lemma for_each_acc_zero hp hc ra dec psi df
    (l : list (string * list bool * list Qc)) (acc : Qc) :
  for_each l
    (λ snrsq x,
       t ← snrsq_term hp hc [x.1.1] ra dec psi [x.2] [x.1.2] df 0;
       Ok (snrsq + t)) (acc + 0)
  = for_each l
      (λ snrsq x,
         t ← snrsq_term hp hc [x.1.1] ra dec psi [x.2] [x.1.2] df 0;
         Ok (snrsq + t)) acc.
Proof. f_equal. ring. Qed.

(** C5, as the program has it: a detector whose band contains none of the
    waveform's frequency samples is not checked for.  The pass that builds
    the lists appends for it, without raising, a mask that is false
    everywhere and an empty PSD array; its pass of the SNR loop adds zero
    to [snrsq]; and [compute_horizonSNR] on a network that holds such a
    detector, wherever it stands, gives what it gives on the remaining
    detectors alone: the same SNR, or the same exception. *)
Theorem empty_band_adds_zero network nm freqs (s : selection) d name lo hi f
    resp hplus_tilda hcross_tilda ra dec psi df :
  network !! d = Some name →
  minimum_freq nm !! d = Some lo →
  maximum_freq nm !! d = Some hi →
  psdinterp_dict nm !! name = Some f →
  length s.1 = d → length s.2 = d →
  (∀ x, x ∈ freqs → ¬ (lo < x ∧ x < hi)) →
  getDetResp name ra dec psi = Ok resp →
  length hplus_tilda = length freqs →
  length hcross_tilda = length freqs →
  ∃ s' : selection,
    select_detector network nm freqs s d = Ok s' ∧
    s'.1 !! d = Some (band_mask freqs lo hi) ∧
    s'.2 !! d = Some [] ∧
    snrsq_term hplus_tilda hcross_tilda network ra dec psi s'.2 s'.1 df d
      = Ok 0 ∧
    ∀ before after : list (string * list bool * list Qc),
      compute_horizonSNR hplus_tilda hcross_tilda
        (before ++ (name, band_mask freqs lo hi, []) :: after).*1.*1
        ra dec psi
        (before ++ (name, band_mask freqs lo hi, []) :: after).*2
        (before ++ (name, band_mask freqs lo hi, []) :: after).*1.*2 df
      = compute_horizonSNR hplus_tilda hcross_tilda
          (before ++ after).*1.*1 ra dec psi
          (before ++ after).*2 (before ++ after).*1.*2 df.
Proof.
  intros Hname Hlo Hhi Hf Hl1 Hl2 Hout Hresp Hhp Hhc.
  pose proof (band_mask_empty freqs lo hi Hout) as Hnone.
  assert (length (band_mask freqs lo hi) = length freqs) as Hmask
    by (unfold band_mask; by rewrite length_fmap).
  assert (in_band (band_mask freqs lo hi) freqs = []) as Hband.
  { apply length_zero_iff_nil. by rewrite in_band_length, Hnone. }
  assert (∀ nw d' (ps : list (list Qc)) (fs : list (list bool)),
            nw !! d' = Some name → fs !! d' = Some (band_mask freqs lo hi) →
            ps !! d' = Some [] →
            snrsq_term hplus_tilda hcross_tilda nw ra dec psi ps fs df d'
            = Ok 0) as Hzero.
  { intros nw d' ps fs Hn Hm Hp.
    rewrite (snrsq_term_formula _ _ _ _ _ _ _ _ _ _ name
               (DetectorData resp (band_mask freqs lo hi) [])); simpl;
      try done; try congruence.
    - f_equal. unfold detector_snrsq. simpl.
      rewrite zip_with_nil_r. unfold np_sum. simpl. ring.
    - by rewrite Hnone. }
  exists (s.1 ++ [band_mask freqs lo hi], s.2 ++ [[]]).
  assert (∀ A (l : list A) x, length l = d → (l ++ [x]) !! d = Some x)
    as Hmid by (intros A l x <-; by apply list_lookup_middle).
  split; [| split; [by apply Hmid | split; [by apply Hmid | split]]].
  - unfold select_detector. rewrite Hlo, Hhi, Hname. simpl.
    rewrite Hf. simpl. rewrite Hmid by done. simpl.
    rewrite bool_index_in_band by done. rewrite Hband. done.
  - apply Hzero; [done | by apply Hmid | by apply Hmid].
  - intros before after. rewrite !compute_horizonSNR_items. f_equal.
    rewrite !for_each_app.
    destruct (for_each before _ 0) as [acc| |]; simpl; try done.
    rewrite (Hzero [name] 0%nat [[]] [band_mask freqs lo hi]) by done.
    simpl. apply for_each_acc_zero.
Qed.

End integrator.

(** ** The noise model loader *)

Section loader.
Context {ext : Externals}.

Lemma load_detector_spec network asdfile nm d nm' :
  load_detector network asdfile nm d = Ok nm' →
  ∃ name input_freq strain lo hi f,
    network !! d = Some name ∧
    loaded_from asdfile d input_freq strain lo hi f ∧
    nm' = NoiseModel
            (<[d := Qcmax (Qc_of_Z 10) lo]> (minimum_freq nm))
            (<[d := Qcmin (Qc_of_Z 5000) hi]> (maximum_freq nm))
            (<[name := f]> (psdinterp_dict nm)).
Proof.
  unfold load_detector, loaded_from. intros H. inv_ok. subst nm'.
  eexists _, _, _, _, _, _. split; [done|]. split; [|done]. eauto 10.
Qed.

(** After the loop every position holds the bounds of its own file, and a
    name holds the interpolant of the last position that carries it. *)
Lemma load_noise_spec network asdfile nm :
  load_noise network asdfile = Ok nm →
  ∀ d name, network !! d = Some name →
    ∃ input_freq strain lo hi f,
      loaded_from asdfile d input_freq strain lo hi f ∧
      minimum_freq nm !! d = Some (Qcmax (Qc_of_Z 10) lo) ∧
      maximum_freq nm !! d = Some (Qcmin (Qc_of_Z 5000) hi) ∧
      ((∀ d', (d < d')%nat → network !! d' ≠ Some name) →
       psdinterp_dict nm !! name = Some f).
Proof.
  unfold load_noise. intros Hload.
  pose (I := λ (k : nat) (nm : noise_model),
    length (minimum_freq nm) = length network ∧
    length (maximum_freq nm) = length network ∧
    ∀ d name, (d < k)%nat → network !! d = Some name →
      ∃ input_freq strain lo hi f,
        loaded_from asdfile d input_freq strain lo hi f ∧
        minimum_freq nm !! d = Some (Qcmax (Qc_of_Z 10) lo) ∧
        maximum_freq nm !! d = Some (Qcmin (Qc_of_Z 5000) hi) ∧
        ((∀ d', (d < d' < k)%nat → network !! d' ≠ Some name) →
         psdinterp_dict nm !! name = Some f)).
  assert (I (length network) nm) as (_ & _ & Hall).
  { eapply (for_each_range_inv I); [| | exact Hload].
    - repeat split; simpl; try apply length_replicate. intros; lia.
    - intros k nm1 nm2 Hk (Hl1 & Hl2 & Hall1) Hbody.
      apply load_detector_spec in Hbody
        as (namek & fr & st & lo & hi & f & Hnamek & Hfile & ->).
      unfold I. simpl. rewrite !length_insert. repeat split; try done.
      intros d name Hd Hname.
      destruct (decide (d = k)) as [-> | Hne].
      + rewrite Hnamek in Hname. injection Hname as <-.
        exists fr, st, lo, hi, f. split; [done|].
        rewrite !list_lookup_insert_eq by lia.
        repeat split; try done. intros _. apply lookup_insert_eq.
      + destruct (Hall1 d name) as (fr' & st' & lo' & hi' & f' & ? & ? & ? & Hlast);
          [lia | done |].
        exists fr', st', lo', hi', f'. split; [done|].
        rewrite !list_lookup_insert_ne by done.
        repeat split; try done. intros Hnot.
        rewrite lookup_insert_ne.
        * apply Hlast. intros d' Hd'. apply Hnot. lia.
        * intros ->. apply (Hnot k); [lia | done]. }
  intros d name Hname.
  destruct (Hall d name) as (fr & st & lo & hi & f & ? & ? & ? & Hlast);
    [by eapply lookup_lt_Some | done |].
  exists fr, st, lo, hi, f. repeat split; try done.
  intros Hnot. apply Hlast. intros d' Hd'. apply Hnot. lia.
Qed.

(** C8: for every detector of the network the loader sets the minimum
    usable frequency to [max(10, lo)] and the maximum to [min(5000, hi)],
    where [lo] and [hi] are the smallest and the largest frequency sampled
    in the detector's file, and builds an interpolant from the frequencies
    and the squared strains: it is stored under the detector's name (and
    found there after the loop unless a later position has the same name),
    and at every sampled frequency of a file whose frequencies do not
    repeat it returns the square of the sampled strain. *)
Theorem noise_bands_and_interpolants network asdfile nm d name :
  load_noise network asdfile = Ok nm →
  network !! d = Some name →
  ∃ input_freq strain lo hi f,
    loaded_from asdfile d input_freq strain lo hi f ∧
    (lo ∈ input_freq ∧ ∀ x, x ∈ input_freq → lo ≤ x) ∧
    (hi ∈ input_freq ∧ ∀ x, x ∈ input_freq → x ≤ hi) ∧
    minimum_freq nm !! d = Some (Qcmax (Qc_of_Z 10) lo) ∧
    maximum_freq nm !! d = Some (Qcmin (Qc_of_Z 5000) hi) ∧
    ((∀ d', (d < d')%nat → network !! d' ≠ Some name) →
     psdinterp_dict nm !! name = Some f) ∧
    (NoDup input_freq →
     ∀ k fk sk, input_freq !! k = Some fk → strain !! k = Some sk →
                interp_at f fk = Ok (sk * sk)).
Proof.
  intros Hload Hname.
  destruct (load_noise_spec _ _ _ Hload d name Hname)
    as (fr & st & lo & hi & f & Hfile & Hmin & Hmax & Hdict).
  exists fr, st, lo, hi, f.
  pose proof Hfile as (path & _ & _ & Hlo & Hhi & Hf).
  split; [done|]. split; [by apply np_min_spec|].
  split; [by apply np_max_spec|]. repeat split; try done.
  intros Hnodup k fk sk Hfk Hsk.
  eapply interp_at_sample; [exact Hf | done | exact Hfk |].
  by rewrite list_lookup_fmap, Hsk.
Qed.

(** C10: when a detector name occurs at several positions of the network,
    the dictionary holds for it the interpolant of the last position's
    file, so that every position with that name gets its PSD samples from
    that interpolant, while the band of a position comes from the bounds of
    the position's own file. *)
Theorem repeated_detector_uses_last_file network asdfile nm i j name :
  load_noise network asdfile = Ok nm →
  network !! i = Some name →
  network !! j = Some name →
  (∀ j', (j < j')%nat → network !! j' ≠ Some name) →
  ∃ freq_i strain_i lo hi f_i freq_j strain_j lo_j hi_j f_j,
    loaded_from asdfile i freq_i strain_i lo hi f_i ∧
    loaded_from asdfile j freq_j strain_j lo_j hi_j f_j ∧
    psdinterp_dict nm !! name = Some f_j ∧
    minimum_freq nm !! i = Some (Qcmax (Qc_of_Z 10) lo) ∧
    maximum_freq nm !! i = Some (Qcmin (Qc_of_Z 5000) hi) ∧
    ∀ freqs (s s' : selection),
      length s.1 = i →
      select_detector network nm freqs s i = Ok s' →
      ∃ in_band_freqs psd_samples,
        bool_index strict_bool_index freqs
          (band_mask freqs (Qcmax (Qc_of_Z 10) lo) (Qcmin (Qc_of_Z 5000) hi))
          = Ok in_band_freqs ∧
        interp_call f_j in_band_freqs = Ok psd_samples ∧
        s' = (s.1 ++ [band_mask freqs (Qcmax (Qc_of_Z 10) lo)
                        (Qcmin (Qc_of_Z 5000) hi)],
              s.2 ++ [psd_samples]).
Proof.
  intros Hload Hi Hj Hlast.
  destruct (load_noise_spec _ _ _ Hload i name Hi)
    as (fri & sti & lo & hi & fi & Hfi & Hmin & Hmax & _).
  destruct (load_noise_spec _ _ _ Hload j name Hj)
    as (frj & stj & loj & hij & fj & Hfj & _ & _ & Hdict).
  specialize (Hdict Hlast).
  exists fri, sti, lo, hi, fi, frj, stj, loj, hij, fj.
  repeat split; try done.
  intros freqs s s' Hlen Hsel. unfold select_detector in Hsel.
  rewrite Hmin, Hmax, Hi in Hsel. simpl in Hsel.
  rewrite Hdict in Hsel. simpl in Hsel.
  rewrite list_lookup_middle in Hsel by done.
  simpl in Hsel. inv_ok. subst s'. eauto.
Qed.

End loader.

(** ** The horizon solver *)

Section solver.
Context {ext : Externals}.



Lemma solver_step_spec c st st' :
  solver_step c st = Ok st' →
  input_dist st' = input_dist st * input_snr st / snr_th ∧
  input_redshift st' =
    leastsq (λ z, findzfromDL z (input_dist st')) (input_redshift st) ∧
  input_snr st' = guess_snr st' ∧
  stepped c st'.
Proof.
  unfold solver_step, horizon_dist_eval, stepped. intros H.
  inv_ok. subst st'. simpl. done.
Qed.

Lemma solver_init_spec c st :
  solver_init c = Ok st →
  input_redshift st = qc 1 10 ∧
  input_dist st = luminosity_distance (qc 1 10) cosmo ∧
  guess_snr st = 0 ∧ guess_redshift st = None.
Proof. unfold solver_init. intros H. inv_ok. subst st. done. Qed.

Lemma not_converged_initially c st :
  solver_init c = Ok st → not_converged st = true.
Proof.
  intros (_ & _ & Hs & _)%solver_init_spec.
  unfold not_converged. rewrite Hs. by vm_compute.
Qed.

Lemma solver_loop_spec fuel c st st' :
  solver_loop fuel c st = Ok st' →
  not_converged st' = false ∧
  (st' = st ∨ stepped c st') ∧
  (solver_reachable c st → solver_reachable c st').
Proof.
  revert st. induction fuel as [|fuel IH]; intros st; simpl.
  - destruct (not_converged st) eqn:Hnc; [done|]. intros [= <-]. auto.
  - destruct (not_converged st) eqn:Hnc; [|intros [= <-]; auto].
    intros H. inv_ok.
    destruct (IH _ Hk) as (Hc & Hs & Hr). split; [done|]. split.
    + right. destruct Hs as [-> | Hs]; [|done].
      by apply solver_step_spec in Ha as (_ & _ & _ & Hs).
    + intros Hst. apply Hr. by eapply reach_step.
Qed.

Lemma find_horizon_range_inv fuel m1 m2 network asdfile pwfile approx r :
  find_horizon_range fuel m1 m2 network asdfile pwfile approx = Ok r →
  ∃ c st0 st,
    read_setup m1 m2 network asdfile pwfile approx = Ok c ∧
    solver_init c = Ok st0 ∧
    solver_loop fuel c st0 = Ok st ∧
    range_from c pwfile st = Ok r.
Proof. unfold find_horizon_range. intros H. inv_ok. eauto 10. Qed.

Lemma range_from_inv c pwfile st r :
  range_from c pwfile st = Ok r →
  ∃ zh w_sample P_sample P z unit_volume z50 z90,
    guess_redshift st = Some zh ∧
    genfromtxt ("../data/pw_" +:+ pwfile +:+ ".txt") = Ok (w_sample, P_sample) ∧
    interp1d w_sample P_sample (Some 0) = Ok P ∧
    shell_volumes c P zh (lists st) = Ok (z, unit_volume) ∧
    enclosed_redshift (qc 1 2) z unit_volume (np_sum unit_volume) = Ok z50 ∧
    enclosed_redshift (qc 1 10) z unit_volume (np_sum unit_volume) = Ok z90 ∧
    r = HorizonResult zh (luminosity_distance zh cosmo)
          (luminosity_distance z50 cosmo) (luminosity_distance z90 cosmo)
          (np_sum unit_volume).
Proof.
  unfold range_from. intros H. inv_ok. subst r.
  repeat eexists; eauto.
Qed.

(** The state the loop ends in was left by its body, and the SNR of that
    state is within the tolerance. *)
Lemma solver_exit fuel c st0 st :
  solver_init c = Ok st0 → solver_loop fuel c st0 = Ok st →
  stepped c st ∧ Qcabs (guess_snr st - snr_th) ≤ snr_th * qc 1 1000.
Proof.
  intros Hinit (Hc & Hs & _)%solver_loop_spec.
  destruct Hs as [-> | Hs].
  { apply not_converged_initially in Hinit. congruence. }
  split; [done|].
  unfold not_converged in Hc. apply bool_decide_eq_false in Hc.
  by apply Qcnot_lt_le.
Qed.

End solver.

(** ** The volume estimator *)

Section volume.
Context {ext : Externals}.

Lemma Qc_of_nat_nonneg (n : nat) : 0 ≤ Qc_of_nat n.
Proof.
  unfold Qc_of_nat, Qc_of_Z, Qcle. simpl. unfold Qle. simpl. lia.
Qed.

Lemma Qc_of_nat_lt (i j : nat) : (i < j)%nat → Qc_of_nat i < Qc_of_nat j.
Proof.
  intros Hij. unfold Qc_of_nat, Qc_of_Z, Qclt. simpl. unfold Qlt. simpl. lia.
Qed.

Lemma Qc_of_nat_S (n : nat) : Qc_of_nat (S n) = Qc_of_nat n + 1.
Proof.
  apply Qc_is_canon. unfold Qc_of_nat, Qc_of_Z. simpl.
  rewrite Qred_correct. unfold Qeq. simpl. lia.
Qed.

(** The redshift of shell [i]: [zh + i * ((0 - zh) / 100)]. *)
Lemma shell_redshift_eq (zh : Qc) (i : nat) :
  Qc_of_nat i * ((0 - zh) / Qc_of_nat n_zstep) + zh
  = zh * (Qc_of_Z 100 - Qc_of_nat i) / Qc_of_Z 100.
Proof.
  change (Qc_of_nat n_zstep) with (Qc_of_Z 100).
  generalize (Qc_of_nat i). intros q. qc_lra.
Qed.

Lemma enclosed_redshift_spec frac z unit_volume vol_sum zf :
  enclosed_redshift frac z unit_volume vol_sum = Ok zf →
  (∃ i ci, z !! i = Some zf ∧ np_cumsum unit_volume !! i = Some ci ∧
           frac * vol_sum ≤ ci) ∧
  (∀ j zj cj, z !! j = Some zj → np_cumsum unit_volume !! j = Some cj →
              frac * vol_sum ≤ cj → zj ≤ zf).
Proof.
  unfold enclosed_redshift. intros H. inv_ok.
  rename a into zs. apply take_indices_spec in Ha.
  apply np_max_spec in Hk as [Hin Hmax]. split.
  - apply list_elem_of_lookup in Hin as [k Hk].
    destruct (Forall2_lookup_r _ _ _ _ _ Ha Hk) as (i & Hi & Hz).
    assert (i ∈ np_where ((λ v, bool_decide (frac * vol_sum ≤ v))
                            <$> np_cumsum unit_volume)) as Hw
      by (apply list_elem_of_lookup; eauto).
    apply np_where_spec in Hw. rewrite list_lookup_fmap in Hw.
    destruct (np_cumsum unit_volume !! i) as [ci|] eqn:Hci; [|done].
    simpl in Hw. injection Hw as Hw. apply bool_decide_eq_true in Hw.
    eauto.
  - intros j zj cj Hzj Hcj Hle. apply Hmax.
    assert (j ∈ np_where ((λ v, bool_decide (frac * vol_sum ≤ v))
                            <$> np_cumsum unit_volume)) as Hw.
    { apply np_where_spec. rewrite list_lookup_fmap, Hcj. simpl.
      f_equal. by apply bool_decide_eq_true. }
    apply list_elem_of_lookup in Hw as [k Hk].
    destruct (Forall2_lookup_l _ _ _ _ _ Ha Hk) as (x & Hx & Hz).
    rewrite Hzj in Hz. injection Hz as <-.
    apply list_elem_of_lookup. eauto.
Qed.



Lemma shell_step_spec c P z dz st i st' :
  shell_step c P z dz st i = Ok st' →
  ∃ zi pw, z !! i = Some zi ∧ shell_weight c P zi pw ∧
           st'.2 = <[i := volume_element zi dz pw]> st.2.
Proof.
  unfold shell_step. intros H. inv_ok. subst st'. simpl.
  eexists _, _. split; [done|]. split; [|done].
  unfold shell_weight. eauto 10.
Qed.

Lemma shell_volumes_spec c P zh s z unit_volume :
  shell_volumes c P zh s = Ok (z, unit_volume) →
  z = (linspace_open zh 0 n_zstep).1 ∧
  length unit_volume = n_zstep ∧
  ∀ i zi, z !! i = Some zi →
    ∃ pw, shell_weight c P zi pw ∧
      unit_volume !! i
        = Some (volume_element zi
                  (Qcabs ((0 - zh) / Qc_of_nat n_zstep)) pw).
Proof.
  unfold shell_volumes.
  destruct (linspace_open zh 0 n_zstep) as [z' dz] eqn:Hlin.
  assert (z' = (linspace_open zh 0 n_zstep).1) as Hz' by (by rewrite Hlin).
  assert (dz = (0 - zh) / Qc_of_nat n_zstep) as Hdz.
  { unfold linspace_open in Hlin. by injection Hlin as _ <-. }
  assert (length z' = n_zstep) as Hlen
    by (rewrite Hz'; apply linspace_open_length).
  intros H. inv_ok. rename s0 into s', l into uv. subst z unit_volume.
  split; [done|].
  pose (I := λ (k : nat) (st : selection * list Qc),
    length st.2 = n_zstep ∧
    ∀ i zi, (i < k)%nat → z' !! i = Some zi →
      ∃ pw, shell_weight c P zi pw ∧
        st.2 !! i = Some (volume_element zi (Qcabs dz) pw)).
  assert (I (length z') (s', uv)) as [Hl Hall].
  { eapply (for_each_range_inv I); [| | exact Ha].
    - split; [simpl; by rewrite length_replicate | intros; lia].
    - intros k st1 st2 Hk [Hl1 Hall1] Hbody.
      apply shell_step_spec in Hbody as (zk & pw & Hzk & Hw & Hst).
      split; [rewrite Hst, length_insert; done|].
      intros i zi Hi Hzi. rewrite Hst.
      destruct (decide (i = k)) as [-> | Hne].
      + rewrite Hzk in Hzi. injection Hzi as <-. exists pw. split; [done|].
        apply list_lookup_insert_eq. lia.
      + rewrite list_lookup_insert_ne by done. apply Hall1; [lia | done]. }
  split; [done|]. intros i zi Hzi. subst dz.
  apply Hall; [|done]. by apply lookup_lt_Some in Hzi.
Qed.

Lemma shell_step_lists c P z dz st i st' :
  shell_step c P z dz st i = Ok st' →
  ∃ zi optsnr_z pw,
    z !! i = Some zi ∧
    network_snr_at c st.1 zi (luminosity_distance zi cosmo)
      = Ok (optsnr_z, st'.1) ∧
    antenna_weight P optsnr_z = Ok pw ∧
    st'.2 = <[i := volume_element zi dz pw]> st.2.
Proof.
  unfold shell_step. intros H. inv_ok. subst st'. simpl. eauto 10.
Qed.

(** Every pass of the loop over the shells computes the SNR of its
    waveform with the entries that [fsel] and [psd_interp] held when the
    loop started, whatever the frequency grid of the shell. *)
Lemma shell_volumes_old_lists c P zh (s : selection) z unit_volume :
  (length (network c) ≤ length s.1)%nat →
  (length (network c) ≤ length s.2)%nat →
  shell_volumes c P zh s = Ok (z, unit_volume) →
  ∀ i zi, z !! i = Some zi →
    ∃ hplus_tilda hcross_tilda freqs optsnr_z pw,
      get_htildas ((1 + zi) * m1 c) ((1 + zi) * m2 c)
        (luminosity_distance zi cosmo) (iota c) fmin fref df (approx c)
        = Ok (hplus_tilda, hcross_tilda, freqs) ∧
      compute_horizonSNR hplus_tilda hcross_tilda (network c)
        (ra c) (dec c) (psi c) s.2 s.1 df = Ok optsnr_z ∧
      antenna_weight P optsnr_z = Ok pw ∧
      unit_volume !! i
        = Some (volume_element zi
                  (Qcabs ((0 - zh) / Qc_of_nat n_zstep)) pw).
Proof.
  intros Hl1 Hl2. unfold shell_volumes.
  destruct (linspace_open zh 0 n_zstep) as [z' dz] eqn:Hlin.
  assert (dz = (0 - zh) / Qc_of_nat n_zstep) as Hdz.
  { unfold linspace_open in Hlin. by injection Hlin as _ <-. }
  intros H. inv_ok. rename s0 into s', l into uv. subst z unit_volume dz.
  set (dz := Qcabs ((0 - zh) / Qc_of_nat n_zstep)) in *.
  pose (I := λ (k : nat) (st : selection * list Qc),
    (∃ e1 e2, st.1.1 = s.1 ++ e1 ∧ st.1.2 = s.2 ++ e2) ∧
    length st.2 = length z' ∧
    ∀ i zi, (i < k)%nat → z' !! i = Some zi →
      ∃ hplus_tilda hcross_tilda freqs optsnr_z pw,
        get_htildas ((1 + zi) * m1 c) ((1 + zi) * m2 c)
          (luminosity_distance zi cosmo) (iota c) fmin fref df (approx c)
          = Ok (hplus_tilda, hcross_tilda, freqs) ∧
        compute_horizonSNR hplus_tilda hcross_tilda (network c)
          (ra c) (dec c) (psi c) s.2 s.1 df = Ok optsnr_z ∧
        antenna_weight P optsnr_z = Ok pw ∧
        st.2 !! i = Some (volume_element zi dz pw)).
  assert (I (length z') (s', uv)) as (_ & _ & Hall).
  { eapply (for_each_range_inv I); [| | exact Ha].
    - split; [exists [], []; by rewrite !app_nil_r|].
      split; [simpl; by rewrite length_replicate | intros; lia].
    - intros k st1 st2 Hk ((e1 & e2 & He1 & He2) & Hlen & Hall1) Hbody.
      apply shell_step_lists in Hbody as (zk & snr & pw & Hzk & Hsnr & Hw & Hst).
      apply network_snr_at_old_lists in Hsnr
        as ((e1' & e2' & He1' & He2') & hp & hc & fr & Hwave & Hcomp);
        [| rewrite He1, length_app; lia | rewrite He2, length_app; lia].
      rewrite He1, He2 in Hcomp.
      rewrite compute_horizonSNR_prefix in Hcomp by done.
      unfold I. split; [| split].
      + exists (e1 ++ e1'), (e2 ++ e2').
        by rewrite He1', He2', He1, He2, <- !app_assoc.
      + by rewrite Hst, length_insert.
      + intros j zj Hj Hzj. rewrite Hst.
        destruct (decide (j = k)) as [-> | Hne].
        * rewrite Hzk in Hzj. injection Hzj as <-.
          exists hp, hc, fr, snr, pw. repeat split; try done.
          apply list_lookup_insert_eq. lia.
        * rewrite list_lookup_insert_ne by done. apply Hall1; [lia | done]. }
  intros j zj Hzj. apply Hall; [|done]. by apply lookup_lt_Some in Hzj.
Qed.

(** The lists left by the solver hold one entry per detector. *)
Lemma stepped_lists_length c st :
  stepped c st →
  length (lists st).1 = length (network c) ∧
  length (lists st).2 = length (network c).
Proof.
  intros [_ Hsnr]. unfold snr_at, network_snr_at in Hsnr. inv_ok.
  subst. apply select_bands_appends in Ha0 as (e1 & e2 & -> & -> & ? & ?).
  done.
Qed.

Lemma find_horizon_range_volume fuel m1 m2 network asdfile pwfile approx r :
  find_horizon_range fuel m1 m2 network asdfile pwfile approx = Ok r →
  ∃ c st w_sample P_sample P z unit_volume z50 z90,
    read_setup m1 m2 network asdfile pwfile approx = Ok c ∧
    genfromtxt ("../data/pw_" +:+ pwfile +:+ ".txt") = Ok (w_sample, P_sample) ∧
    interp1d w_sample P_sample (Some 0) = Ok P ∧
    shell_volumes c P (horizon_redshift r) (lists st) = Ok (z, unit_volume) ∧
    enclosed_redshift (qc 1 2) z unit_volume (np_sum unit_volume) = Ok z50 ∧
    enclosed_redshift (qc 1 10) z unit_volume (np_sum unit_volume) = Ok z90 ∧
    horizon_distance r = luminosity_distance (horizon_redshift r) cosmo ∧
    distance_50 r = luminosity_distance z50 cosmo ∧
    distance_90 r = luminosity_distance z90 cosmo ∧
    detectable_volume r = np_sum unit_volume.
Proof.
  intros (c & st0 & st & Hc & _ & _ & Hr)%find_horizon_range_inv.
  apply range_from_inv in Hr
    as (zh & w & Ps & P & z & uv & z50 & z90 & _ & ? & ? & ? & ? & ? & ->).
  simpl. exists c, st, w, Ps, P, z, uv, z50, z90. done.
Qed.

(** The shells all lie at or below a non-negative horizon redshift. *)
Lemma shell_below_horizon (zh : Qc) (i : nat) (zi : Qc) :
  0 ≤ zh → (linspace_open zh 0 n_zstep).1 !! i = Some zi → zi ≤ zh.
Proof.
  intros Hzh Hzi. pose proof (lookup_lt_Some _ _ _ Hzi) as Hi.
  rewrite linspace_open_length in Hi.
  rewrite linspace_open_lookup in Hzi by done. injection Hzi as <-.
  change (Qc_of_nat n_zstep) with (Qc_of_Z 100).
  pose proof (Qc_of_nat_nonneg i) as Hq. revert Hq.
  generalize (Qc_of_nat i). intros q Hq. qc_nra.
Qed.

(** C2, as the program has it: when [find_horizon_range] returns with a
    non-negative horizon redshift and a non-negative total volume, and the
    luminosity distance does not decrease with redshift, the distance
    enclosing 50% is at most the distance enclosing 90%, which is at most
    the horizon distance. *)
Theorem enclosed_distances_ordered fuel m1 m2 network asdfile pwfile approx r :
  find_horizon_range fuel m1 m2 network asdfile pwfile approx = Ok r →
  (∀ a b, a ≤ b → luminosity_distance a cosmo ≤ luminosity_distance b cosmo) →
  0 ≤ horizon_redshift r →
  0 ≤ detectable_volume r →
  distance_50 r ≤ distance_90 r ∧ distance_90 r ≤ horizon_distance r.
Proof.
  intros Hrun Hmono Hzh Hvol.
  apply find_horizon_range_volume in Hrun
    as (c & st & w & Ps & P & z & uv & z50 & z90 &
        _ & _ & _ & Hsh & H50 & H90 & -> & -> & -> & Hv).
  rewrite Hv in Hvol.
  apply shell_volumes_spec in Hsh as (Hz & _ & _).
  apply enclosed_redshift_spec in H50 as [(i & ci & Hi & Hci & Hle) _].
  apply enclosed_redshift_spec in H90 as [(j & cj & Hj & _ & _) Hmax].
  split; apply Hmono.
  - apply (Hmax i z50 ci); [done | done |].
    revert Hle Hvol. generalize (np_sum uv). intros v Hle Hvol. qc_lra.
  - subst z. by eapply shell_below_horizon.
Qed.


Lemma enclosed_redshift_highest frac z unit_volume zf :
  enclosed_redshift frac z unit_volume (np_sum unit_volume) = Ok zf →
  highest_shell_reaching frac z unit_volume zf.
Proof.
  intros [(i & ci & Hi & Hci & Hle) Hmax]%enclosed_redshift_spec. split.
  - exists i. split; [done|].
    assert (i < length unit_volume)%nat as Hlt.
    { apply lookup_lt_Some in Hci. unfold np_cumsum in Hci.
      by rewrite cumsum_from_length in Hci. }
    split; [done|]. rewrite np_cumsum_lookup in Hci by done.
    by injection Hci as <-.
  - intros j zj Hj Hlt Hle'. eapply Hmax; [done | | done].
    by apply np_cumsum_lookup.
Qed.

Lemma highest_shell_unique frac z unit_volume z1 z2 :
  highest_shell_reaching frac z unit_volume z1 →
  highest_shell_reaching frac z unit_volume z2 → z1 = z2.
Proof.
  intros [(i & Hi & Hli & Hci) Hmax1] [(j & Hj & Hlj & Hcj) Hmax2].
  apply Qcle_antisym; eauto.
Qed.

(** C3, as the program has it: the shells are scanned from the horizon
    redshift toward zero; the 50% redshift is the highest shell redshift at
    which the volume accumulated from the horizon down to the shell reaches
    50% of the total, the 90% redshift is the highest one at which it
    reaches 10% of the total (so that 90% of the volume lies below it), and
    the two distances returned are the luminosity distances of these
    redshifts. *)
Theorem enclosed_redshifts_are_highest_shells
    fuel m1 m2 network asdfile pwfile approx r :
  find_horizon_range fuel m1 m2 network asdfile pwfile approx = Ok r →
  ∃ c st P z unit_volume z50 z90,
    shell_volumes c P (horizon_redshift r) (lists st) = Ok (z, unit_volume) ∧
    (∀ i, (i < n_zstep)%nat →
       z !! i = Some (horizon_redshift r * (Qc_of_Z 100 - Qc_of_nat i)
                      / Qc_of_Z 100)) ∧
    detectable_volume r = np_sum unit_volume ∧
    highest_shell_reaching (qc 1 2) z unit_volume z50 ∧
    highest_shell_reaching (qc 1 10) z unit_volume z90 ∧
    distance_50 r = luminosity_distance z50 cosmo ∧
    distance_90 r = luminosity_distance z90 cosmo.
Proof.
  intros (c & st & w & Ps & P & z & uv & z50 & z90 &
          _ & _ & _ & Hsh & H50 & H90 & _ & ? & ? & ?)%find_horizon_range_volume.
  exists c, st, P, z, uv, z50, z90.
  split; [done|]. split; [| by auto using enclosed_redshift_highest].
  apply shell_volumes_spec in Hsh as (-> & _ & _).
  intros i Hi. rewrite linspace_open_lookup by done.
  by rewrite shell_redshift_eq.
Qed.

Lemma shell_spacing (zh : Qc) (i : nat) :
  zh * (Qc_of_Z 100 - Qc_of_nat i) / Qc_of_Z 100
  - zh * (Qc_of_Z 100 - Qc_of_nat (S i)) / Qc_of_Z 100
  = zh / Qc_of_Z 100.
Proof.
  rewrite Qc_of_nat_S. generalize (Qc_of_nat i). intros q. qc_lra.
Qed.

Lemma shell_not_zero (zh : Qc) (i : nat) :
  zh ≠ 0 → (i < 100)%nat →
  zh * (Qc_of_Z 100 - Qc_of_nat i) / Qc_of_Z 100 ≠ 0.
Proof.
  intros Hzh Hi Hz. apply (Qc_of_nat_lt i 100) in Hi.
  change (Qc_of_nat 100) with (Qc_of_Z 100) in Hi.
  assert (zh * (Qc_of_Z 100 - Qc_of_nat i) = 0) as Hprod.
  { revert Hz. generalize (zh * (Qc_of_Z 100 - Qc_of_nat i)).
    intros p Hp. qc_lra. }
  apply Qcmult_integral in Hprod as [Hprod | Hprod]; [done|].
  revert Hi Hprod. generalize (Qc_of_nat i). intros q Hi Hq. qc_lra.
Qed.

(** C7: the volume estimator works on exactly 100 shells,
    [z_i = zh * (100 - i) / 100] for [i = 0 .. 99]: equally spaced by
    [zh / 100], from the horizon redshift [zh] toward zero, which is not
    among them.  Shell [i] is given the volume element
    [(V_c(z_i + dz/2) - V_c(z_i - dz/2)) / (1 + z_i) * P(w_i)] with
    [dz = |(0 - zh) / 100|] and [w_i = snr_th / SNR_i]; the volume returned
    is the sum of the elements; and [P] is zero at every [w] below or above
    all the samples of the table. *)
Theorem volume_estimator_shells fuel m1 m2 network asdfile pwfile approx r :
  find_horizon_range fuel m1 m2 network asdfile pwfile approx = Ok r →
  ∃ c st w_sample P_sample P z unit_volume,
    genfromtxt ("../data/pw_" +:+ pwfile +:+ ".txt") = Ok (w_sample, P_sample) ∧
    interp1d w_sample P_sample (Some 0) = Ok P ∧
    shell_volumes c P (horizon_redshift r) (lists st) = Ok (z, unit_volume) ∧
    length z = 100%nat ∧ length unit_volume = 100%nat ∧
    (∀ i, (i < 100)%nat →
       z !! i = Some (horizon_redshift r * (Qc_of_Z 100 - Qc_of_nat i)
                      / Qc_of_Z 100)) ∧
    (∀ i zi zj, z !! i = Some zi → z !! S i = Some zj →
       zi - zj = horizon_redshift r / Qc_of_Z 100) ∧
    (horizon_redshift r ≠ 0 → ∀ zi, zi ∈ z → zi ≠ 0) ∧
    (∀ i zi, z !! i = Some zi →
       ∃ pw, shell_weight c P zi pw ∧
         unit_volume !! i
           = Some (volume_element zi
                     (Qcabs ((0 - horizon_redshift r) / Qc_of_Z 100)) pw)) ∧
    detectable_volume r = np_sum unit_volume ∧
    (∀ w, (∀ x, x ∈ w_sample → w < x) ∨ (∀ x, x ∈ w_sample → x < w) →
          interp_at P w = Ok 0).
Proof.
  intros (c & st & w & Ps & P & z & uv & z50 & z90 &
          _ & Hfile & HP & Hsh & _ & _ & _ & _ & _ & Hv)%find_horizon_range_volume.
  exists c, st, w, Ps, P, z, uv.
  split; [done|]. split; [done|]. split; [done|].
  apply shell_volumes_spec in Hsh as (-> & Hlen & Hall).
  assert (∀ i, (i < 100)%nat →
            (linspace_open (horizon_redshift r) 0 n_zstep).1 !! i
            = Some (horizon_redshift r * (Qc_of_Z 100 - Qc_of_nat i)
                    / Qc_of_Z 100)) as Hz.
  { intros i Hi. rewrite linspace_open_lookup by done.
    by rewrite shell_redshift_eq. }
  assert (∀ i zi, (linspace_open (horizon_redshift r) 0 n_zstep).1 !! i
                   = Some zi → (i < 100)%nat) as Hlt.
  { intros i zi Hi%lookup_lt_Some. by rewrite linspace_open_length in Hi. }
  split; [apply linspace_open_length|]. split; [done|]. split; [done|].
  split; [| split; [| split; [done | split; [done|]]]].
  - intros i zi zj Hi Hj.
    rewrite Hz in Hi by eauto. rewrite Hz in Hj by eauto.
    injection Hi as <-. injection Hj as <-. apply shell_spacing.
  - intros Hne zi [i Hi]%list_elem_of_lookup.
    pose proof (Hlt _ _ Hi) as Hi100.
    rewrite Hz in Hi by done. injection Hi as <-.
    by apply shell_not_zero.
  - intros w0 Hout. by eapply interp_at_outside.
Qed.

End volume.

(** ** The program in the small world *)

Section small_world.
#[local] Existing Instance Toy.strict_world.

Lemma toy_luminosity_monotone a b :
  a ≤ b → luminosity_distance a cosmo ≤ luminosity_distance b cosmo.
Proof.
  intros Hab. simpl. unfold Toy.toy_luminosity_distance.
  replace (Qc_of_Z 3000 / h cosmo) with (qc 500000 113)
    by (by apply Qc_is_canon).
  qc_lra.
Qed.

Lemma run_HL_ok : Toy.run_HL = Ok Toy.result_HL.
Proof. vm_compute. reflexivity. Qed.

Lemma shells_HL_ok :
  shell_volumes Toy.setup_HL Toy.table (horizon_redshift Toy.result_HL)
    (lists Toy.state_HL) = Ok Toy.shells_HL.
Proof. vm_compute. reflexivity. Qed.

Lemma enclosed_distances_ordered_witness :
  distance_50 Toy.result_HL ≤ distance_90 Toy.result_HL ∧
  distance_90 Toy.result_HL ≤ horizon_distance Toy.result_HL.
Proof.
  apply (enclosed_distances_ordered 20%nat (Qc_of_Z 33) (Qc_of_Z 33)
           ["H"; "L"] ["H.txt"; "L.txt"] "toy" 0%nat).
  - exact run_HL_ok.
  - exact toy_luminosity_monotone.
  - by vm_compute.
  - by vm_compute.
Defined.

(** C2 as stated fails: the two-detector call returns a 90% distance
    (55500/113 Mpc) above its 50% distance (54390/113 Mpc). *)
Lemma enclosed_90_above_50 :
  Toy.run_HL = Ok Toy.result_HL ∧
  ¬ (distance_90 Toy.result_HL ≤ distance_50 Toy.result_HL ∧
     distance_50 Toy.result_HL ≤ horizon_distance Toy.result_HL).
Proof.
  split; [exact run_HL_ok|]. intros [H90 _]. by vm_compute in H90.
Qed.

Lemma enclosed_redshifts_are_highest_shells_witness :
  ∃ c st P z unit_volume z50 z90,
    shell_volumes c P (horizon_redshift Toy.result_HL) (lists st)
      = Ok (z, unit_volume) ∧
    (∀ i, (i < n_zstep)%nat →
       z !! i = Some (horizon_redshift Toy.result_HL
                      * (Qc_of_Z 100 - Qc_of_nat i) / Qc_of_Z 100)) ∧
    detectable_volume Toy.result_HL = np_sum unit_volume ∧
    highest_shell_reaching (qc 1 2) z unit_volume z50 ∧
    highest_shell_reaching (qc 1 10) z unit_volume z90 ∧
    distance_50 Toy.result_HL = luminosity_distance z50 cosmo ∧
    distance_90 Toy.result_HL = luminosity_distance z90 cosmo.
Proof.
  apply (enclosed_redshifts_are_highest_shells 20%nat (Qc_of_Z 33)
           (Qc_of_Z 33) ["H"; "L"] ["H.txt"; "L.txt"] "toy" 0%nat).
  exact run_HL_ok.
Defined.

(** C3 as stated fails: in the two-detector call no shell that is the
    highest one reaching 90% of the total volume has the returned 90%
    distance as its luminosity distance. *)
Lemma enclosed_90_is_not_at_90_percent :
  Toy.run_HL = Ok Toy.result_HL ∧
  shell_volumes Toy.setup_HL Toy.table (horizon_redshift Toy.result_HL)
    (lists Toy.state_HL) = Ok Toy.shells_HL ∧
  detectable_volume Toy.result_HL = np_sum Toy.shells_HL.2 ∧
  ¬ ∃ z90,
      highest_shell_reaching (qc 9 10) Toy.shells_HL.1 Toy.shells_HL.2 z90 ∧
      distance_90 Toy.result_HL = luminosity_distance z90 cosmo.
Proof.
  split; [exact run_HL_ok|]. split; [exact shells_HL_ok|].
  split; [by apply Qc_is_canon|].
  intros (z90 & Hhigh & Hdist).
  assert (∃ z', enclosed_redshift (qc 9 10) Toy.shells_HL.1 Toy.shells_HL.2
                  (np_sum Toy.shells_HL.2) = Ok z' ∧
                distance_90 Toy.result_HL ≠ luminosity_distance z' cosmo)
    as (z' & Hz' & Hne).
  { eexists. split; [vm_compute; reflexivity|].
    intros Heq%Qc_eq_Qeq. by vm_compute in Heq. }
  apply enclosed_redshift_highest in Hz'.
  by rewrite (highest_shell_unique _ _ _ _ _ Hhigh Hz') in Hdist.
Qed.

Lemma volume_estimator_shells_witness :
  ∃ c st w_sample P_sample P z unit_volume,
    genfromtxt ("../data/pw_" +:+ "toy" +:+ ".txt") = Ok (w_sample, P_sample) ∧
    interp1d w_sample P_sample (Some 0) = Ok P ∧
    shell_volumes c P (horizon_redshift Toy.result_HL) (lists st)
      = Ok (z, unit_volume) ∧
    length z = 100%nat ∧ length unit_volume = 100%nat ∧
    (∀ i, (i < 100)%nat →
       z !! i = Some (horizon_redshift Toy.result_HL
                      * (Qc_of_Z 100 - Qc_of_nat i) / Qc_of_Z 100)) ∧
    (∀ i zi zj, z !! i = Some zi → z !! S i = Some zj →
       zi - zj = horizon_redshift Toy.result_HL / Qc_of_Z 100) ∧
    (horizon_redshift Toy.result_HL ≠ 0 → ∀ zi, zi ∈ z → zi ≠ 0) ∧
    (∀ i zi, z !! i = Some zi →
       ∃ pw, shell_weight c P zi pw ∧
         unit_volume !! i
           = Some (volume_element zi
                     (Qcabs ((0 - horizon_redshift Toy.result_HL)
                             / Qc_of_Z 100)) pw)) ∧
    detectable_volume Toy.result_HL = np_sum unit_volume ∧
    (∀ w, (∀ x, x ∈ w_sample → w < x) ∨ (∀ x, x ∈ w_sample → x < w) →
          interp_at P w = Ok 0).
Proof.
  apply (volume_estimator_shells 20%nat (Qc_of_Z 33) (Qc_of_Z 33)
           ["H"; "L"] ["H.txt"; "L.txt"] "toy" 0%nat).
  exact run_HL_ok.
Defined.

Lemma run_low_ok : Toy.run_low = Ok Toy.result_low.
Proof. vm_compute. reflexivity. Qed.

Lemma empty_band_adds_zero_witness :
  ∃ s' : selection,
    select_detector ["H"; "L"] (noise Toy.setup_low)
      [Qc_of_Z 10; qc 1001 100; qc 1002 100] ([], []) 0 = Ok s' ∧
    s'.1 !! 0%nat
      = Some (band_mask [Qc_of_Z 10; qc 1001 100; qc 1002 100]
                (Qc_of_Z 10) (qc 5 1)) ∧
    s'.2 !! 0%nat = Some [] ∧
    snrsq_term [(1, 0); (1, 0); (1, 0)] [(0, 1); (0, 1); (0, 1)] ["H"; "L"]
      0 0 0 s'.2 s'.1 df 0 = Ok 0 ∧
    ∀ before after : list (string * list bool * list Qc),
      compute_horizonSNR [(1, 0); (1, 0); (1, 0)] [(0, 1); (0, 1); (0, 1)]
        (before ++ ("H", band_mask [Qc_of_Z 10; qc 1001 100; qc 1002 100]
                           (Qc_of_Z 10) (qc 5 1), []) :: after).*1.*1
        0 0 0
        (before ++ ("H", band_mask [Qc_of_Z 10; qc 1001 100; qc 1002 100]
                           (Qc_of_Z 10) (qc 5 1), []) :: after).*2
        (before ++ ("H", band_mask [Qc_of_Z 10; qc 1001 100; qc 1002 100]
                           (Qc_of_Z 10) (qc 5 1), []) :: after).*1.*2 df
      = compute_horizonSNR [(1, 0); (1, 0); (1, 0)] [(0, 1); (0, 1); (0, 1)]
          (before ++ after).*1.*1 0 0 0
          (before ++ after).*2 (before ++ after).*1.*2 df.
Proof.
  apply (empty_band_adds_zero ["H"; "L"] (noise Toy.setup_low)
           [Qc_of_Z 10; qc 1001 100; qc 1002 100] ([], []) 0%nat "H"
           (Qc_of_Z 10) (qc 5 1) Toy.psd_low (1, 0)).
  - reflexivity.
  - vm_compute. reflexivity.
  - vm_compute. reflexivity.
  - vm_compute. reflexivity.
  - reflexivity.
  - reflexivity.
  - intros x _ [Hlo Hhi]. qc_lra.
  - vm_compute. reflexivity.
  - reflexivity.
  - reflexivity.
Defined.

(** C5 as stated fails: the noise file of H ends at 5 Hz, its band
    (10 Hz, 5 Hz) contains no frequency at all, and the call returns a
    horizon where the claim has it raise. *)
Lemma empty_band_raises_nothing :
  read_setup (Qc_of_Z 30) (Qc_of_Z 30) ["H"; "L"] ["low.txt"; "L.txt"]
    "toy" 0 = Ok Toy.setup_low ∧
  minimum_freq (noise Toy.setup_low) !! 0%nat = Some (Qc_of_Z 10) ∧
  maximum_freq (noise Toy.setup_low) !! 0%nat = Some (qc 5 1) ∧
  Toy.run_low = Ok Toy.result_low ∧
  ¬ ∃ e, Toy.run_low = Raise e.
Proof.
  split; [vm_compute; reflexivity|].
  split; [vm_compute; reflexivity|].
  split; [vm_compute; reflexivity|].
  split; [exact run_low_ok|].
  intros [e He]. rewrite run_low_ok in He. discriminate He.
Qed.

Lemma compute_horizonSNR_is_network_snr_witness :
  compute_horizonSNR [(1, 0); (Qc_of_Z 2, 0)] [(0, -1); (0, - Qc_of_Z 2)]
    ["H"; "L"] 0 0 0 [[1]; [Qc_of_Z 2; Qc_of_Z 4]]
    [[true; false]; [true; true]] df
  = Ok (network_snr df [(1, 0); (Qc_of_Z 2, 0)] [(0, -1); (0, - Qc_of_Z 2)]
          [DetectorData (1, 0) [true; false] [1];
           DetectorData (0, qc 3 4) [true; true] [Qc_of_Z 2; Qc_of_Z 4]]).
Proof.
  apply compute_horizonSNR_is_network_snr.
  - reflexivity.
  - reflexivity.
  - intros i d Hd. destruct i as [|[|i]]; simpl in Hd; [| |done];
      injection Hd as <-; simpl.
    + exists "H". repeat split; reflexivity.
    + exists "L". repeat split; reflexivity.
Defined.

Lemma noise_bands_and_interpolants_witness :
  ∃ input_freq strain lo hi f,
    loaded_from ["H.txt"; "L.txt"] 0 input_freq strain lo hi f ∧
    (lo ∈ input_freq ∧ ∀ x, x ∈ input_freq → lo ≤ x) ∧
    (hi ∈ input_freq ∧ ∀ x, x ∈ input_freq → x ≤ hi) ∧
    minimum_freq (noise Toy.setup_HL) !! 0%nat
      = Some (Qcmax (Qc_of_Z 10) lo) ∧
    maximum_freq (noise Toy.setup_HL) !! 0%nat
      = Some (Qcmin (Qc_of_Z 5000) hi) ∧
    ((∀ d', (0 < d')%nat → ["H"; "L"] !! d' ≠ Some "H") →
     psdinterp_dict (noise Toy.setup_HL) !! "H" = Some f) ∧
    (NoDup input_freq →
     ∀ k fk sk, input_freq !! k = Some fk → strain !! k = Some sk →
                interp_at f fk = Ok (sk * sk)).
Proof.
  apply (noise_bands_and_interpolants ["H"; "L"] ["H.txt"; "L.txt"]
           (noise Toy.setup_HL) 0%nat "H").
  - vm_compute. reflexivity.
  - reflexivity.
Defined.

Lemma repeated_detector_uses_last_file_witness :
  ∃ freq_i strain_i lo hi f_i freq_j strain_j lo_j hi_j f_j,
    loaded_from ["H.txt"; "L.txt"; "wide.txt"] 0 freq_i strain_i lo hi f_i ∧
    loaded_from ["H.txt"; "L.txt"; "wide.txt"] 2 freq_j strain_j lo_j hi_j f_j ∧
    psdinterp_dict Toy.noise_HLH !! "H" = Some f_j ∧
    minimum_freq Toy.noise_HLH !! 0%nat = Some (Qcmax (Qc_of_Z 10) lo) ∧
    maximum_freq Toy.noise_HLH !! 0%nat = Some (Qcmin (Qc_of_Z 5000) hi) ∧
    ∀ freqs (s s' : selection),
      length s.1 = 0%nat →
      select_detector ["H"; "L"; "H"] Toy.noise_HLH freqs s 0 = Ok s' →
      ∃ in_band_freqs psd_samples,
        bool_index strict_bool_index freqs
          (band_mask freqs (Qcmax (Qc_of_Z 10) lo) (Qcmin (Qc_of_Z 5000) hi))
          = Ok in_band_freqs ∧
        interp_call f_j in_band_freqs = Ok psd_samples ∧
        s' = (s.1 ++ [band_mask freqs (Qcmax (Qc_of_Z 10) lo)
                        (Qcmin (Qc_of_Z 5000) hi)],
              s.2 ++ [psd_samples]).
Proof.
  apply (repeated_detector_uses_last_file ["H"; "L"; "H"]
           ["H.txt"; "L.txt"; "wide.txt"] Toy.noise_HLH 0%nat 2%nat "H").
  - vm_compute. reflexivity.
  - reflexivity.
  - reflexivity.
  - intros j' Hj'. destruct j' as [|[|[|j']]]; (lia || done).
Defined.

(** C4 does not hold of the program.  One detector with a band from 10 to
    11 Hz, 45 + 45 solar masses: the solver ends at redshift 9258/75625 on
    a frequency grid of 5 samples, and leaves the mask and the PSD samples
    of that grid in [fsel[0]] and [psd_interp[0]].  The loop over the shells
    appends to the lists without emptying them, so every shell reads these
    two entries.  The grid of the last shell (a hundredth of that redshift)
    has 9 samples.  With a numpy that accepts a mask shorter than the array,
    the SNR of that shell is computed over the 4 frequencies of the horizon's
    band, not over the 8 frequencies of the shell's own band, and is
    smaller than the SNR of the waveform at that redshift over its own
    band; with a numpy that rejects such a mask, the call raises
    IndexError. *)
Theorem shell_snr_uses_horizon_band :
  (∀ strict,
     @read_setup (Toy.world strict) (Qc_of_Z 45) (Qc_of_Z 45) ["H"]
       ["wide.txt"] "toy" 0 = Ok Toy.setup_wide ∧
     (st0 ← @solver_init (Toy.world strict) Toy.setup_wide;
      @solver_loop (Toy.world strict) 20 Toy.setup_wide st0)
     = Ok Toy.state_wide) ∧
  guess_redshift Toy.state_wide = Some Toy.zh_wide ∧
  Toy.zh_wide = qc 9258 75625 ∧
  length <$> (lists Toy.state_wide).1 = [5%nat] ∧
  Toy.z_wide !! 99%nat = Some Toy.z99_wide ∧
  Toy.z99_wide = qc 4629 3781250 ∧
  (∀ strict,
     @snr_at (Toy.world strict) Toy.setup_wide Toy.z99_wide
       (luminosity_distance Toy.z99_wide cosmo) = Ok Toy.snr99_own_band) ∧
  length <$> Toy.snr99_own_band.2.1 = [9%nat] ∧
  for_each (seq 0 99)
    (@shell_step Toy.legacy_world Toy.setup_wide Toy.table Toy.z_wide
       Toy.dz_wide)
    (lists Toy.state_wide, replicate 100 0) = Ok Toy.lists99_wide ∧
  @network_snr_at Toy.legacy_world Toy.setup_wide Toy.lists99_wide.1
    Toy.z99_wide (luminosity_distance Toy.z99_wide cosmo)
    = Ok Toy.snr99_used ∧
  Toy.snr99_used.2.1 !! 0%nat = (lists Toy.state_wide).1 !! 0%nat ∧
  Toy.snr99_used.2.2 !! 0%nat = (lists Toy.state_wide).2 !! 0%nat ∧
  Toy.snr99_used.1 < Toy.snr99_own_band.1 ∧
  Toy.run true (Qc_of_Z 45) ["H"] ["wide.txt"] = Raise IndexError.
Proof.
  split; [intros []; split; vm_compute; reflexivity|].
  split; [vm_compute; reflexivity|].
  split; [by apply Qc_is_canon|].
  split; [vm_compute; reflexivity|].
  split; [vm_compute; reflexivity|].
  split; [by apply Qc_is_canon|].
  split; [intros []; vm_compute; reflexivity|].
  split; [vm_compute; reflexivity|].
  split; [vm_compute; reflexivity|].
  split; [vm_compute; reflexivity|].
  split; [vm_compute; reflexivity|].
  split; [vm_compute; reflexivity|].
  split; [by vm_compute|].
  vm_compute. reflexivity.
Qed.

End small_world.

(** * Further properties

    What the functions of the program do besides: their behaviour on
    inputs they reject, what they guarantee when they return, and how they
    compose. *)

(** ** Arithmetic and arrays *)

Lemma Qcdiv_nonneg (x y : Qc) : 0 ≤ x → 0 < y → 0 ≤ x / y.
Proof.
  intros Hx Hy. unfold Qcdiv. apply Qcmult_nonneg_nonneg; [done|].
  by apply Qclt_le_weak, Qcinv_pos.
Qed.

Lemma Qclt_shift_div_l (a b c : Qc) : 0 < c → a * c < b → a < b / c.
Proof.
  intros Hc H. apply (Qcmult_lt_mono_pos_r _ _ c Hc).
  replace (b / c * c) with b; [done|].
  field. intros ->. by apply Qclt_irrefl in Hc.
Qed.

Lemma Qclt_shift_div_r (a b c : Qc) : 0 < c → a < b * c → a / c < b.
Proof.
  intros Hc H. apply (Qcmult_lt_mono_pos_r _ _ c Hc).
  replace (a / c * c) with a; [done|].
  field. intros ->. by apply Qclt_irrefl in Hc.
Qed.

Lemma weighted_mean_pos (t a b : Qc) :
  0 ≤ t → t ≤ 1 → 0 < a → 0 < b → 0 < (1 - t) * a + t * b.
Proof. intros. qc_nra. Qed.

Lemma weighted_mean_nonneg (t a b : Qc) :
  0 ≤ t → t ≤ 1 → 0 ≤ a → 0 ≤ b → 0 ≤ (1 - t) * a + t * b.
Proof. intros. qc_nra. Qed.

Lemma cabs2_nonneg (h : complex) : 0 ≤ cabs2 h.
Proof. unfold cabs2. generalize h.1, h.2. intros a b. qc_nra. Qed.

Lemma cscale_comm (a b : Qc) (h : complex) :
  cscale a (cscale b h) = cscale b (cscale a h).
Proof. unfold cscale. simpl. f_equal; ring. Qed.

Lemma cadd_cscale (a : Qc) (h k : complex) :
  cadd (cscale a h) (cscale a k) = cscale a (cadd h k).
Proof. unfold cadd, cscale. simpl. f_equal; ring. Qed.

Lemma cabs2_cscale (a : Qc) (h : complex) :
  cabs2 (cscale a h) = a * a * cabs2 h.
Proof. unfold cabs2, cscale. simpl. ring. Qed.

Lemma np_sum_nonneg (l : list Qc) : Forall (λ x, 0 ≤ x) l → 0 ≤ np_sum l.
Proof.
  induction 1 as [|x l Hx _ IH]; unfold np_sum in *; simpl; [done|].
  revert Hx IH. generalize (foldr Qcplus 0 l). intros s Hx Hs. qc_lra.
Qed.

Lemma np_sum_perm (l l' : list Qc) : l ≡ₚ l' → np_sum l = np_sum l'.
Proof.
  unfold np_sum. induction 1; simpl; try congruence. ring.
Qed.

Lemma np_sum_scale (k : Qc) (l : list Qc) :
  np_sum (Qcmult k <$> l) = k * np_sum l.
Proof.
  induction l as [|x l IH]; [unfold np_sum; simpl; ring|].
  rewrite fmap_cons.
  change (k * x + np_sum (Qcmult k <$> l) = k * (x + np_sum l)).
  rewrite IH. ring.
Qed.

Lemma np_sum_zero (l : list Qc) : Forall (λ x, x = 0) l → np_sum l = 0.
Proof.
  induction 1 as [|x l -> _ IH]; unfold np_sum in *; simpl; [done|].
  rewrite IH. ring.
Qed.

Lemma np_cumsum_length a : length (np_cumsum a) = length a.
Proof. apply cumsum_from_length. Qed.

Lemma take_indices_total {A} (a : list A) (idx : list nat) :
  (∀ i, i ∈ idx → (i < length a)%nat) →
  ∃ r, take_indices a idx = Ok r ∧ length r = length idx.
Proof.
  induction idx as [|i idx IH]; intros Hall; simpl; [by exists []|].
  destruct (lookup_lt_is_Some_2 a i) as [x Hx];
    [apply Hall; by apply elem_of_cons; left|].
  destruct IH as (r & Hr & Hlen);
    [intros j Hj; apply Hall; by apply elem_of_cons; right|].
  exists (x :: r). rewrite Hx, Hr. simpl. by rewrite Hlen.
Qed.

Lemma take_mask_fmap {A B} (f : A → B) (mask : list bool) (a : list A) :
  take_mask mask (f <$> a) = fmap (M:=list) f <$> take_mask mask a.
Proof.
  revert a. induction mask as [|b mask IH]; intros a; [done|].
  destruct b, a as [|x a]; simpl; try done; try exact (IH []); try apply IH.
  rewrite IH. by destruct (take_mask mask a).
Qed.

Lemma bool_index_fmap {A B} (f : A → B) strict (mask : list bool) (a : list A) :
  bool_index strict (f <$> a) mask
  = fmap (M:=list) f <$> bool_index strict a mask.
Proof.
  unfold bool_index. rewrite length_fmap.
  destruct (strict && negb (length mask =? length a)%nat); [done|].
  apply take_mask_fmap.
Qed.

(** Every entry of a broadcast result is the operation applied to an entry
    of each operand. *)
Lemma broadcast2_Forall {A B C} (f : A → B → C) (P : C → Prop) a b r :
  broadcast2 f a b = Ok r →
  (∀ x y, x ∈ a → y ∈ b → P (f x y)) → Forall P r.
Proof.
  unfold broadcast2. intros H HP.
  destruct (length a =? length b)%nat.
  { injection H as <-. apply Forall_forall.
    intros z (x & y & -> & ? & ?)%elem_of_zip_with. auto. }
  assert (∀ x, a = [x] → Forall P (f x <$> b)) as Hl.
  { intros x ->. apply Forall_fmap, Forall_forall. intros y Hy.
    apply HP; [by apply list_elem_of_singleton | done]. }
  assert (∀ y, b = [y] → Forall P ((λ x, f x y) <$> a)) as Hr.
  { intros y ->. apply Forall_fmap, Forall_forall. intros x Hx.
    apply HP; [done | by apply list_elem_of_singleton]. }
  destruct a as [|x [|x' a]].
  - destruct b as [|y [|y' b]]; try discriminate H. injection H as <-.
    by apply (Hr y).
  - injection H as <-. by apply (Hl x).
  - destruct b as [|y [|y' b]]; try discriminate H. injection H as <-.
    by apply (Hr y).
Qed.

(** Broadcasting commutes with maps over the operands. *)
Lemma broadcast2_fmap {A B C A' B' C'} (op : A' → B' → C') (op0 : A → B → C)
    (f : A → A') (g : B → B') (k : C → C') (a : list A) (b : list B) :
  (∀ x y, op (f x) (g y) = k (op0 x y)) →
  broadcast2 op (f <$> a) (g <$> b)
  = fmap (M:=list) k <$> broadcast2 op0 a b.
Proof.
  intros Hop.
  assert (∀ x, op (f x) <$> (g <$> b) = k <$> (op0 x <$> b)) as Hl.
  { intros x. rewrite <- !list_fmap_compose. apply list_fmap_ext.
    intros i y _. simpl. apply Hop. }
  assert (∀ y, (λ x, op x (g y)) <$> (f <$> a) = k <$> ((λ x, op0 x y) <$> a))
    as Hr.
  { intros y. rewrite <- !list_fmap_compose. apply list_fmap_ext.
    intros i x _. simpl. apply Hop. }
  unfold broadcast2. rewrite !length_fmap.
  destruct (length a =? length b)%nat.
  - simpl. f_equal. rewrite zip_with_fmap_l, zip_with_fmap_r.
    clear Hl Hr. revert b. induction a as [|x a IH]; intros [|y b]; simpl;
      try done.
    by rewrite Hop, IH.
  - destruct a as [|x [|x' a]].
    + by destruct b as [|y [|y' b]].
    + exact (f_equal Ok (Hl x)).
    + destruct b as [|y [|y' b]]; try done. exact (f_equal Ok (Hr y)).
Qed.

(** An accumulation that succeeds has added one term per pass. *)
Lemma for_each_accumulate_inv (term : nat → result Qc) n k acc s :
  for_each (seq k n) (λ a d, t ← term d; Ok (a + t)) acc = Ok s →
  ∃ ts, length ts = n ∧
    (∀ i t, ts !! i = Some t → term (k + i)%nat = Ok t) ∧
    s = acc + np_sum ts.
Proof.
  revert k acc. induction n as [|n IH]; intros k acc; simpl.
  - intros [= <-]. exists []. repeat split; [done|]. unfold np_sum. simpl. ring.
  - intros H. apply bind_Ok in H as (a & Ha & H).
    apply bind_Ok in Ha as (t & Ht & [= <-]).
    apply IH in H as (ts & Hlen & Hts & ->).
    exists (t :: ts). split; [simpl; by rewrite Hlen|]. split.
    + intros [|i] t'; simpl.
      * intros [= <-]. by rewrite Nat.add_0_r.
      * intros Hi. replace (k + S i)%nat with (S k + i)%nat by lia. auto.
    + unfold np_sum. simpl. ring.
Qed.

(** A [for] loop over [range(n)] whose body succeeds on every state that
    satisfies the invariant runs to the end. *)
Lemma for_each_range_total {S} (I : nat → S → Prop) (n : nat)
    (body : S → nat → result S) (s0 : S) :
  I 0%nat s0 →
  (∀ k s1, (k < n)%nat → I k s1 →
     ∃ s2, body s1 k = Ok s2 ∧ I (Datatypes.S k) s2) →
  ∃ s, for_each (seq 0 n) body s0 = Ok s ∧ I n s.
Proof.
  intros H0 Hstep. induction n as [|n IH].
  - exists s0. by split.
  - destruct IH as (s1 & Hs1 & HI1).
    { intros k s1 Hk. apply Hstep. lia. }
    destruct (Hstep n s1) as (s2 & Hs2 & HI2); [lia | done |].
    exists s2. split; [|done].
    rewrite seq_S, for_each_app, Hs1. simpl. by rewrite Hs2.
Qed.

Lemma last_occurrence {A} `{EqDecision A} (l : list A) (x : A) :
  x ∈ l → ∃ d, l !! d = Some x ∧ ∀ d', (d < d')%nat → l !! d' ≠ Some x.
Proof.
  induction l as [|a l IH]; [by intros ?%elem_of_nil|].
  intros Hx. destruct (decide (x ∈ l)) as [Hin | Hout].
  - destruct (IH Hin) as (d & Hd & Hlast). exists (S d). split; [done|].
    intros [|d'] Hlt; [lia|]. simpl. apply Hlast. lia.
  - apply elem_of_cons in Hx as [-> | Hx]; [|done].
    exists 0%nat. split; [done|]. intros [|d'] Hlt; [lia|]. simpl.
    intros Hd'. apply Hout. apply list_elem_of_lookup. eauto.
Qed.

(** The frequencies a band mask selects lie strictly inside the band. *)
Lemma in_band_elem (freqs : list Qc) lo hi v :
  v ∈ in_band (band_mask freqs lo hi) freqs → lo < v ∧ v < hi.
Proof.
  unfold in_band, band_mask. intros Hv.
  apply list_elem_of_fmap in Hv as ([b w] & -> & Hin).
  apply list_elem_of_filter in Hin as [Hb Hin]. simpl in *. subst b.
  apply list_elem_of_lookup in Hin as [i Hi].
  apply lookup_zip_with_Some in Hi as (b & w' & [= <- <-] & Hb & Hw).
  rewrite list_lookup_fmap, Hw in Hb. simpl in Hb. injection Hb as Hb.
  apply andb_prop in Hb as [H1 H2].
  by apply bool_decide_eq_true in H1, H2.
Qed.

(** ** Interpolation inside the sampled range *)

Lemma sorted_samples_lookup_le (l : list (Qc * Qc)) i j a b :
  Sorted (λ a b : Qc * Qc, a.1 ≤ b.1) l →
  l.*1 !! i = Some a → l.*1 !! j = Some b → (i ≤ j)%nat → a ≤ b.
Proof.
  intros Hs. apply Sorted_StronglySorted in Hs;
    [| intros x y z; apply Qcle_trans].
  revert i j. induction Hs as [|p l Hs IH Hall]; intros i j; [done|].
  destruct i as [|i], j as [|j]; simpl; try lia.
  - intros [= <-] [= <-] _. apply Qcle_refl.
  - intros [= <-] Hb _. rewrite Forall_forall in Hall.
    apply list_elem_of_lookup_2, list_elem_of_fmap in Hb as (q & -> & Hq).
    by apply Hall.
  - intros Ha Hb Hij. apply (IH i j); auto with lia.
Qed.

Lemma interp_call_spec f vs r :
  interp_call f vs = Ok r → Forall2 (λ v y, interp_at f v = Ok y) vs r.
Proof.
  revert r. induction vs as [|v vs IH]; intros r; simpl.
  - intros [= <-]. constructor.
  - intros H. apply bind_Ok in H as (y & Hy & H).
    apply bind_Ok in H as (r' & Hr' & [= <-]). constructor; auto.
Qed.

Lemma interp_call_total f vs :
  (∀ v, v ∈ vs → ∃ y, interp_at f v = Ok y) →
  ∃ r, interp_call f vs = Ok r.
Proof.
  induction vs as [|v vs IH]; intros Hall; simpl; [by eexists|].
  destruct (Hall v) as [y Hy]; [by apply elem_of_cons; left|].
  destruct IH as [r Hr]; [intros w Hw; apply Hall; by apply elem_of_cons; right|].
  exists (y :: r). by rewrite Hy, Hr.
Qed.

(** Between two of its abscissas the call returns a value, with or without
    a fill value. *)
Lemma interp_at_inside x y d f v :
  interp1d x y d = Ok f →
  (∃ a, a ∈ x ∧ a ≤ v) → (∃ b, b ∈ x ∧ v ≤ b) →
  ∃ r, interp_at f v = Ok r.
Proof.
  intros (Hlen & Hlen2 & Hsamples & _ & Hperm)%interp1d_samples
    (a & Ha & Hav) (b & Hb & Hvb).
  unfold interp_at.
  assert (Sorted (λ a b : Qc * Qc, a.1 ≤ b.1) (samples f)) as Hsorted
    by (rewrite Hsamples; apply sort_samples_is_sorted).
  assert (length (samples f).*1 = length x) as Hl by (by rewrite Hperm).
  destruct (head (samples f).*1) as [x_first|] eqn:Hhead; cycle 1.
  { apply head_None in Hhead. rewrite Hhead in Hl. simpl in Hl. lia. }
  destruct (last (samples f).*1) as [x_last|] eqn:Hlast; cycle 1.
  { apply last_None in Hlast. rewrite Hlast in Hl. simpl in Hl. lia. }
  rewrite head_lookup in Hhead. rewrite last_lookup in Hlast.
  rewrite <- Hperm in Ha, Hb.
  apply list_elem_of_lookup in Ha as [i Hi].
  apply list_elem_of_lookup in Hb as [j Hj].
  assert (x_first ≤ v) as Hlo.
  { etrans; [|exact Hav].
    apply (sorted_samples_lookup_le (samples f) 0 i); auto with lia. }
  assert (v ≤ x_last) as Hhi.
  { etrans; [exact Hvb|].
    apply (sorted_samples_lookup_le (samples f) j
             (pred (length (samples f).*1))); auto.
    apply lookup_lt_Some in Hj. lia. }
  rewrite !bool_decide_eq_false_2 by (by apply Qcle_not_lt). simpl.
  rewrite length_fmap in Hl |- *.
  set (hi := (1 `max` (searchsorted (samples f).*1 v
                         `min` (length (samples f) - 1)))%nat).
  destruct (lookup_lt_is_Some_2 (samples f) (hi - 1)) as [[x0 y0] ->];
    [unfold hi; lia|].
  destruct (lookup_lt_is_Some_2 (samples f) hi) as [[x1 y1] ->];
    [unfold hi; lia|].
  by eexists.
Qed.

(** In a strictly increasing array the samples below [v] are the ones
    before the index that [searchsorted] returns. *)
Lemma searchsorted_below (xs : list Qc) v i x :
  StronglySorted Qclt xs → xs !! i = Some x →
  (i < searchsorted xs v)%nat ↔ x < v.
Proof.
  intros Hs. revert i. unfold searchsorted.
  induction Hs as [|a xs Hs IH Hall]; intros i; [done|].
  rewrite filter_cons. destruct (decide (a < v)) as [Hav | Hav].
  - destruct i as [|i]; simpl.
    + intros [= <-]. split; [done | lia].
    + intros Hi. rewrite <- (IH i Hi). lia.
  - assert (filter (λ x, x < v) xs = []) as ->.
    { clear IH Hs. induction xs as [|b xs IH]; [done|].
      apply Forall_cons in Hall as [Hb Hall]. rewrite filter_cons.
      rewrite decide_False; [by apply IH|].
      intros Hbv. apply Hav. by etrans. }
    simpl. intros Hi. split; [lia|]. intros Hxv. exfalso.
    destruct i as [|i]; simpl in Hi.
    + by injection Hi as <-.
    + apply Hav. etrans; [|exact Hxv].
      rewrite Forall_forall in Hall. apply Hall.
      apply list_elem_of_lookup. eauto.
Qed.

(** Inside the sampled range of a table with strictly increasing
    abscissas the value returned is a weighted mean of two sampled values;
    outside, it is the fill value. *)
Lemma interp_at_convex (f : interp) v y :
  StronglySorted Qclt (samples f).*1 →
  interp_at f v = Ok y →
  fill f = Some y ∨
  ∃ p q t, p ∈ samples f ∧ q ∈ samples f ∧ 0 ≤ t ∧ t ≤ 1 ∧
    y = (1 - t) * p.2 + t * q.2.
Proof.
  intros Hs. unfold interp_at.
  set (x := (samples f).*1) in *.
  assert (length x = length (samples f)) as Hlx
    by (unfold x; by rewrite length_fmap).
  assert (∀ i p, samples f !! i = Some p → x !! i = Some p.1) as Hx.
  { intros i p Hi. unfold x. by rewrite list_lookup_fmap, Hi. }
  destruct (head x) as [x_first|] eqn:Hhead; [|done].
  destruct (last x) as [x_last|] eqn:Hlast; [|done].
  case_bool_decide as Hlow; simpl.
  { destruct (fill f); [|done]. intros [= <-]. by left. }
  case_bool_decide as Hhigh; simpl.
  { destruct (fill f); [|done]. intros [= <-]. by left. }
  apply Qcnot_lt_le in Hlow, Hhigh.
  rewrite head_lookup in Hhead. rewrite last_lookup in Hlast.
  set (k := searchsorted x v).
  set (hi := (1 `max` (k `min` (length x - 1)))%nat).
  destruct (samples f !! (hi - 1)%nat) as [[x_lo y_lo]|] eqn:Hlo; [|done].
  destruct (samples f !! hi) as [[x_hi y_hi]|] eqn:Hhi; [|done].
  intros [= <-]. right.
  pose proof (lookup_lt_Some _ _ _ Hhi) as Hhilt.
  pose proof (Hx _ _ Hlo) as Hxlo. pose proof (Hx _ _ Hhi) as Hxhi.
  simpl in Hxlo, Hxhi.
  assert (x_lo < x_hi) as Hlt.
  { apply (strongly_sorted_lookup x (hi - 1) hi); auto. unfold hi. lia. }
  assert (x_lo ≤ v) as Hlov.
  { destruct (decide (k = 0%nat)) as [Hk | Hk].
    - assert (hi - 1 = 0)%nat as Hz by (unfold hi; lia).
      rewrite Hz, Hhead in Hxlo. by injection Hxlo as <-.
    - apply Qclt_le_weak. apply (searchsorted_below x v (hi - 1)); auto.
      fold k. unfold hi. lia. }
  assert (v ≤ x_hi) as Hvhi.
  { destruct (decide (k ≤ length x - 1)%nat) as [Hk | Hk].
    - apply Qcnot_lt_le. rewrite <- (searchsorted_below x v hi) by done.
      fold k. unfold hi. lia.
    - assert (hi = pred (length x)) as Hz by (unfold hi; lia).
      rewrite Hz, Hlast in Hxhi. by injection Hxhi as <-. }
  assert (x_hi - x_lo ≠ 0) as Hne.
  { intros Heq. clear -Hlt Heq. qc_lra. }
  exists (x_lo, y_lo), (x_hi, y_hi), ((v - x_lo) / (x_hi - x_lo)).
  split; [by eapply list_elem_of_lookup_2|].
  split; [by eapply list_elem_of_lookup_2|].
  split; [| split].
  - apply Qcdiv_nonneg; clear -Hlov Hlt; qc_lra.
  - apply (Qcmult_lt_0_le_reg_r _ _ (x_hi - x_lo)).
    { clear -Hlt. qc_lra. }
    replace ((v - x_lo) / (x_hi - x_lo) * (x_hi - x_lo)) with (v - x_lo)
      by (by field).
    clear -Hvhi. qc_lra.
  - simpl. by field.
Qed.

(** The interpolant of the squared strains of a file whose frequencies do
    not repeat and whose strains are not zero returns positive values. *)
Lemma psd_interpolant_positive input_freq strain f v y :
  interp1d input_freq ((λ s, s * s) <$> strain) None = Ok f →
  NoDup input_freq → 0 ∉ strain →
  interp_at f v = Ok y → 0 < y.
Proof.
  intros Hf Hnd Hnz Hy.
  pose proof Hf as (Hlen & _ & Hsamples & Hfill & Hperm)%interp1d_samples.
  apply interp_at_convex in Hy as [Hy | (p & q & t & Hp & Hq & Ht0 & Ht1 & ->)].
  - by rewrite Hfill in Hy.
  - assert (∀ p : Qc * Qc, p ∈ samples f → 0 < p.2) as Hpos.
    { intros r Hr. rewrite Hsamples, sort_samples_perm in Hr.
      destruct r as [a b]. apply elem_of_zip_r in Hr.
      apply list_elem_of_fmap in Hr as (s & -> & Hs). simpl.
      assert (s ≠ 0) as Hs0 by (intros ->; done).
      clear -Hs0. qc_to_q. nra. }
    apply weighted_mean_pos; auto.
  - apply sorted_nodup_strict.
    + rewrite Hsamples. apply sort_samples_is_sorted.
    + by rewrite Hperm.
Qed.

(** ** The detector responses and the SNR integrator *)

Section further_integrator.
Context {ext : Externals}.

Lemma det_index_None name :
  det_index !! name = None ↔ name ∉ ["H"; "L"; "V"; "J"; "I"].
Proof.
  unfold det_index. rewrite !lookup_insert_None.
  rewrite lookup_empty, !not_elem_of_cons.
  pose proof (not_elem_of_nil name). intuition congruence.
Qed.

Lemma getDetResp_Ok name ra dec psi resp :
  getDetResp name ra dec psi = Ok resp → name ∈ ["H"; "L"; "V"; "J"; "I"].
Proof.
  unfold getDetResp. intros H.
  destruct (decide (name ∈ ["H"; "L"; "V"; "J"; "I"])) as [|Hout]; [done|].
  apply det_index_None in Hout. by rewrite Hout in H.
Qed.

(** X1: a name outside "H", "L", "V", "J", "I" makes [compute_horizonSNR]
    raise KeyError.  When the passes for the detectors before the first
    such name succeed, the pass for that name raises KeyError from the
    lookup in [det_index], before the strains, the mask or the PSD samples
    of that detector are touched; nothing is returned. *)
Theorem unknown_detector_raises_KeyError hp hc network ra dec psi psd_interp
    fsel df d name :
  network !! d = Some name →
  name ∉ ["H"; "L"; "V"; "J"; "I"] →
  (∀ d', (d' < d)%nat →
     ∃ t, snrsq_term hp hc network ra dec psi psd_interp fsel df d' = Ok t) →
  compute_horizonSNR hp hc network ra dec psi psd_interp fsel df
  = Raise KeyError.
Proof.
  intros Hname Hout%det_index_None Hbefore.
  pose proof (lookup_lt_Some _ _ _ Hname) as Hd.
  unfold compute_horizonSNR.
  replace (length network) with (d + S (length network - S d))%nat by lia.
  rewrite seq_app, for_each_app.
  destruct (for_each_range_total (λ _ _, True) d
              (λ snrsq detector,
                 t ← snrsq_term hp hc network ra dec psi psd_interp fsel df
                       detector;
                 Ok (snrsq + t)) 0) as (acc & -> & _); [done | |].
  { intros k s1 Hk _. destruct (Hbefore k Hk) as [t ->]. simpl. eauto. }
  assert (snrsq_term hp hc network ra dec psi psd_interp fsel df d
          = Raise KeyError) as Hterm.
  { unfold snrsq_term. rewrite Hname. simpl. unfold getDetResp.
    by rewrite Hout. }
  simpl. by rewrite Hterm.
Qed.

(** What a successful pass of the loop of [compute_horizonSNR] has read and
    computed. *)
Lemma snrsq_term_Ok hp hc network ra dec psi psd_interp fsel df d t :
  snrsq_term hp hc network ra dec psi psd_interp fsel df d = Ok t →
  ∃ name resp h_tilda mask band psd ratio,
    network !! d = Some name ∧
    getDetResp name ra dec psi = Ok resp ∧
    broadcast2 cadd (cscale resp.1 <$> hp) (cscale resp.2 <$> hc) = Ok h_tilda ∧
    fsel !! d = Some mask ∧
    bool_index strict_bool_index h_tilda mask = Ok band ∧
    psd_interp !! d = Some psd ∧
    broadcast2 Qcdiv (cabs2 <$> band) psd = Ok ratio ∧
    t = Qc_of_Z 4 * df * np_sum ratio.
Proof.
  unfold snrsq_term. intros H.
  apply bind_Ok in H as (name & Hname%orraise_Ok & H).
  apply bind_Ok in H as ([fplus fcross] & Hresp & H).
  apply bind_Ok in H as (h_tilda & Hh & H).
  apply bind_Ok in H as (mask & Hmask%orraise_Ok & H).
  apply bind_Ok in H as (band & Hband & H).
  apply bind_Ok in H as (psd & Hpsd%orraise_Ok & H).
  apply bind_Ok in H as (ratio & Hratio & [= <-]).
  by exists name, (fplus, fcross), h_tilda, mask, band, psd, ratio.
Qed.

Lemma compute_horizonSNR_Ok hp hc network ra dec psi psd_interp fsel df snr :
  compute_horizonSNR hp hc network ra dec psi psd_interp fsel df = Ok snr →
  ∃ ts, length ts = length network ∧
    (∀ d t, ts !! d = Some t →
       snrsq_term hp hc network ra dec psi psd_interp fsel df d = Ok t) ∧
    snr = sqrt (np_sum ts).
Proof.
  unfold compute_horizonSNR. intros H.
  apply bind_Ok in H as (snrsq & H & [= <-]).
  apply for_each_accumulate_inv in H as (ts & Hlen & Hts & ->).
  exists ts. split; [done|]. split; [done|]. f_equal. ring.
Qed.

Lemma compute_horizonSNR_reads hp hc network ra dec psi psd_interp fsel df
    snr d :
  compute_horizonSNR hp hc network ra dec psi psd_interp fsel df = Ok snr →
  (d < length network)%nat →
  ∃ name, network !! d = Some name ∧ name ∈ ["H"; "L"; "V"; "J"; "I"] ∧
          (d < length fsel)%nat ∧ (d < length psd_interp)%nat.
Proof.
  intros (ts & Hlen & Hts & _)%compute_horizonSNR_Ok Hd.
  destruct (lookup_lt_is_Some_2 ts d) as [t Ht]; [lia|].
  apply Hts, snrsq_term_Ok in Ht
    as (name & resp & ? & mask & ? & psd & ? & Hn & Hr & _ & Hm & _ & Hp & _).
  exists name. split; [done|]. split; [by eapply getDetResp_Ok|].
  split; by eapply lookup_lt_Some.
Qed.

Lemma compute_horizonSNR_names hp hc network ra dec psi psd_interp fsel df snr :
  compute_horizonSNR hp hc network ra dec psi psd_interp fsel df = Ok snr →
  ∀ name, name ∈ network → name ∈ ["H"; "L"; "V"; "J"; "I"].
Proof.
  intros Hsnr name [d Hd]%list_elem_of_lookup.
  destruct (compute_horizonSNR_reads _ _ _ _ _ _ _ _ _ _ d Hsnr)
    as (name' & Hn & Hin & _); [by eapply lookup_lt_Some|].
  congruence.
Qed.

(** X2: [compute_horizonSNR] returns only for a network whose names are
    all among "H", "L", "V", "J", "I" and for lists [fsel] and [psd_interp]
    that hold at least one entry per detector. *)
Theorem compute_horizonSNR_returns_only_if hp hc network ra dec psi
    psd_interp fsel df snr :
  compute_horizonSNR hp hc network ra dec psi psd_interp fsel df = Ok snr →
  (∀ name, name ∈ network → name ∈ ["H"; "L"; "V"; "J"; "I"]) ∧
  (length network ≤ length fsel)%nat ∧
  (length network ≤ length psd_interp)%nat.
Proof.
  intros Hsnr. split; [by eapply compute_horizonSNR_names|].
  destruct (length network) as [|n] eqn:Hn; [lia|].
  destruct (compute_horizonSNR_reads _ _ _ _ _ _ _ _ _ _ n Hsnr)
    as (_ & _ & _ & ? & ?); lia.
Qed.

Lemma snrsq_term_nonneg hp hc network ra dec psi psd_interp fsel df d t :
  0 ≤ df →
  (∀ psd, psd_interp !! d = Some psd → Forall (λ s, 0 < s) psd) →
  snrsq_term hp hc network ra dec psi psd_interp fsel df d = Ok t → 0 ≤ t.
Proof.
  intros Hdf Hpos
    (? & ? & ? & ? & band & psd & ratio & _ & _ & _ & _ & _ & Hpsd & Hr & ->)%snrsq_term_Ok.
  apply Qcmult_nonneg_nonneg.
  - apply Qcmult_nonneg_nonneg; [by vm_compute | done].
  - apply np_sum_nonneg. eapply broadcast2_Forall; [exact Hr|].
    intros q s [h [-> _]]%list_elem_of_fmap Hs.
    apply Qcdiv_nonneg; [apply cabs2_nonneg|].
    specialize (Hpos _ Hpsd). rewrite Forall_forall in Hpos. auto.
Qed.

(** X3: with a non-negative frequency step and positive PSD samples,
    what [compute_horizonSNR] returns is the square root of a non-negative
    number: every detector adds a non-negative term to [snrsq], whatever
    the shapes of the arrays. *)
Theorem compute_horizonSNR_root_of_nonneg hp hc network ra dec psi
    psd_interp fsel df snr :
  0 ≤ df →
  (∀ d psd, (d < length network)%nat → psd_interp !! d = Some psd →
     Forall (λ s, 0 < s) psd) →
  compute_horizonSNR hp hc network ra dec psi psd_interp fsel df = Ok snr →
  ∃ snrsq, 0 ≤ snrsq ∧ snr = sqrt snrsq.
Proof.
  intros Hdf Hpos (ts & Hlen & Hts & ->)%compute_horizonSNR_Ok.
  exists (np_sum ts). split; [|done].
  apply np_sum_nonneg, Forall_forall. intros t [d Hd]%list_elem_of_lookup.
  eapply snrsq_term_nonneg; [done | | by apply Hts].
  intros psd. apply Hpos. apply lookup_lt_Some in Hd. lia.
Qed.

(** X4: the SNR of a network does not depend on the order in which its
    detectors are listed (over exact numbers): when [compute_horizonSNR]
    returns for the detectors [l], each with its name, band mask and PSD
    samples, it returns the same value for every rearrangement of [l]. *)
Theorem compute_horizonSNR_detector_order hp hc ra dec psi df
    (l l' : list (string * list bool * list Qc)) snr :
  l ≡ₚ l' →
  compute_horizonSNR hp hc l.*1.*1 ra dec psi l.*2 l.*1.*2 df = Ok snr →
  compute_horizonSNR hp hc l'.*1.*1 ra dec psi l'.*2 l'.*1.*2 df = Ok snr.
Proof.
  intros Hperm (ts & Hlen & Hts & ->)%compute_horizonSNR_Ok.
  set (term_of := λ x : string * list bool * list Qc,
         snrsq_term hp hc [x.1.1] ra dec psi [x.2] [x.1.2] df 0).
  assert (∀ (k : list (string * list bool * list Qc)) d x, k !! d = Some x →
            snrsq_term hp hc k.*1.*1 ra dec psi k.*2 k.*1.*2 df d = term_of x)
    as Hterm.
  { intros k d x Hx. unfold term_of, snrsq_term.
    by rewrite !list_lookup_fmap, Hx. }
  set (val := λ x, match term_of x with Ok t => t | _ => 0 end).
  rewrite !length_fmap in Hlen.
  assert (∀ d x, l !! d = Some x →
            ts !! d = Some (val x) ∧ term_of x = Ok (val x)) as Hval.
  { intros d x Hx. destruct (lookup_lt_is_Some_2 ts d) as [t Ht].
    { rewrite Hlen. by eapply lookup_lt_Some. }
    pose proof (Hts _ _ Ht) as H1. rewrite (Hterm l d x Hx) in H1.
    unfold val. by rewrite H1. }
  assert (ts = val <$> l) as ->.
  { apply list_eq. intros d. rewrite list_lookup_fmap.
    destruct (l !! d) as [x|] eqn:Hx; simpl.
    - by apply Hval.
    - apply lookup_ge_None. rewrite Hlen. by apply lookup_ge_None. }
  unfold compute_horizonSNR.
  replace (length l'.*1.*1) with (length (val <$> l'))
    by (by rewrite !length_fmap).
  rewrite for_each_accumulate.
  - simpl. do 2 f_equal.
    rewrite (np_sum_perm (val <$> l) (val <$> l')) by (by rewrite Hperm).
    ring.
  - intros i t Hi. rewrite list_lookup_fmap in Hi.
    destruct (l' !! i) as [x|] eqn:Hx; [|done]. injection Hi as <-.
    change (snrsq_term hp hc l'.*1.*1 ra dec psi l'.*2 l'.*1.*2 df i
            = Ok (val x)).
    rewrite (Hterm l' i x Hx).
    assert (x ∈ l) as [d Hd]%list_elem_of_lookup
      by (rewrite Hperm; apply list_elem_of_lookup; eauto).
    by apply (Hval d).
Qed.

(** Multiplying both polarisations by a real factor multiplies the term of
    a detector by the square of the factor, errors included. *)
Lemma snrsq_term_quadratic a hp hc network ra dec psi psd_interp fsel df d :
  snrsq_term (cscale a <$> hp) (cscale a <$> hc) network ra dec psi
    psd_interp fsel df d
  = Qcmult (a * a)
      <$> snrsq_term hp hc network ra dec psi psd_interp fsel df d.
Proof.
  unfold snrsq_term.
  destruct (network !! d) as [name|]; [simpl | done].
  destruct (getDetResp name ra dec psi) as [[fplus fcross]| |]; [simpl | done..].
  rewrite <- !list_fmap_compose.
  rewrite (list_fmap_ext (cscale fplus ∘ cscale a) (cscale a ∘ cscale fplus) hp)
    by (intros; apply cscale_comm).
  rewrite (list_fmap_ext (cscale fcross ∘ cscale a) (cscale a ∘ cscale fcross) hc)
    by (intros; apply cscale_comm).
  rewrite !list_fmap_compose.
  rewrite (broadcast2_fmap cadd cadd (cscale a) (cscale a) (cscale a))
    by apply cadd_cscale.
  destruct (broadcast2 cadd (cscale fplus <$> hp) (cscale fcross <$> hc))
    as [h_tilda| |]; [simpl | done..].
  destruct (fsel !! d) as [mask|]; [simpl | done].
  rewrite bool_index_fmap.
  destruct (bool_index strict_bool_index h_tilda mask) as [band| |];
    [simpl | done..].
  destruct (psd_interp !! d) as [psd|]; [simpl | done].
  rewrite <- list_fmap_compose.
  rewrite (list_fmap_ext (cabs2 ∘ cscale a) (Qcmult (a * a) ∘ cabs2) band)
    by (intros; apply cabs2_cscale).
  rewrite list_fmap_compose.
  rewrite <- (list_fmap_id psd) at 1.
  rewrite (broadcast2_fmap Qcdiv Qcdiv (Qcmult (a * a)) id (Qcmult (a * a)))
    by (intros; unfold Qcdiv; simpl; ring).
  destruct (broadcast2 Qcdiv (cabs2 <$> band) psd) as [ratio| |];
    [simpl | done..].
  f_equal. rewrite np_sum_scale. ring.
Qed.

(** X5: the square of the SNR is quadratic in the strain.  When
    [compute_horizonSNR] returns [sqrt(snrsq)] for the polarisations
    [hp], [hc], it returns [sqrt(a^2 * snrsq)] for [a * hp], [a * hc], for
    every real factor [a] and the same detectors, masks and PSD samples. *)
Theorem compute_horizonSNR_quadratic hp hc network ra dec psi psd_interp fsel
    df snr :
  compute_horizonSNR hp hc network ra dec psi psd_interp fsel df = Ok snr →
  ∃ snrsq, snr = sqrt snrsq ∧
    ∀ a, compute_horizonSNR (cscale a <$> hp) (cscale a <$> hc) network
           ra dec psi psd_interp fsel df
         = Ok (sqrt (a * a * snrsq)).
Proof.
  intros (ts & Hlen & Hts & ->)%compute_horizonSNR_Ok.
  exists (np_sum ts). split; [done|]. intros a.
  unfold compute_horizonSNR.
  rewrite <- Hlen, <- (length_fmap (Qcmult (a * a)) ts).
  rewrite for_each_accumulate.
  - simpl. do 2 f_equal. rewrite np_sum_scale. ring.
  - intros i t Hi. rewrite list_lookup_fmap in Hi.
    destruct (ts !! i) as [t0|] eqn:Ht0; [|done]. injection Hi as <-.
    change (snrsq_term (cscale a <$> hp) (cscale a <$> hc) network ra dec psi
              psd_interp fsel df i = Ok (a * a * t0)).
    by rewrite snrsq_term_quadratic, (Hts _ _ Ht0).
Qed.

End further_integrator.

(** ** The waveform and the distance guess *)

Section further_waveform.
Context {ext : Externals}.

(** X6: [get_htildas] calls the waveform generator with the masses in
    kilograms, the distance in metres, zero phase and zero [f_max], and
    returns the samples of both polarisations with a frequency array that
    has one entry per sample of the plus polarisation, starts at its [f0]
    and advances by its [deltaF]. *)
Theorem get_htildas_grid m1 m2 dist iota fmin fref df approx hp hc freqs :
  get_htildas m1 m2 dist iota fmin fref df approx = Ok (hp, hc, freqs) →
  ∃ hplus_tilda hcross_tilda,
    SimInspiralChooseFDWaveform
      (WaveformArgs 0 df (m1 * MSUN_SI) (m2 * MSUN_SI) fmin 0 fref
         (dist * (Qc_of_Z 1000000 * PC_SI)) iota approx)
    = Ok (hplus_tilda, hcross_tilda) ∧
    hp = data hplus_tilda ∧ hc = data hcross_tilda ∧
    length freqs = length hp ∧
    (∀ i, (i < length hp)%nat →
       freqs !! i = Some (f0 hplus_tilda + Qc_of_nat i * deltaF hplus_tilda)) ∧
    (∀ i fi fj, freqs !! i = Some fi → freqs !! S i = Some fj →
       fj - fi = deltaF hplus_tilda).
Proof.
  unfold get_htildas. intros H.
  apply bind_Ok in H as ([hplus hcross] & Hw & H).
  apply Ok_inj in H. apply pair_equal_spec in H as [H <-].
  apply pair_equal_spec in H as [<- <-].
  exists hplus, hcross. split; [done|]. split; [done|]. split; [done|].
  split; [by rewrite length_fmap, length_seq|].
  assert (∀ i, (i < length (data hplus))%nat →
    ((λ i, f0 hplus + Qc_of_nat i * deltaF hplus) <$> seq 0 (length (data hplus)))
      !! i = Some (f0 hplus + Qc_of_nat i * deltaF hplus)) as Hi.
  { intros i Hi. by rewrite list_lookup_fmap, lookup_seq_lt. }
  split; [done|].
  intros i fi fj Hfi Hfj.
  pose proof (lookup_lt_Some _ _ _ Hfi) as Hli.
  pose proof (lookup_lt_Some _ _ _ Hfj) as Hlj.
  rewrite length_fmap, length_seq in Hli, Hlj.
  rewrite Hi in Hfi, Hfj by done. injection Hfi as <-. injection Hfj as <-.
  rewrite Qc_of_nat_S. ring.
Qed.

(** X7: for a positive distance, [horizon_dist_eval] returns the distance
    guess [orig_dist * snr / snr_th], which is the old distance when the
    SNR is the threshold, farther when the SNR is above the threshold and
    nearer when it is below, together with the redshift that [leastsq]
    finds for that guess from the seed [z0]. *)
Theorem horizon_dist_eval_direction orig_dist snr z0 :
  0 < orig_dist →
  (horizon_dist_eval orig_dist snr z0).1
  = leastsq (λ z, findzfromDL z (horizon_dist_eval orig_dist snr z0).2) z0 ∧
  (horizon_dist_eval orig_dist snr z0).2 * snr_th = orig_dist * snr ∧
  (snr = snr_th → (horizon_dist_eval orig_dist snr z0).2 = orig_dist) ∧
  (snr_th < snr → orig_dist < (horizon_dist_eval orig_dist snr z0).2) ∧
  (snr < snr_th → (horizon_dist_eval orig_dist snr z0).2 < orig_dist).
Proof.
  intros Hd. unfold horizon_dist_eval, snr_th. simpl.
  split; [done|]. repeat split.
  - qc_lra.
  - intros ->. qc_lra.
  - intros Hs. qc_nra.
  - intros Hs. qc_nra.
Qed.

End further_waveform.

(** ** The noise model and the lists *)

Section further_loader.
Context {ext : Externals}.

Lemma load_noise_lengths network asdfile nm :
  load_noise network asdfile = Ok nm →
  length (minimum_freq nm) = length network ∧
  length (maximum_freq nm) = length network ∧
  ∀ name, is_Some (psdinterp_dict nm !! name) → name ∈ network.
Proof.
  unfold load_noise. intros Hload.
  eapply (for_each_range_inv (λ (k : nat) (nm : noise_model),
    length (minimum_freq nm) = length network ∧
    length (maximum_freq nm) = length network ∧
    ∀ name, is_Some (psdinterp_dict nm !! name) → name ∈ network));
    [| | exact Hload].
  - simpl. rewrite !length_replicate. repeat split.
    intros name [f Hf]. by rewrite lookup_empty in Hf.
  - intros k nm1 nm2 Hk (Hl1 & Hl2 & Hdom) Hbody.
    apply load_detector_spec in Hbody
      as (namek & fr & st & lo & hi & f & Hnamek & _ & ->).
    simpl. rewrite !length_insert. repeat split; try done.
    intros name [g Hg]. apply lookup_insert_Some in Hg as [[<- _] | [_ Hg]].
    + apply list_elem_of_lookup. eauto.
    + apply Hdom. eauto.
Qed.

(** X8: [load_noise] (lines 107-113) returns only when every detector of
    the network has a noise file that loads as two columns of the same
    length with at least two rows; the arrays of band bounds it returns
    have one entry per detector, and the dictionary of interpolants has
    exactly the names of the network as keys. *)
Theorem load_noise_returns_only_if network asdfile nm :
  load_noise network asdfile = Ok nm →
  (length network ≤ length asdfile)%nat ∧
  (∀ d path, (d < length network)%nat → asdfile !! d = Some path →
     ∃ input_freq strain, loadtxt path = Ok (input_freq, strain) ∧
       length input_freq = length strain ∧ (2 ≤ length input_freq)%nat) ∧
  length (minimum_freq nm) = length network ∧
  length (maximum_freq nm) = length network ∧
  (∀ name, is_Some (psdinterp_dict nm !! name) ↔ name ∈ network).
Proof.
  intros Hload.
  pose proof (load_noise_spec _ _ _ Hload) as Hspec.
  destruct (load_noise_lengths _ _ _ Hload) as (Hl1 & Hl2 & Hdom).
  assert (∀ d, (d < length network)%nat →
            ∃ path input_freq strain, asdfile !! d = Some path ∧
              loadtxt path = Ok (input_freq, strain) ∧
              length input_freq = length strain ∧
              (2 ≤ length input_freq)%nat) as Hfiles.
  { intros d Hd. destruct (lookup_lt_is_Some_2 network d) as [name Hname]; [done|].
    destruct (Hspec d name Hname)
      as (fr & st & lo & hi & f & (path & Hpath & Hfile & _ & _ & Hf) & _).
    apply interp1d_samples in Hf as (Hlen & Hlen2 & _).
    rewrite length_fmap in Hlen. by exists path, fr, st. }
  split; [| split; [| split; [done | split; [done|]]]].
  - destruct (length network) as [|n] eqn:Hn; [lia|].
    destruct (Hfiles n) as (path & _ & _ & Hpath%lookup_lt_Some & _); lia.
  - intros d path Hd Hpath.
    destruct (Hfiles d Hd) as (path' & fr & st & Hpath' & ? & ? & ?).
    rewrite Hpath in Hpath'. injection Hpath' as <-. eauto.
  - intros name. split; [apply Hdom|].
    intros (d & Hd & Hlast)%last_occurrence.
    destruct (Hspec d name Hd) as (fr & st & lo & hi & f & _ & _ & _ & Hdict).
    rewrite Hdict by done. eauto.
Qed.

Lemma load_noise_ignores_extra_files network asdfile extra :
  (length network ≤ length asdfile)%nat →
  load_noise network (asdfile ++ extra) = load_noise network asdfile.
Proof.
  intros Hlen. unfold load_noise. apply for_each_ext.
  intros nm d Hd%elem_of_seq. unfold load_detector.
  by rewrite lookup_app_l by lia.
Qed.

(** X9: noise files listed after the one of the last detector are never
    opened: a call with further file names appended to [asdfile] behaves
    as the call without them, in its result and in what it raises. *)
Theorem find_horizon_range_ignores_extra_files
    fuel m1 m2 network asdfile extra pwfile approx :
  (length network ≤ length asdfile)%nat →
  find_horizon_range fuel m1 m2 network (asdfile ++ extra) pwfile approx
  = find_horizon_range fuel m1 m2 network asdfile pwfile approx.
Proof.
  intros Hlen. unfold find_horizon_range, read_setup.
  by rewrite load_noise_ignores_extra_files.
Qed.

(** X10: the band of a detector lies within 10 Hz .. 5000 Hz, and every
    frequency that its mask selects from a grid lies strictly between 10 Hz
    and 5000 Hz and strictly between two frequencies sampled in the
    detector's noise file. *)
Theorem selected_frequencies_in_band network asdfile nm d name :
  load_noise network asdfile = Ok nm →
  network !! d = Some name →
  ∃ path input_freq strain lo hi,
    asdfile !! d = Some path ∧ loadtxt path = Ok (input_freq, strain) ∧
    minimum_freq nm !! d = Some lo ∧ maximum_freq nm !! d = Some hi ∧
    Qc_of_Z 10 ≤ lo ∧ hi ≤ Qc_of_Z 5000 ∧
    ∀ freqs v, v ∈ in_band (band_mask freqs lo hi) freqs →
      Qc_of_Z 10 < v ∧ v < Qc_of_Z 5000 ∧
      ∃ a b, a ∈ input_freq ∧ b ∈ input_freq ∧ a < v ∧ v < b.
Proof.
  intros Hload Hname.
  destruct (load_noise_spec _ _ _ Hload d name Hname)
    as (fr & st & lo & hi & f & (path & Hpath & Hfile & Hlo & Hhi & _)
        & Hmin & Hmax & _).
  exists path, fr, st, (Qcmax (Qc_of_Z 10) lo), (Qcmin (Qc_of_Z 5000) hi).
  destruct (Qcmax_spec (Qc_of_Z 10) lo) as (Hm1 & Hm2 & _).
  destruct (Qcmin_spec (Qc_of_Z 5000) hi) as (Hn1 & Hn2 & _).
  apply np_min_spec in Hlo as [Hlo _]. apply np_max_spec in Hhi as [Hhi _].
  do 6 (split; [done|]).
  intros freqs v [H1 H2]%in_band_elem.
  split; [by eapply Qcle_lt_trans|]. split; [by eapply Qclt_le_trans|].
  exists lo, hi. split; [done|]. split; [done|]. split.
  - by eapply Qcle_lt_trans.
  - by eapply Qclt_le_trans.
Qed.

(** The pass of the loop over the detectors for the last position that
    carries a name, on lists that hold the entries of the positions before
    it. *)
Lemma select_detector_fresh network asdfile nm freqs (s : selection) d name :
  load_noise network asdfile = Ok nm →
  network !! d = Some name →
  (∀ d', (d < d')%nat → network !! d' ≠ Some name) →
  length s.1 = d →
  ∃ input_freq strain lo hi f psd,
    loaded_from asdfile d input_freq strain lo hi f ∧
    interp_call f
      (in_band (band_mask freqs (Qcmax (Qc_of_Z 10) lo)
                  (Qcmin (Qc_of_Z 5000) hi)) freqs) = Ok psd ∧
    select_detector network nm freqs s d
    = Ok (s.1 ++ [band_mask freqs (Qcmax (Qc_of_Z 10) lo)
                    (Qcmin (Qc_of_Z 5000) hi)],
          s.2 ++ [psd]).
Proof.
  intros Hload Hname Hlast Hlen.
  destruct (load_noise_spec _ _ _ Hload d name Hname)
    as (fr & st & lo & hi & f & Hfile & Hmin & Hmax & Hdict).
  specialize (Hdict Hlast).
  pose proof Hfile as (path & _ & _ & Hlo & Hhi & Hf).
  apply np_min_spec in Hlo as [Hlo _]. apply np_max_spec in Hhi as [Hhi _].
  destruct (Qcmax_spec (Qc_of_Z 10) lo) as (_ & Hm & _).
  destruct (Qcmin_spec (Qc_of_Z 5000) hi) as (_ & Hn & _).
  set (mask := band_mask freqs (Qcmax (Qc_of_Z 10) lo)
                 (Qcmin (Qc_of_Z 5000) hi)) in *.
  destruct (interp_call_total f (in_band mask freqs)) as [psd Hpsd].
  { intros v [Hv1 Hv2]%in_band_elem.
    eapply interp_at_inside; [exact Hf | exists lo | exists hi].
    - split; [done|]. apply Qclt_le_weak. by eapply Qcle_lt_trans.
    - split; [done|]. apply Qclt_le_weak. by eapply Qclt_le_trans. }
  exists fr, st, lo, hi, f, psd. split; [done|]. split; [done|].
  unfold select_detector. rewrite Hmin, Hmax, Hname. simpl.
  rewrite Hdict. simpl. fold mask.
  rewrite <- Hlen, list_lookup_middle by done. simpl.
  rewrite bool_index_in_band by (unfold mask, band_mask; by rewrite length_fmap).
  simpl. by rewrite Hpsd.
Qed.

(** The lists built from the empty lists for a network without repeated
    names: what they hold for every position. *)
Lemma select_bands_fresh network asdfile nm freqs :
  load_noise network asdfile = Ok nm → NoDup network →
  ∃ s : selection,
    select_bands network nm freqs ([], []) = Ok s ∧
    length s.1 = length network ∧ length s.2 = length network ∧
    ∀ d, (d < length network)%nat →
      ∃ input_freq strain lo hi f mask psd,
        loaded_from asdfile d input_freq strain lo hi f ∧
        mask = band_mask freqs (Qcmax (Qc_of_Z 10) lo)
                 (Qcmin (Qc_of_Z 5000) hi) ∧
        interp_call f (in_band mask freqs) = Ok psd ∧
        s.1 !! d = Some mask ∧ s.2 !! d = Some psd.
Proof.
  intros Hload Hnd. unfold select_bands.
  pose (I := λ (k : nat) (t : selection),
    length t.1 = k ∧ length t.2 = k ∧
    ∀ d, (d < k)%nat →
      ∃ input_freq strain lo hi f mask psd,
        loaded_from asdfile d input_freq strain lo hi f ∧
        mask = band_mask freqs (Qcmax (Qc_of_Z 10) lo)
                 (Qcmin (Qc_of_Z 5000) hi) ∧
        interp_call f (in_band mask freqs) = Ok psd ∧
        t.1 !! d = Some mask ∧ t.2 !! d = Some psd).
  destruct (for_each_range_total I (length network)
              (select_detector network nm freqs) ([], []))
    as (s & Hs & Hl1 & Hl2 & Hall).
  - repeat split. intros; lia.
  - intros k s1 Hk (Hl1 & Hl2 & Hall).
    destruct (lookup_lt_is_Some_2 network k) as [name Hname]; [done|].
    destruct (select_detector_fresh network asdfile nm freqs s1 k name)
      as (fr & st & lo & hi & f & psd & Hfile & Hpsd & Hsel); try done.
    { intros d' Hd' Hname'.
      pose proof (NoDup_lookup _ _ _ _ Hnd Hname Hname'). lia. }
    eexists. split; [exact Hsel|]. unfold I. simpl.
    rewrite !length_app. simpl. split; [lia|]. split; [lia|].
    intros d Hd. destruct (decide (d = k)) as [-> | Hne].
    + exists fr, st, lo, hi, f. eexists _, psd.
      split; [done|]. split; [done|]. split; [done|].
      split; [rewrite <- Hl1 | rewrite <- Hl2]; by apply list_lookup_middle.
    + destruct (Hall d)
        as (fr' & st' & lo' & hi' & f' & m' & p' & ? & ? & ? & ? & ?); [lia|].
      exists fr', st', lo', hi', f', m', p'.
      rewrite !lookup_app_l by lia. done.
  - exists s. done.
Qed.

(** X11: for a network without repeated names, building the lists [fsel]
    and [psd_interp] from the empty lists (lines 119-122, 132-135) raises
    nothing, whatever the frequency grid: the frequencies a mask selects
    lie inside the range of the detector's noise file, where the
    interpolant is defined.  Every mask has the length of the grid, and
    every PSD array has one sample per selected frequency. *)
Theorem fresh_selection_succeeds network asdfile nm freqs :
  load_noise network asdfile = Ok nm → NoDup network →
  ∃ s : selection,
    select_bands network nm freqs ([], []) = Ok s ∧
    length s.1 = length network ∧ length s.2 = length network ∧
    ∀ d mask psd, s.1 !! d = Some mask → s.2 !! d = Some psd →
      length mask = length freqs ∧
      length psd = length (filter (λ b, b = true) mask).
Proof.
  intros Hload Hnd.
  destruct (select_bands_fresh network asdfile nm freqs Hload Hnd)
    as (s & Hs & Hl1 & Hl2 & Hall).
  exists s. split; [done|]. split; [done|]. split; [done|].
  intros d mask psd Hmask Hpsd.
  destruct (Hall d) as (? & ? & ? & ? & f & m & p & _ & Hm & Hp & Hm' & Hp').
  { apply lookup_lt_Some in Hmask. lia. }
  rewrite Hmask in Hm'. rewrite Hpsd in Hp'.
  injection Hm' as <-. injection Hp' as <-.
  assert (length mask = length freqs) as Hlen
    by (subst mask; unfold band_mask; by rewrite length_fmap).
  split; [done|].
  apply interp_call_spec, Forall2_length in Hp. rewrite <- Hp.
  by apply in_band_length.
Qed.

(** X12: when no noise file repeats a frequency or holds a zero strain,
    and no name is repeated in the network, every PSD sample that the
    lists built from the empty lists hold is positive: the interpolant
    returns a weighted mean of two squared strains. *)
Theorem fresh_psd_samples_positive network asdfile nm freqs (s : selection) :
  load_noise network asdfile = Ok nm → NoDup network →
  (∀ path input_freq strain, path ∈ asdfile →
     loadtxt path = Ok (input_freq, strain) →
     NoDup input_freq ∧ 0 ∉ strain) →
  select_bands network nm freqs ([], []) = Ok s →
  ∀ psd, psd ∈ s.2 → Forall (λ v, 0 < v) psd.
Proof.
  intros Hload Hnd Hfiles Hs psd [d Hd]%list_elem_of_lookup.
  destruct (select_bands_fresh network asdfile nm freqs Hload Hnd)
    as (s' & Hs' & _ & Hl2 & Hall).
  rewrite Hs in Hs'. injection Hs' as <-.
  destruct (Hall d) as (fr & st & lo & hi & f & m & p & Hfile & _ & Hp & _ & Hq).
  { apply lookup_lt_Some in Hd. lia. }
  rewrite Hd in Hq. injection Hq as <-.
  destruct Hfile as (path & Hpath & Hload' & _ & _ & Hf).
  destruct (Hfiles path fr st) as [Hndf Hnz];
    [by eapply list_elem_of_lookup_2 | done |].
  apply interp_call_spec in Hp. apply Forall_forall.
  intros y [i Hi]%list_elem_of_lookup.
  destruct (Forall2_lookup_r _ _ _ _ _ Hp Hi) as (v & _ & Hv).
  by eapply psd_interpolant_positive.
Qed.

End further_loader.

(** ** The solver and the shells *)

Section further_solver.
Context {ext : Externals}.

Lemma read_setup_inv m1 m2 network asdfile pwfile approx c :
  read_setup m1 m2 network asdfile pwfile approx = Ok c →
  ∃ ra dec psi iota nm,
    genfromtxt_coord ("../data/horizon_coord_" +:+ pwfile +:+ ".txt")
      = Ok (ra, dec, psi, iota) ∧
    load_noise network asdfile = Ok nm ∧
    c = Setup m1 m2 network approx ra dec psi iota nm.
Proof.
  unfold read_setup. intros H.
  apply bind_Ok in H as ([[[ra dec] psi] iota] & Hcoord & H).
  apply bind_Ok in H as (nm & Hnm & [= <-]).
  by exists ra, dec, psi, iota, nm.
Qed.

Lemma network_snr_at_inv c s z dist snr s' :
  network_snr_at c s z dist = Ok (snr, s') →
  ∃ hplus_tilda hcross_tilda freqs,
    get_htildas ((1 + z) * m1 c) ((1 + z) * m2 c) dist (iota c)
      fmin fref df (approx c) = Ok (hplus_tilda, hcross_tilda, freqs) ∧
    select_bands (network c) (noise c) freqs s = Ok s' ∧
    compute_horizonSNR hplus_tilda hcross_tilda (network c)
      (ra c) (dec c) (psi c) s'.2 s'.1 df = Ok snr.
Proof.
  unfold network_snr_at. intros H.
  apply bind_Ok in H as ([[hp hc] freqs] & Hw & H).
  apply bind_Ok in H as (s1 & Hs & H).
  apply bind_Ok in H as (snr1 & Hsnr & H).
  apply Ok_inj, pair_equal_spec in H as [<- <-]. by exists hp, hc, freqs.
Qed.

(** The state the loop returns was left by a pass of its body, run from a
    state that the loop reached and that had not converged. *)
Lemma solver_loop_last_step fuel c st st' :
  solver_loop fuel c st = Ok st' → solver_reachable c st →
  st' = st ∨
  ∃ prev, solver_reachable c prev ∧ not_converged prev = true ∧
          solver_step c prev = Ok st'.
Proof.
  revert st. induction fuel as [|fuel IH]; intros st; simpl.
  - destruct (not_converged st); [done|]. intros [= <-] _. by left.
  - destruct (not_converged st) eqn:Hnc; [|intros [= <-] _; by left].
    intros H Hreach. apply bind_Ok in H as (st1 & Hstep & Hloop).
    destruct (IH st1 Hloop) as [-> | Hprev]; [by eapply reach_step | |].
    + right. by exists st.
    + by right.
Qed.

(** X13: the body of the solver loop runs at least once, and what
    [find_horizon_range] returns comes from its last pass.  That pass
    started from a state [prev] that the loop had reached and that had not
    converged; it made the distance guess
    [input_dist * input_snr / snr_th], took as redshift what [leastsq]
    returned for [findzfromDL] and that guess, seeded at the redshift of
    [prev], and computed at that redshift and that guess a network SNR with
    [|SNR - snr_th| <= snr_th * 0.001].  The horizon redshift returned is
    that redshift, and the horizon distance returned is its luminosity
    distance. *)
Theorem horizon_redshift_is_solver_output
    fuel m1 m2 network asdfile pwfile approx r :
  find_horizon_range fuel m1 m2 network asdfile pwfile approx = Ok r →
  ∃ c prev st,
    read_setup m1 m2 network asdfile pwfile approx = Ok c ∧
    solver_reachable c prev ∧ not_converged prev = true ∧
    solver_step c prev = Ok st ∧ not_converged st = false ∧
    input_dist st = input_dist prev * input_snr prev / snr_th ∧
    horizon_redshift r
    = leastsq (λ z, findzfromDL z (input_dist st)) (input_redshift prev) ∧
    snr_at c (horizon_redshift r) (input_dist st)
    = Ok (guess_snr st, lists st) ∧
    Qcabs (guess_snr st - snr_th) ≤ snr_th * qc 1 1000 ∧
    horizon_distance r = luminosity_distance (horizon_redshift r) cosmo.
Proof.
  intros (c & st0 & st & Hc & Hinit & Hloop & Hr)%find_horizon_range_inv.
  pose proof (solver_loop_spec _ _ _ _ Hloop) as (Hconv & _ & _).
  destruct (solver_exit _ _ _ _ Hinit Hloop) as ([Hg Hsnr] & Htol).
  destruct (solver_loop_last_step _ _ _ _ Hloop (reach_init c st0 Hinit))
    as [-> | (prev & Hreach & Hnc & Hstep)].
  { apply not_converged_initially in Hinit. congruence. }
  apply range_from_inv in Hr
    as (zh & ? & ? & ? & ? & ? & ? & ? & Hzh & _ & _ & _ & _ & _ & ->).
  rewrite Hg in Hzh. injection Hzh as <-.
  exists c, prev, st. simpl. do 5 (split; [done|]).
  pose proof (solver_step_spec _ _ _ Hstep) as (Hd & Hz & _ & _).
  split; [done|]. split; [done|]. split; [done|]. by split.
Qed.

(** X14: when the waveform of every shell comes on the frequency grid of
    the waveform the solver ended on, the lists that the loop over the
    shells reads are the ones a fresh evaluation would build, so that the
    SNR of every shell is the SNR of its waveform over the bands of its own
    grid, and the shell's volume element is weighted with that SNR. *)
Theorem shell_snr_fresh_on_same_grid c P st zh z unit_volume hp hc freqs :
  stepped c st →
  get_htildas ((1 + input_redshift st) * m1 c) ((1 + input_redshift st) * m2 c)
    (input_dist st) (iota c) fmin fref df (approx c) = Ok (hp, hc, freqs) →
  shell_volumes c P zh (lists st) = Ok (z, unit_volume) →
  Forall (λ zi, ∃ hp' hc',
            get_htildas ((1 + zi) * m1 c) ((1 + zi) * m2 c)
              (luminosity_distance zi cosmo) (iota c) fmin fref df (approx c)
            = Ok (hp', hc', freqs)) z →
  ∀ i zi, z !! i = Some zi →
    ∃ snr pw,
      snr_at c zi (luminosity_distance zi cosmo) = Ok (snr, lists st) ∧
      antenna_weight P snr = Ok pw ∧
      unit_volume !! i
        = Some (volume_element zi (Qcabs ((0 - zh) / Qc_of_nat n_zstep)) pw).
Proof.
  intros Hst Hgrid Hsh Hsame i zi Hzi.
  destruct (stepped_lists_length c st Hst) as [Hl1 Hl2].
  destruct Hst as [_ Hsnr].
  apply network_snr_at_inv in Hsnr as (hp0 & hc0 & fr0 & Hw0 & Hsel & _).
  rewrite Hgrid in Hw0. apply Ok_inj in Hw0.
  apply pair_equal_spec in Hw0 as [_ <-].
  destruct (shell_volumes_old_lists c P zh (lists st) z unit_volume)
    with (i := i) (zi := zi)
    as (hpi & hci & fri & snr & pw & Hwi & Hcomp & Hpw & Hv);
    [lia | lia | done | done |].
  rewrite Forall_forall in Hsame.
  destruct (Hsame zi) as (hp' & hc' & Hw'); [by eapply list_elem_of_lookup_2|].
  rewrite Hwi in Hw'. apply Ok_inj in Hw'.
  apply pair_equal_spec in Hw' as [_ ->].
  exists snr, pw. split; [| by split].
  unfold snr_at, network_snr_at. rewrite Hwi. simpl. rewrite Hsel. simpl.
  by rewrite Hcomp.
Qed.

End further_solver.

(** ** The antenna weight, the volume and the percentiles *)

(** When the arrays have the same length, the percentile lookup either
    returns or raises ValueError, the latter when no running total reaches
    the threshold. *)
Lemma enclosed_redshift_cases frac z unit_volume vol_sum :
  length z = length unit_volume →
  ((∃ c, c ∈ np_cumsum unit_volume ∧ frac * vol_sum ≤ c) ∧
   ∃ zf, enclosed_redshift frac z unit_volume vol_sum = Ok zf) ∨
  ((∀ c, c ∈ np_cumsum unit_volume → c < frac * vol_sum) ∧
   enclosed_redshift frac z unit_volume vol_sum = Raise ValueError).
Proof.
  intros Hlen. unfold enclosed_redshift.
  set (idx := np_where ((λ v, bool_decide (frac * vol_sum ≤ v))
                          <$> np_cumsum unit_volume)).
  assert (∀ i, i ∈ idx ↔ ∃ c, np_cumsum unit_volume !! i = Some c ∧
                              frac * vol_sum ≤ c) as Hidx.
  { intros i. unfold idx. rewrite np_where_spec, list_lookup_fmap.
    destruct (np_cumsum unit_volume !! i) as [c|]; simpl.
    - split.
      + intros [= Hc]. apply bool_decide_eq_true in Hc. eauto.
      + intros (c' & [= <-] & Hc). f_equal. by apply bool_decide_eq_true.
    - split; [done | by intros (? & ? & ?)]. }
  destruct (take_indices_total z idx) as (zs & Hzs & Hl).
  { intros i (c & Hc%lookup_lt_Some & _)%Hidx.
    rewrite np_cumsum_length in Hc. lia. }
  rewrite Hzs. simpl.
  destruct idx as [|i idx'] eqn:Hi.
  - right. split.
    + intros c [i Hc]%list_elem_of_lookup. apply Qcnot_le_lt. intros Hle.
      assert (i ∈ []) as Hin by (apply Hidx; eauto). by inversion Hin.
    + destruct zs; [done | simpl in Hl; lia].
  - left. split.
    + destruct (proj1 (Hidx i)) as (c & Hc & Hle);
        [by apply elem_of_cons; left|].
      exists c. split; [by eapply list_elem_of_lookup_2 | done].
    + destruct zs as [|x zs]; [simpl in Hl; lia|]. simpl. eauto.
Qed.

Section further_volume.
Context {ext : Externals}.

(** X15: shells too weak or too loud for the table get no volume.  With
    the table's abscissas between [wmin] and [wmax], the weight [P(w)] of a
    shell is zero when its SNR is below [snr_th / wmax] (zero included,
    where [w] is infinite) and when its SNR is above [snr_th / wmin]. *)
Theorem antenna_weight_zero_outside_table w_sample P_sample P snr wmin wmax :
  interp1d w_sample P_sample (Some 0) = Ok P →
  (∀ x, x ∈ w_sample → wmin ≤ x ∧ x ≤ wmax) →
  0 ≤ snr →
  snr * wmax < snr_th ∨ snr_th < snr * wmin →
  antenna_weight P snr = Ok 0.
Proof.
  intros HP Hw Hsnr Hout. unfold antenna_weight.
  case_bool_decide as Hz.
  { apply interp1d_samples in HP as (_ & _ & _ & -> & _). done. }
  assert (0 < snr) as Hpos.
  { apply Qcle_lt_or_eq in Hsnr as [|]; [done | by subst]. }
  eapply interp_at_outside; [exact HP|].
  destruct Hout as [Hweak | Hloud].
  - right. intros x [_ Hx]%Hw. eapply Qcle_lt_trans; [exact Hx|].
    apply Qclt_shift_div_l; [done|]. by rewrite Qcmult_comm.
  - left. intros x [Hx _]%Hw. eapply Qclt_le_trans; [|exact Hx].
    apply Qclt_shift_div_r; [done|]. by rewrite Qcmult_comm.
Qed.

(** The weight read off a table of non-negative values is not negative. *)
Lemma antenna_weight_nonneg w_sample P_sample P snr pw :
  interp1d w_sample P_sample (Some 0) = Ok P →
  NoDup w_sample → Forall (λ p, 0 ≤ p) P_sample →
  antenna_weight P snr = Ok pw → 0 ≤ pw.
Proof.
  intros HP Hnd Hnn Hpw.
  pose proof HP as (Hlen & _ & Hsamples & Hfill & Hperm)%interp1d_samples.
  assert (fill P = Some pw → 0 ≤ pw) as Hf.
  { rewrite Hfill. by intros [= <-]. }
  unfold antenna_weight in Hpw. case_bool_decide.
  { destruct (fill P); [|done]. injection Hpw as ->. by apply Hf. }
  apply interp_at_convex in Hpw
    as [Hfl | (p & q & t & Hp & Hq & Ht0 & Ht1 & ->)]; [by apply Hf | |].
  - assert (∀ p : Qc * Qc, p ∈ samples P → 0 ≤ p.2) as Hpos.
    { intros r Hr. rewrite Hsamples, sort_samples_perm in Hr.
      destruct r as [a b]. apply elem_of_zip_r in Hr.
      rewrite Forall_forall in Hnn. by apply Hnn. }
    apply weighted_mean_nonneg; auto.
  - apply sorted_nodup_strict.
    + rewrite Hsamples. apply sort_samples_is_sorted.
    + by rewrite Hperm.
Qed.

(** X16: the detectable volume returned is not negative when the horizon
    redshift is not negative, the comoving volume does not decrease with
    redshift, and the antenna table has no repeated abscissa and no
    negative value: every shell then has a non-negative volume element. *)
Theorem detectable_volume_nonneg fuel m1 m2 network asdfile pwfile approx r :
  find_horizon_range fuel m1 m2 network asdfile pwfile approx = Ok r →
  (∀ a b, a ≤ b → comoving_volume a cosmo ≤ comoving_volume b cosmo) →
  (∀ w_sample P_sample,
     genfromtxt ("../data/pw_" +:+ pwfile +:+ ".txt") = Ok (w_sample, P_sample) →
     NoDup w_sample ∧ Forall (λ p, 0 ≤ p) P_sample) →
  0 ≤ horizon_redshift r →
  0 ≤ detectable_volume r.
Proof.
  intros (c & st & w & Ps & P & z & uv & z50 & z90 &
          _ & Hfile & HP & Hsh & _ & _ & _ & _ & _ & ->)%find_horizon_range_volume
    Hmono Htable Hzh.
  destruct (Htable _ _ Hfile) as [Hnd Hnn].
  apply shell_volumes_spec in Hsh as (-> & Hlen & Hall).
  apply np_sum_nonneg, Forall_forall. intros v [i Hi]%list_elem_of_lookup.
  destruct (lookup_lt_is_Some_2 (linspace_open (horizon_redshift r) 0 n_zstep).1 i)
    as [zi Hzi].
  { rewrite linspace_open_length, <- Hlen. by eapply lookup_lt_Some. }
  destruct (Hall i zi Hzi) as (pw & (s & s' & snr & _ & Hpw) & Hv).
  rewrite Hi in Hv. injection Hv as ->.
  assert (0 ≤ pw) as Hpw0 by (by eapply antenna_weight_nonneg).
  assert (0 ≤ zi) as Hzi0.
  { pose proof (lookup_lt_Some _ _ _ Hzi) as Hlt.
    rewrite linspace_open_length in Hlt.
    rewrite linspace_open_lookup in Hzi by done. injection Hzi as <-.
    rewrite shell_redshift_eq.
    apply (Qc_of_nat_lt i 100) in Hlt.
    change (Qc_of_nat 100) with (Qc_of_Z 100) in Hlt.
    revert Hlt. generalize (Qc_of_nat i). intros q Hq.
    clear -Hzh Hq. qc_nra. }
  unfold volume_element.
  pose proof (Qcabs_nonneg ((0 - horizon_redshift r) / Qc_of_nat n_zstep)) as Hdz.
  revert Hdz. generalize (Qcabs ((0 - horizon_redshift r) / Qc_of_nat n_zstep)).
  intros dz Hdz.
  apply Qcmult_nonneg_nonneg; [|done].
  apply Qcdiv_nonneg; [| clear -Hzi0; qc_lra].
  assert (comoving_volume (zi - dz / Qc_of_Z 2) cosmo
          ≤ comoving_volume (zi + dz / Qc_of_Z 2) cosmo) as Hv.
  { apply Hmono. clear -Hdz. qc_lra. }
  revert Hv. generalize (comoving_volume (zi + dz / Qc_of_Z 2) cosmo).
  generalize (comoving_volume (zi - dz / Qc_of_Z 2) cosmo).
  intros a b Hab. qc_lra.
Qed.

(** X17: once the loop over the shells has run, a percentile lookup with
    a fraction of at most 1 returns whenever the total volume is not
    negative: the last running total is the total itself. *)
Theorem percentile_lookup_succeeds c P zh s z unit_volume frac :
  shell_volumes c P zh s = Ok (z, unit_volume) →
  0 ≤ np_sum unit_volume → frac ≤ 1 →
  ∃ zf, enclosed_redshift frac z unit_volume (np_sum unit_volume) = Ok zf.
Proof.
  intros (-> & Hlen & _)%shell_volumes_spec Hvol Hfrac.
  destruct (enclosed_redshift_cases frac (linspace_open zh 0 n_zstep).1
              unit_volume (np_sum unit_volume))
    as [[_ Hok] | [Hnone _]]; [by rewrite linspace_open_length | done |].
  exfalso. specialize (Hnone (np_sum unit_volume)).
  assert (np_sum unit_volume < frac * np_sum unit_volume) as Hlt.
  { apply Hnone. apply list_elem_of_lookup. exists 99%nat.
    apply np_cumsum_last. by rewrite Hlen. }
  revert Hvol Hlt. generalize (np_sum unit_volume). intros v Hv Hlt.
  clear -Hfrac Hv Hlt. qc_nra.
Qed.

(** X18: on arrays of the same length the percentile lookup (lines
    162-163) raises ValueError exactly when no running total of the volume
    elements reaches the requested fraction of the total, as for a
    negative total; it raises nothing else. *)
Theorem percentile_lookup_raises frac z unit_volume vol_sum :
  length z = length unit_volume →
  (enclosed_redshift frac z unit_volume vol_sum = Raise ValueError
   ↔ ∀ c, c ∈ np_cumsum unit_volume → c < frac * vol_sum) ∧
  ((∃ zf, enclosed_redshift frac z unit_volume vol_sum = Ok zf) ∨
   enclosed_redshift frac z unit_volume vol_sum = Raise ValueError).
Proof.
  intros Hlen.
  destruct (enclosed_redshift_cases frac z unit_volume vol_sum Hlen)
    as [[(c & Hc & Hle) [zf Hok]] | [Hnone Hraise]].
  - rewrite Hok. split; [| by eauto]. split; [done|]. intros Hall. exfalso.
    apply (Qclt_not_le _ _ (Hall c Hc)). done.
  - rewrite Hraise. split; [done | by right].
Qed.

(** X19: when every shell has a zero volume element (a source that no
    shell detects), the percentile lookup raises nothing: for every
    fraction it returns the horizon redshift itself, so that both enclosed
    distances come out as the horizon distance. *)
Theorem zero_volume_returns_horizon frac zh unit_volume :
  0 ≤ zh → length unit_volume = n_zstep →
  Forall (λ v, v = 0) unit_volume →
  enclosed_redshift frac (linspace_open zh 0 n_zstep).1 unit_volume
    (np_sum unit_volume) = Ok zh.
Proof.
  intros Hzh Hlen Hzero.
  assert (∀ k, np_sum (take k unit_volume) = 0) as Htake
    by (intros k; by apply np_sum_zero, Forall_take).
  assert (np_sum unit_volume = 0) as Hsum by (by apply np_sum_zero).
  assert (np_cumsum unit_volume !! 0%nat = Some 0) as H0.
  { rewrite np_cumsum_lookup by (rewrite Hlen; unfold n_zstep; lia).
    by rewrite Htake. }
  assert ((linspace_open zh 0 n_zstep).1 !! 0%nat = Some zh) as Hz0.
  { rewrite linspace_open_lookup by (unfold n_zstep; lia). f_equal.
    replace (Qc_of_nat 0) with 0 by (by apply Qc_is_canon). ring. }
  destruct (enclosed_redshift_cases frac (linspace_open zh 0 n_zstep).1
              unit_volume (np_sum unit_volume))
    as [[_ [zf Hok]] | [Hnone _]]; [by rewrite linspace_open_length | |].
  - rewrite Hok. f_equal.
    apply enclosed_redshift_spec in Hok as [(i & ci & Hi & _) Hmax].
    apply Qcle_antisym.
    + by eapply shell_below_horizon.
    + apply (Hmax 0%nat zh 0); [done | done |]. rewrite Hsum.
      clear. generalize frac. intros q. qc_lra.
  - exfalso. specialize (Hnone 0 (list_elem_of_lookup_2 _ _ _ H0)).
    rewrite Hsum in Hnone. revert Hnone. clear. generalize frac. intros q H.
    qc_lra.
Qed.

(** X20: [find_horizon_range] returns only for a network whose names are
    all among "H", "L", "V", "J", "I", with a noise file for every
    detector, a coordinate file [../data/horizon_coord_<pwfile>.txt] that
    reads as four numbers and an antenna table [../data/pw_<pwfile>.txt]
    that reads as two columns of the same length with at least two rows. *)
Theorem find_horizon_range_returns_only_if
    fuel m1 m2 network asdfile pwfile approx r :
  find_horizon_range fuel m1 m2 network asdfile pwfile approx = Ok r →
  (∀ name, name ∈ network → name ∈ ["H"; "L"; "V"; "J"; "I"]) ∧
  (length network ≤ length asdfile)%nat ∧
  (∃ coord, genfromtxt_coord ("../data/horizon_coord_" +:+ pwfile +:+ ".txt")
            = Ok coord) ∧
  (∃ w_sample P_sample,
     genfromtxt ("../data/pw_" +:+ pwfile +:+ ".txt") = Ok (w_sample, P_sample) ∧
     length w_sample = length P_sample ∧ (2 ≤ length w_sample)%nat).
Proof.
  intros (c & st0 & st & Hc & Hinit & Hloop & Hr)%find_horizon_range_inv.
  apply read_setup_inv in Hc as (ra & dec & psi & iota & nm & Hcoord & Hnm & ->).
  split; [| split; [| split; [by eauto|]]].
  - unfold solver_init in Hinit.
    apply bind_Ok in Hinit as ([snr s] & Hsnr & _).
    apply network_snr_at_inv in Hsnr as (? & ? & ? & _ & _ & Hcomp).
    by eapply compute_horizonSNR_names.
  - destruct (length network) as [|n] eqn:Hn; [lia|].
    destruct (lookup_lt_is_Some_2 network n) as [name Hname]; [lia|].
    destruct (load_noise_spec _ _ _ Hnm n name Hname)
      as (? & ? & ? & ? & ? & (path & Hpath%lookup_lt_Some & _) & _).
    lia.
  - apply range_from_inv in Hr
      as (zh & w & Ps & P & ? & ? & ? & ? & _ & Hfile & HP & _).
    apply interp1d_samples in HP as (? & ? & _). by exists w, Ps.
Qed.

End further_volume.

(** ** The further properties in the small world *)

Section further_small_world.
#[local] Existing Instance Toy.strict_world.

Lemma unknown_detector_raises_KeyError_witness :
  compute_horizonSNR [(1, 0); (Qc_of_Z 2, 0)] [(0, -1); (0, - Qc_of_Z 2)]
    ["H"; "X"] 0 0 0 [[1]; [Qc_of_Z 2; Qc_of_Z 4]]
    [[true; false]; [true; true]] df
  = Raise KeyError.
Proof.
  apply (unknown_detector_raises_KeyError
           [(1, 0); (Qc_of_Z 2, 0)] [(0, -1); (0, - Qc_of_Z 2)]
           ["H"; "X"] 0 0 0 [[1]; [Qc_of_Z 2; Qc_of_Z 4]]
           [[true; false]; [true; true]] df 1%nat "X").
  - reflexivity.
  - rewrite !not_elem_of_cons. repeat split; try done. apply not_elem_of_nil.
  - intros d' Hd'. assert (d' = 0%nat) as -> by lia.
    eexists. vm_compute. reflexivity.
Defined.

Lemma compute_horizonSNR_returns_only_if_witness :
  (∀ name, name ∈ ["H"; "L"] → name ∈ ["H"; "L"; "V"; "J"; "I"]) ∧
  (length ["H"; "L"] ≤ length [[true; false]; [true; true]])%nat ∧
  (length ["H"; "L"] ≤ length [[1%Qc]; [Qc_of_Z 2; Qc_of_Z 4]])%nat.
Proof.
  apply (compute_horizonSNR_returns_only_if
           [(1, 0); (Qc_of_Z 2, 0)] [(0, -1); (0, - Qc_of_Z 2)]
           ["H"; "L"] 0 0 0 [[1]; [Qc_of_Z 2; Qc_of_Z 4]]
           [[true; false]; [true; true]] df Toy.snr_small).
  vm_compute. reflexivity.
Defined.

Lemma compute_horizonSNR_root_of_nonneg_witness :
  ∃ snrsq, 0 ≤ snrsq ∧ Toy.snr_small = sqrt snrsq.
Proof.
  apply (compute_horizonSNR_root_of_nonneg
           [(1, 0); (Qc_of_Z 2, 0)] [(0, -1); (0, - Qc_of_Z 2)]
           ["H"; "L"] 0 0 0 [[1]; [Qc_of_Z 2; Qc_of_Z 4]]
           [[true; false]; [true; true]] df Toy.snr_small).
  - by vm_compute.
  - intros d psd _ Hpsd. destruct d as [|[|d]]; simpl in Hpsd; [| |done];
      injection Hpsd as <-; repeat (constructor; [by vm_compute|]);
      constructor.
  - vm_compute. reflexivity.
Defined.

Lemma compute_horizonSNR_detector_order_witness :
  compute_horizonSNR [(1, 0); (Qc_of_Z 2, 0)] [(0, -1); (0, - Qc_of_Z 2)]
    ["L"; "H"] 0 0 0 [[Qc_of_Z 2; Qc_of_Z 4]; [1]]
    [[true; true]; [true; false]] df
  = Ok Toy.snr_small.
Proof.
  apply (compute_horizonSNR_detector_order
           [(1, 0); (Qc_of_Z 2, 0)] [(0, -1); (0, - Qc_of_Z 2)] 0 0 0 df
           [("H", [true; false], [1]);
            ("L", [true; true], [Qc_of_Z 2; Qc_of_Z 4])]
           [("L", [true; true], [Qc_of_Z 2; Qc_of_Z 4]);
            ("H", [true; false], [1])]).
  - apply Permutation_swap.
  - vm_compute. reflexivity.
Defined.

Lemma compute_horizonSNR_quadratic_witness :
  ∃ snrsq, Toy.snr_small = sqrt snrsq ∧
    ∀ a, compute_horizonSNR
           (cscale a <$> [(1, 0); (Qc_of_Z 2, 0)])
           (cscale a <$> [(0, -1); (0, - Qc_of_Z 2)])
           ["H"; "L"] 0 0 0 [[1]; [Qc_of_Z 2; Qc_of_Z 4]]
           [[true; false]; [true; true]] df
         = Ok (sqrt (a * a * snrsq)).
Proof.
  apply (compute_horizonSNR_quadratic
           [(1, 0); (Qc_of_Z 2, 0)] [(0, -1); (0, - Qc_of_Z 2)]
           ["H"; "L"] 0 0 0 [[1]; [Qc_of_Z 2; Qc_of_Z 4]]
           [[true; false]; [true; true]] df Toy.snr_small).
  vm_compute. reflexivity.
Defined.

Lemma get_htildas_grid_witness :
  ∃ hplus_tilda hcross_tilda,
    SimInspiralChooseFDWaveform
      (WaveformArgs 0 df (Qc_of_Z 30 * MSUN_SI) (Qc_of_Z 30 * MSUN_SI) fmin 0
         fref (Qc_of_Z 100 * (Qc_of_Z 1000000 * PC_SI)) 0 0)
    = Ok (hplus_tilda, hcross_tilda) ∧
    Toy.wave_small.1.1 = data hplus_tilda ∧
    Toy.wave_small.1.2 = data hcross_tilda ∧
    length Toy.wave_small.2 = length Toy.wave_small.1.1 ∧
    (∀ i, (i < length Toy.wave_small.1.1)%nat →
       Toy.wave_small.2 !! i
       = Some (f0 hplus_tilda + Qc_of_nat i * deltaF hplus_tilda)) ∧
    (∀ i fi fj, Toy.wave_small.2 !! i = Some fi →
       Toy.wave_small.2 !! S i = Some fj → fj - fi = deltaF hplus_tilda).
Proof.
  apply (get_htildas_grid (Qc_of_Z 30) (Qc_of_Z 30) (Qc_of_Z 100) 0 fmin fref
           df 0%nat). vm_compute. reflexivity.
Defined.

Lemma horizon_dist_eval_direction_witness :
  (horizon_dist_eval (Qc_of_Z 100) (Qc_of_Z 24) (qc 1 10)).1
  = leastsq (λ z, findzfromDL z
                    (horizon_dist_eval (Qc_of_Z 100) (Qc_of_Z 24) (qc 1 10)).2)
      (qc 1 10) ∧
  (horizon_dist_eval (Qc_of_Z 100) (Qc_of_Z 24) (qc 1 10)).2 * snr_th
  = Qc_of_Z 100 * Qc_of_Z 24 ∧
  (Qc_of_Z 24 = snr_th →
   (horizon_dist_eval (Qc_of_Z 100) (Qc_of_Z 24) (qc 1 10)).2 = Qc_of_Z 100) ∧
  (snr_th < Qc_of_Z 24 →
   Qc_of_Z 100 < (horizon_dist_eval (Qc_of_Z 100) (Qc_of_Z 24) (qc 1 10)).2) ∧
  (Qc_of_Z 24 < snr_th →
   (horizon_dist_eval (Qc_of_Z 100) (Qc_of_Z 24) (qc 1 10)).2 < Qc_of_Z 100).
Proof.
  apply (horizon_dist_eval_direction (Qc_of_Z 100) (Qc_of_Z 24) (qc 1 10)).
  by vm_compute.
Defined.

Lemma load_noise_HL_ok :
  load_noise ["H"; "L"] ["H.txt"; "L.txt"] = Ok (noise Toy.setup_HL).
Proof. vm_compute. reflexivity. Qed.

Lemma load_noise_returns_only_if_witness :
  (length ["H"; "L"] ≤ length ["H.txt"; "L.txt"])%nat ∧
  (∀ d path, (d < length ["H"; "L"])%nat →
     ["H.txt"; "L.txt"] !! d = Some path →
     ∃ input_freq strain, loadtxt path = Ok (input_freq, strain) ∧
       length input_freq = length strain ∧ (2 ≤ length input_freq)%nat) ∧
  length (minimum_freq (noise Toy.setup_HL)) = length ["H"; "L"] ∧
  length (maximum_freq (noise Toy.setup_HL)) = length ["H"; "L"] ∧
  (∀ name, is_Some (psdinterp_dict (noise Toy.setup_HL) !! name)
           ↔ name ∈ ["H"; "L"]).
Proof.
  apply (load_noise_returns_only_if ["H"; "L"] ["H.txt"; "L.txt"]).
  exact load_noise_HL_ok.
Defined.

Lemma find_horizon_range_ignores_extra_files_witness :
  find_horizon_range 20 (Qc_of_Z 33) (Qc_of_Z 33) ["H"; "L"]
    (["H.txt"; "L.txt"] ++ ["low.txt"]) "toy" 0
  = find_horizon_range 20 (Qc_of_Z 33) (Qc_of_Z 33) ["H"; "L"]
      ["H.txt"; "L.txt"] "toy" 0.
Proof.
  apply (find_horizon_range_ignores_extra_files 20%nat (Qc_of_Z 33)
           (Qc_of_Z 33) ["H"; "L"] ["H.txt"; "L.txt"] ["low.txt"]).
  simpl. lia.
Defined.

Lemma selected_frequencies_in_band_witness :
  ∃ path input_freq strain lo hi,
    ["H.txt"; "L.txt"] !! 0%nat = Some path ∧
    loadtxt path = Ok (input_freq, strain) ∧
    minimum_freq (noise Toy.setup_HL) !! 0%nat = Some lo ∧
    maximum_freq (noise Toy.setup_HL) !! 0%nat = Some hi ∧
    Qc_of_Z 10 ≤ lo ∧ hi ≤ Qc_of_Z 5000 ∧
    ∀ freqs v, v ∈ in_band (band_mask freqs lo hi) freqs →
      Qc_of_Z 10 < v ∧ v < Qc_of_Z 5000 ∧
      ∃ a b, a ∈ input_freq ∧ b ∈ input_freq ∧ a < v ∧ v < b.
Proof.
  apply (selected_frequencies_in_band ["H"; "L"] ["H.txt"; "L.txt"]
           (noise Toy.setup_HL) 0%nat "H").
  - exact load_noise_HL_ok.
  - reflexivity.
Defined.

Lemma NoDup_HL : NoDup ["H"; "L"].
Proof.
  apply NoDup_cons. split; [|apply NoDup_singleton].
  by intros [=]%list_elem_of_singleton.
Qed.

Lemma fresh_selection_succeeds_witness :
  ∃ s : selection,
    select_bands ["H"; "L"] (noise Toy.setup_HL)
      [Qc_of_Z 10; qc 1001 100; qc 1002 100] ([], []) = Ok s ∧
    length s.1 = length ["H"; "L"] ∧ length s.2 = length ["H"; "L"] ∧
    ∀ d mask psd, s.1 !! d = Some mask → s.2 !! d = Some psd →
      length mask = length [Qc_of_Z 10; qc 1001 100; qc 1002 100] ∧
      length psd = length (filter (λ b, b = true) mask).
Proof.
  apply (fresh_selection_succeeds ["H"; "L"] ["H.txt"; "L.txt"]).
  - exact load_noise_HL_ok.
  - exact NoDup_HL.
Defined.

Lemma toy_files_regular path input_freq strain :
  path ∈ ["H.txt"; "L.txt"] → loadtxt path = Ok (input_freq, strain) →
  NoDup input_freq ∧ 0 ∉ strain.
Proof.
  intros Hpath Hload.
  assert (input_freq = [qc 5 1; qc 8 1; qc 10045 1000] ∧ strain = [1; 1; 1])
    as [-> ->].
  { apply elem_of_cons in Hpath as [-> | Hpath];
      [| apply list_elem_of_singleton in Hpath as ->];
      apply Ok_inj, pair_equal_spec in Hload as [<- <-]; done. }
  split; apply (bool_decide_unpack _); by vm_compute.
Qed.

Lemma fresh_psd_samples_positive_witness :
  select_bands ["H"; "L"] (noise Toy.setup_HL)
    [Qc_of_Z 10; qc 1001 100; qc 1002 100] ([], []) = Ok Toy.lists_small ∧
  ∀ psd, psd ∈ Toy.lists_small.2 → Forall (λ v, 0 < v) psd.
Proof.
  assert (select_bands ["H"; "L"] (noise Toy.setup_HL)
            [Qc_of_Z 10; qc 1001 100; qc 1002 100] ([], [])
          = Ok Toy.lists_small) as Hs by (vm_compute; reflexivity).
  split; [exact Hs|].
  exact (fresh_psd_samples_positive ["H"; "L"] ["H.txt"; "L.txt"]
           (noise Toy.setup_HL) [Qc_of_Z 10; qc 1001 100; qc 1002 100]
           Toy.lists_small load_noise_HL_ok NoDup_HL toy_files_regular Hs).
Defined.

Lemma horizon_redshift_is_solver_output_witness :
  ∃ c prev st,
    read_setup (Qc_of_Z 33) (Qc_of_Z 33) ["H"; "L"] ["H.txt"; "L.txt"] "toy" 0
      = Ok c ∧
    solver_reachable c prev ∧ not_converged prev = true ∧
    solver_step c prev = Ok st ∧ not_converged st = false ∧
    input_dist st = input_dist prev * input_snr prev / snr_th ∧
    horizon_redshift Toy.result_HL
    = leastsq (λ z, findzfromDL z (input_dist st)) (input_redshift prev) ∧
    snr_at c (horizon_redshift Toy.result_HL) (input_dist st)
    = Ok (guess_snr st, lists st) ∧
    Qcabs (guess_snr st - snr_th) ≤ snr_th * qc 1 1000 ∧
    horizon_distance Toy.result_HL
    = luminosity_distance (horizon_redshift Toy.result_HL) cosmo.
Proof.
  apply (horizon_redshift_is_solver_output 20%nat (Qc_of_Z 33) (Qc_of_Z 33)
           ["H"; "L"] ["H.txt"; "L.txt"] "toy" 0%nat).
  exact run_HL_ok.
Defined.

Lemma state_HL_stepped : stepped Toy.setup_HL Toy.state_HL.
Proof. split; [reflexivity | vm_compute; reflexivity]. Qed.

Lemma shells_HL_same_grid :
  Forall (λ zi, ∃ hp' hc',
            get_htildas ((1 + zi) * m1 Toy.setup_HL) ((1 + zi) * m2 Toy.setup_HL)
              (luminosity_distance zi cosmo) (iota Toy.setup_HL) fmin fref df
              (approx Toy.setup_HL)
            = Ok (hp', hc', Toy.wave_HL.2)) Toy.shells_HL.1.
Proof.
  repeat (apply Forall_cons; split;
          [eexists _, _; vm_compute; reflexivity|]).
  apply Forall_nil_2.
Qed.

Lemma shell_snr_fresh_on_same_grid_witness :
  stepped Toy.setup_HL Toy.state_HL ∧
  ∀ i zi, Toy.shells_HL.1 !! i = Some zi →
    ∃ snr pw,
      snr_at Toy.setup_HL zi (luminosity_distance zi cosmo)
        = Ok (snr, lists Toy.state_HL) ∧
      antenna_weight Toy.table snr = Ok pw ∧
      Toy.shells_HL.2 !! i
        = Some (volume_element zi
                  (Qcabs ((0 - horizon_redshift Toy.result_HL)
                          / Qc_of_nat n_zstep)) pw).
Proof.
  split; [exact state_HL_stepped|].
  apply (shell_snr_fresh_on_same_grid Toy.setup_HL Toy.table Toy.state_HL
           (horizon_redshift Toy.result_HL) Toy.shells_HL.1 Toy.shells_HL.2
           Toy.wave_HL.1.1 Toy.wave_HL.1.2 Toy.wave_HL.2).
  - exact state_HL_stepped.
  - vm_compute. reflexivity.
  - exact shells_HL_ok.
  - exact shells_HL_same_grid.
Defined.

Lemma table_ok :
  interp1d [qc 97 100; qc 197 200; 1] [1; qc 3 4; qc 1 2] (Some 0)
  = Ok Toy.table.
Proof. vm_compute. reflexivity. Qed.

Lemma antenna_weight_zero_outside_table_witness :
  antenna_weight Toy.table (Qc_of_Z 6) = Ok 0.
Proof.
  apply (antenna_weight_zero_outside_table [qc 97 100; qc 197 200; 1]
           [1; qc 3 4; qc 1 2] Toy.table (Qc_of_Z 6) (qc 97 100) 1).
  - exact table_ok.
  - intros x Hx. rewrite !elem_of_cons, elem_of_nil in Hx.
    destruct Hx as [-> | [-> | [-> | []]]]; split; by vm_compute.
  - by vm_compute.
  - left. by vm_compute.
Defined.

Lemma cube_monotone (a b : Qc) : a ≤ b → a * a * a ≤ b * b * b.
Proof.
  intros Hab. qc_to_q.
  assert (0 <= (this b - this a) * ((this a + this b) * (this a + this b)
                                    + this a * this a + this b * this b))%Q
    as H.
  { apply Qmult_le_0_compat; [lra | nra]. }
  nra.
Qed.

Lemma toy_comoving_monotone a b :
  a ≤ b → comoving_volume a cosmo ≤ comoving_volume b cosmo.
Proof.
  intros Hab%cube_monotone. simpl.
  unfold Toy.toy_comoving_volume, Toy.toy_luminosity_distance.
  replace (Qc_of_Z 3000 / h cosmo) with (qc 500000 113)
    by (by apply Qc_is_canon).
  replace (qc 88 21 * (qc 500000 113 * a) * (qc 500000 113 * a)
           * (qc 500000 113 * a))
    with (qc 88 21 * qc 500000 113 * qc 500000 113 * qc 500000 113
          * (a * a * a)) by ring.
  replace (qc 88 21 * (qc 500000 113 * b) * (qc 500000 113 * b)
           * (qc 500000 113 * b))
    with (qc 88 21 * qc 500000 113 * qc 500000 113 * qc 500000 113
          * (b * b * b)) by ring.
  apply Qcmult_le_mono_nonneg_l; [by vm_compute | done].
Qed.

Lemma detectable_volume_nonneg_witness :
  0 ≤ detectable_volume Toy.result_HL.
Proof.
  apply (detectable_volume_nonneg 20%nat (Qc_of_Z 33) (Qc_of_Z 33)
           ["H"; "L"] ["H.txt"; "L.txt"] "toy" 0%nat).
  - exact run_HL_ok.
  - exact toy_comoving_monotone.
  - intros w Ps Hfile. apply Ok_inj, pair_equal_spec in Hfile as [<- <-].
    split.
    + apply (bool_decide_unpack _). by vm_compute.
    + repeat (constructor; [by vm_compute|]). constructor.
  - by vm_compute.
Defined.

Lemma percentile_lookup_succeeds_witness :
  ∃ zf, enclosed_redshift (qc 1 2) Toy.shells_HL.1 Toy.shells_HL.2
          (np_sum Toy.shells_HL.2) = Ok zf.
Proof.
  apply (percentile_lookup_succeeds Toy.setup_HL Toy.table
           (horizon_redshift Toy.result_HL) (lists Toy.state_HL)).
  - exact shells_HL_ok.
  - by vm_compute.
  - by vm_compute.
Defined.

Lemma percentile_lookup_raises_witness :
  (enclosed_redshift (qc 1 2) [1; qc 1 2] [-1; 0] (-1) = Raise ValueError
   ↔ ∀ c, c ∈ np_cumsum [-1; 0] → c < qc 1 2 * -1) ∧
  ((∃ zf, enclosed_redshift (qc 1 2) [1; qc 1 2] [-1; 0] (-1) = Ok zf) ∨
   enclosed_redshift (qc 1 2) [1; qc 1 2] [-1; 0] (-1) = Raise ValueError).
Proof.
  apply (percentile_lookup_raises (qc 1 2) [1; qc 1 2] [-1; 0] (-1)).
  reflexivity.
Defined.

Lemma zero_volume_returns_horizon_witness :
  enclosed_redshift (qc 1 2) (linspace_open (qc 1 10) 0 n_zstep).1
    (replicate 100 0) (np_sum (replicate 100 0)) = Ok (qc 1 10).
Proof.
  apply (zero_volume_returns_horizon (qc 1 2) (qc 1 10) (replicate 100 0)).
  - by vm_compute.
  - reflexivity.
  - by apply Forall_replicate.
Defined.

Lemma find_horizon_range_returns_only_if_witness :
  (∀ name, name ∈ ["H"; "L"] → name ∈ ["H"; "L"; "V"; "J"; "I"]) ∧
  (length ["H"; "L"] ≤ length ["H.txt"; "L.txt"])%nat ∧
  (∃ coord, genfromtxt_coord ("../data/horizon_coord_" +:+ "toy" +:+ ".txt")
            = Ok coord) ∧
  (∃ w_sample P_sample,
     genfromtxt ("../data/pw_" +:+ "toy" +:+ ".txt") = Ok (w_sample, P_sample) ∧
     length w_sample = length P_sample ∧ (2 ≤ length w_sample)%nat).
Proof.
  apply (find_horizon_range_returns_only_if 20%nat (Qc_of_Z 33) (Qc_of_Z 33)
           ["H"; "L"] ["H.txt"; "L.txt"] "toy" 0%nat Toy.result_HL).
  exact run_HL_ok.
Defined.

End further_small_world.
